(** * Generador de Spool y CTL para Oracle

    The first part embeds the browser logic of app/static/app.js: the
    export-path normalization, the HTML escaping of the preview table, the
    file name read from a Content-Disposition header and the folder picker.
    JavaScript strings are sequences of UTF-16 code units; they are modelled
    as lists of code units held in [N], and the functions keep the names
    they have in the script.

    The second part models the three backend components of the
    specification (sections 4.1, 4.2 and 4.4): the read-only SQL validator,
    the export-path sanitizer and the spool script generator.

    The third part states and proves the properties. *)

From Stdlib Require Import String Ascii List PeanoNat NArith Bool Lia.
Import ListNotations.
Open Scope N_scope.

(** ** Code-unit strings and the string methods the script calls *)

Module Text.

Definition t := list N.

(** An ASCII literal as a code-unit string. *)
Definition lit (s : string) : t := map N_of_ascii (list_ascii_of_string s).

Definition backslash : N := 92.
Definition slash : N := 47.
Definition dquote : N := 34.
Definition squote : N := 39.
Definition amp : N := 38.
Definition lt : N := 60.
Definition gt : N := 62.
Definition semicolon : N := 59.
Definition percent : N := 37.
Definition comma : N := 44.
Definition colon : N := 58.
Definition dollar : N := 36.

(** [s.includes(c)] for a one-character needle. *)
Definition includes (c : N) (s : t) : bool := existsb (N.eqb c) s.

(** [s.endsWith(c)] for a one-character needle. *)
Fixpoint endsWithChar (c : N) (s : t) : bool :=
  match s with
  | [] => false
  | x :: r => match r with [] => x =? c | _ :: _ => endsWithChar c r end
  end.

(** WhiteSpace and LineTerminator of ECMAScript: what [String.prototype.trim]
    strips. *)
Definition js_space (c : N) : bool :=
  (c =? 9) || (c =? 10) || (c =? 11) || (c =? 12) || (c =? 13) || (c =? 32)
  || (c =? 160) || (c =? 5760) || ((8192 <=? c) && (c <=? 8202))
  || (c =? 8232) || (c =? 8233) || (c =? 8239) || (c =? 8287)
  || (c =? 12288) || (c =? 65279).

Section Trim.
Variable ws : N -> bool.

Fixpoint trimStart (s : t) : t :=
  match s with
  | [] => []
  | c :: r => if ws c then trimStart r else s
  end.

Fixpoint trimEnd (s : t) : t :=
  match s with
  | [] => []
  | c :: r =>
      match trimEnd r with
      | [] => if ws c then [] else [c]
      | k => c :: k
      end
  end.

Definition trim (s : t) : t := trimEnd (trimStart s).
End Trim.

(** [xs.join(sep)] on an array of strings. *)
Fixpoint join (sep : t) (xs : list t) : t :=
  match xs with
  | [] => []
  | x :: r => match r with [] => x | _ :: _ => x ++ sep ++ join sep r end
  end.

Fixpoint eqb (a b : t) : bool :=
  match a, b with
  | [], [] => true
  | x :: a', y :: b' => (x =? y) && eqb a' b'
  | _, _ => false
  end.

(** A text that does not begin with white space. *)
Definition starts_clean (ws : N -> bool) (s : t) : Prop :=
  match s with [] => True | c :: _ => ws c = false end.

(** A character that is no white space. *)
Definition solid (ws : N -> bool) (c : N) : bool := negb (ws c).

(** [part] occurs in [s]. *)
Definition Holds (part s : t) : Prop := exists a b, s = a ++ part ++ b.

End Text.

(** ** app/static/app.js *)

Module App.
Import Text.

(** [ensureTrailingSeparator(value)], lines 92-100.  [!value] holds of the
    empty string, which is returned as it is. *)
Definition ensureTrailingSeparator (value : Text.t) : Text.t :=
  match value with
  | [] => value
  | _ :: _ =>
      let v := trim js_space value in
      let hasBack := includes backslash v in
      let hasFwd := includes slash v && negb hasBack in
      let sep := if hasBack || negb hasFwd then backslash else slash in
      if endsWithChar backslash v || endsWithChar slash v then v
      else v ++ [sep]
  end.

(** The separator ensureTrailingSeparator appends, as a function of the
    trimmed value. *)
Definition chosen_separator (v : Text.t) : N :=
  if includes backslash v || negb (includes slash v && negb (includes backslash v))
  then backslash else slash.

(** Both separator styles occur in a string. *)
Definition mixes_separators (s : Text.t) : bool :=
  includes backslash s && includes slash s.

(** The replacement function of [escapeHtml], lines 261-266, on one matched
    character of the class: ampersand, less-than, greater-than, double
    quote, single quote. *)
Definition escapeChar (m : N) : Text.t :=
  if m =? amp then lit "&amp;"
  else if m =? lt then lit "&lt;"
  else if m =? gt then lit "&gt;"
  else if m =? dquote then lit "&quot;"
  else lit "&#039;".

Definition htmlSpecial (c : N) : bool :=
  (c =? amp) || (c =? lt) || (c =? gt) || (c =? dquote) || (c =? squote).

(** [escapeHtml(s)], lines 260-267: a global replace over the code units. *)
Definition escapeHtml (s : Text.t) : Text.t :=
  flat_map (fun c => if htmlSpecial c then escapeChar c else [c]) s.

(** The five replacement entities. *)
Definition entities : list Text.t :=
  [lit "&amp;"; lit "&lt;"; lit "&gt;"; lit "&quot;"; lit "&#039;"].

(** The characters that could open or close markup or an attribute
    value. *)
Definition markup_char (c : N) : bool :=
  (c =? lt) || (c =? gt) || (c =? dquote) || (c =? squote).

(** *** getFilenameFromDisposition, lines 55-60 *)

Definition star : N := 42.
Definition equals : N := 61.

(** The i flag of a RegExp without the u flag compares canonicalized code
    units; for an ASCII pattern character that means: equal up to the case
    of an ASCII letter (a code unit above 127 never canonicalizes to an
    ASCII one). *)
Definition upperAscii (c : N) : N :=
  if (97 <=? c) && (c <=? 122) then c - 32 else c.

Definition ci_eqb (p c : N) : bool := upperAscii p =? upperAscii c.

Fixpoint stripPrefixCi (pat s : Text.t) : option Text.t :=
  match pat with
  | [] => Some s
  | p :: pat' =>
      match s with
      | c :: s' => if ci_eqb p c then stripPrefixCi pat' s' else None
      | [] => None
      end
  end.

Definition stripChar (p : N) (s : Text.t) : option Text.t :=
  match s with
  | c :: r => if c =? p then Some r else None
  | [] => None
  end.

Definition andThen {A B} (a : option A) (k : A -> option B) : option B :=
  match a with Some x => k x | None => None end.

(** Backtracking: the first alternative that leads to a match wins. *)
Definition orElse {A} (a b : option A) : option A :=
  match a with Some _ => a | None => b end.

Fixpoint takeWhile (f : N -> bool) (s : Text.t) : Text.t :=
  match s with
  | [] => []
  | c :: r => if f c then c :: takeWhile f r else []
  end.

(** The class of the capture group: anything but a double quote and a
    semicolon. *)
Definition valueChar (c : N) : bool :=
  negb (c =? dquote) && negb (c =? semicolon).

(** The capture group, a greedy run of one or more class characters that
    ends the pattern. *)
Definition matchValue (s : Text.t) : option Text.t :=
  match takeWhile valueChar s with
  | [] => None
  | m => Some m
  end.

(** The optional group: the charset prefix, else a double quote, else
    nothing. *)
Definition matchAfterEquals (s : Text.t) : option Text.t :=
  orElse (andThen (stripPrefixCi (lit "UTF-8''") s) matchValue)
    (orElse (andThen (stripChar dquote s) matchValue) (matchValue s)).

(** The optional star, then the equals sign. *)
Definition matchAfterName (s : Text.t) : option Text.t :=
  orElse
    (andThen (stripChar star s)
       (fun r => andThen (stripChar equals r) matchAfterEquals))
    (andThen (stripChar equals s) matchAfterEquals).

(** The whole pattern tried at the head of [s]; the result is capture
    group 1. *)
Definition matchAt (s : Text.t) : option Text.t :=
  andThen (stripPrefixCi (lit "filename") s) matchAfterName.

(** [exec]: the leftmost position at which the pattern matches. *)
Fixpoint regexExec (s : Text.t) : option Text.t :=
  match matchAt s with
  | Some m => Some m
  | None => match s with [] => None | _ :: r => regexExec r end
  end.

(** [.replace] of every double quote by nothing. *)
Definition removeQuotes (s : Text.t) : Text.t :=
  filter (fun c => negb (c =? dquote)) s.

(** **** decodeURIComponent (ECMA-262, Decode with an empty reserved set) *)

Definition hexDigit (c : N) : option N :=
  if (48 <=? c) && (c <=? 57) then Some (c - 48)
  else if (65 <=? c) && (c <=? 70) then Some (c - 55)
  else if (97 <=? c) && (c <=? 102) then Some (c - 87)
  else None.

(** The octet of the escape (percent sign and two hex digits) at the head
    of [s]. *)
Definition escapeOctet (s : Text.t) : option N :=
  match s with
  | p :: h :: l :: _ =>
      if p =? percent then
        match hexDigit h, hexDigit l with
        | Some a, Some b => Some (16 * a + b)
        | _, _ => None
        end
      else None
  | _ => None
  end.

(** The octets of [n] escapes in a row at the head of [s]. *)
Fixpoint escapeOctets (n : nat) (s : Text.t) : option (list N) :=
  match n with
  | O => Some []
  | S n' =>
      andThen (escapeOctet s)
        (fun b => option_map (cons b) (escapeOctets n' (skipn 3 s)))
  end.

(** The number of leading 1 bits of an octet (5 stands for 5 or more). *)
Definition leadingOnes (b : N) : nat :=
  if b <? 128 then 0
  else if b <? 192 then 1
  else if b <? 224 then 2
  else if b <? 240 then 3
  else if b <? 248 then 4
  else 5.

Definition continuation (b : N) : bool := (128 <=? b) && (b <? 192).

Definition scalarValue (lo cp : N) : option N :=
  if (lo <=? cp) && (cp <=? 1114111) && negb ((55296 <=? cp) && (cp <=? 57343))
  then Some cp else None.

(** The code point of a well-formed UTF-8 sequence of two to four octets:
    no overlong form, no surrogate, nothing above U+10FFFF. *)
Definition utf8CodePoint (octets : list N) : option N :=
  match octets with
  | [b0; b1] =>
      if continuation b1
      then scalarValue 128 ((b0 - 192) * 64 + (b1 - 128))
      else None
  | [b0; b1; b2] =>
      if continuation b1 && continuation b2
      then scalarValue 2048 ((b0 - 224) * 4096 + (b1 - 128) * 64 + (b2 - 128))
      else None
  | [b0; b1; b2; b3] =>
      if continuation b1 && continuation b2 && continuation b3
      then scalarValue 65536
             ((b0 - 240) * 262144 + (b1 - 128) * 4096
              + (b2 - 128) * 64 + (b3 - 128))
      else None
  | _ => None
  end.

Definition utf16Encode (cp : N) : Text.t :=
  if cp <? 65536 then [cp]
  else [55296 + (cp - 65536) / 1024; 56320 + (cp - 65536) mod 1024].

(** One turn of the loop of Decode at a position whose remaining text is
    [s]: the code units to append and how many further code units the turn
    consumed; [None] is the URIError. *)
Definition decodeAt (s : Text.t) : option (Text.t * nat) :=
  match s with
  | [] => Some ([], O)
  | c :: _ =>
      if c =? percent then
        andThen (escapeOctet s)
          (fun b =>
             match leadingOnes b with
             | O => Some ([b], 2%nat)
             | 1%nat => None
             | 5%nat => None
             | n =>
                 andThen (escapeOctets n s)
                   (fun os =>
                      andThen (utf8CodePoint os)
                        (fun cp => Some (utf16Encode cp, (3 * n - 1)%nat)))
             end)
      else Some ([c], O)
  end.

Fixpoint decodeFrom (skip : nat) (s : Text.t) : option Text.t :=
  match s with
  | [] => Some []
  | _ :: r =>
      match skip with
      | S k => decodeFrom k r
      | O =>
          andThen (decodeAt s)
            (fun step => option_map (app (fst step)) (decodeFrom (snd step) r))
      end
  end.

(** [None] stands for the URIError the call throws. *)
Definition decodeURIComponent (s : Text.t) : option Text.t := decodeFrom 0 s.

(** How a call of getFilenameFromDisposition ends. *)
Inductive Completion :=
| ReturnsNull
| ReturnsString (s : Text.t)
| ThrowsURIError.

(** [disposition] is what [res.headers.get] gave: null ([None]) or a
    string; [!disposition] holds of null and of the empty string. *)
Definition getFilenameFromDisposition (disposition : option Text.t) : Completion :=
  match disposition with
  | None => ReturnsNull
  | Some [] => ReturnsNull
  | Some d =>
      match regexExec d with
      | None => ReturnsNull
      | Some m =>
          match decodeURIComponent (trim js_space (removeQuotes m)) with
          | Some s => ReturnsString s
          | None => ThrowsURIError
          end
      end
  end.

(** *** The folder picker, initPathModal, lines 432-604 *)

(** A child of the list box: its two attributes as getAttribute reads them
    (null when the attribute is absent), its text, and whether it carries
    the class is-selected.  Every child the script writes has the class
    path-item. *)
Record Row := {
  dataPath : option Text.t;
  dataDenied : option Text.t;
  textContent : Text.t;
  isSelected : bool
}.

(** The object held by the variable [selected], line 450. *)
Record Selection := {
  name : Text.t;
  path : Text.t;
  denied : bool
}.

(** An entry of [payload.folders] and the payload of /api/v1/fs/list. *)
Record Folder := {
  folderName : Text.t;
  folderPath : Text.t;
  folderDenied : bool
}.

Record Payload := {
  payloadPath : Text.t;
  payloadParent : Text.t;
  payloadFolders : list Folder
}.

(** The variables and DOM fields the handlers of the modal read and write.
    [requests] records each path given to listPath, newest first. *)
Record Modal := {
  hidden : bool;
  currentPath : Text.t;
  selected : option Selection;
  listBox : list Row;
  currentInput : Text.t;
  upParent : Text.t;
  exportInput : Text.t;
  requests : list Text.t
}.

Definition setSelected (sel : option Selection) (m : Modal) : Modal :=
  {| hidden := hidden m; currentPath := currentPath m; selected := sel;
     listBox := listBox m; currentInput := currentInput m;
     upParent := upParent m; exportInput := exportInput m;
     requests := requests m |}.

Definition setListBox (rows : list Row) (m : Modal) : Modal :=
  {| hidden := hidden m; currentPath := currentPath m; selected := selected m;
     listBox := rows; currentInput := currentInput m;
     upParent := upParent m; exportInput := exportInput m;
     requests := requests m |}.

Definition setHidden (h : bool) (m : Modal) : Modal :=
  {| hidden := h; currentPath := currentPath m; selected := selected m;
     listBox := listBox m; currentInput := currentInput m;
     upParent := upParent m; exportInput := exportInput m;
     requests := requests m |}.

(** [a || b] on strings: the empty string is falsy. *)
Definition orDefault (a b : Text.t) : Text.t :=
  match a with [] => b | _ :: _ => a end.

Definition orEmpty (a : option Text.t) : Text.t :=
  match a with Some s => s | None => [] end.

(** The row listPath writes for a folder, lines 525-531; the browser reads
    the escaped attribute value back as the path itself. *)
Definition folderRow (f : Folder) : Row :=
  {| dataPath := Some (folderPath f);
     dataDenied := Some (if folderDenied f then lit "1" else lit "0");
     textContent :=
       [10] ++ lit "              " ++ folderName f
       ++ [10] ++ lit "              "
       ++ (if folderDenied f then lit "Restringido" else [])
       ++ [10] ++ lit "          ";
     isSelected := false |}.

(** The single row of line 523, with no attribute. *)
Definition emptyRow : Row :=
  {| dataPath := None; dataDenied := None;
     textContent := lit "(Sin subcarpetas)"; isSelected := false |}.

(** listPath up to its first await, lines 500-504. *)
Definition listPathBegin (p : Text.t) (m : Modal) : Modal :=
  {| hidden := hidden m; currentPath := currentPath m; selected := None;
     listBox := listBox m; currentInput := currentInput m;
     upParent := upParent m; exportInput := exportInput m;
     requests := p :: requests m |}.

(** listPath after a good response, lines 517-538. *)
Definition listPathDone (p : Text.t) (payload : Payload) (m : Modal) : Modal :=
  let cur := orDefault (payloadPath payload) p in
  {| hidden := hidden m; currentPath := cur; selected := selected m;
     listBox :=
       match payloadFolders payload with
       | [] => [emptyRow]
       | fs => map folderRow fs
       end;
     currentInput := cur;
     upParent := payloadParent payload;
     exportInput := exportInput m;
     requests := requests m |}.

Definition isDenied (row : Row) : bool :=
  match dataDenied row with
  | Some v => Text.eqb v (lit "1")
  | None => false
  end.

Definition markSelected (on : bool) (row : Row) : Row :=
  {| dataPath := dataPath row; dataDenied := dataDenied row;
     textContent := textContent row; isSelected := on |}.

(** Remove is-selected from every row, then add it to row [i]. *)
Fixpoint selectOnly (i : nat) (rows : list Row) {struct rows} : list Row :=
  match rows with
  | [] => []
  | r :: rest =>
      match i with
      | O => markSelected true r :: map (markSelected false) rest
      | S j => markSelected false r :: selectOnly j rest
      end
  end.

(** [selectRow(rowEl)], lines 541-554; [rowEl] is null ([None]) or the
    child at an index of the list box. *)
Definition selectRow (rowEl : option nat) (m : Modal) : Modal :=
  match rowEl with
  | None => m
  | Some i =>
      match nth_error (listBox m) i with
      | None => m
      | Some row =>
          if isDenied row then m
          else
            setSelected
              (Some {| name := textContent row;
                       path := orEmpty (dataPath row);
                       denied := false |})
              (setListBox (selectOnly i (listBox m)) m)
      end
  end.

(** The double-click handler, lines 582-590, up to the await of listPath. *)
Definition onDblClick (target : option nat) (m : Modal) : Modal :=
  match target with
  | None => m
  | Some i =>
      match nth_error (listBox m) i with
      | None => m
      | Some row =>
          if isDenied row then m
          else
            match dataPath row with
            | None => m
            | Some [] => m
            | Some p => listPathBegin p m
            end
      end
  end.

(** openModal, lines 457-466, and closeModal, lines 468-474. *)
Definition openModal (m : Modal) : Modal :=
  setListBox [] (setSelected None (setHidden false m)).

Definition closeModal (m : Modal) : Modal :=
  setSelected None (setHidden true m).

(** The select button, lines 592-600. *)
Definition onSelectClick (m : Modal) : Modal :=
  match ensureTrailingSeparator (trim js_space (currentInput m)) with
  | [] => m
  | p =>
      closeModal
        {| hidden := hidden m; currentPath := currentPath m;
           selected := selected m; listBox := listBox m;
           currentInput := currentInput m; upParent := upParent m;
           exportInput := p; requests := requests m |}
  end.

(** What can happen to the modal: the user's actions and the answers of the
    two endpoints.  A failed answer only writes the status line. *)
Inductive Event :=
| BrowseClick
| CloseClick
| RootsAnswer (initial : Text.t)
| RootChange (p : Text.t)
| TypeCurrent (text : Text.t)
| GoClick
| UpClick
| RowClick (target : option nat)
| RowDblClick (target : option nat)
| SelectClick
| ListAnswer (p : Text.t) (payload : Payload)
| AnswerFailed.

Definition handle (m : Modal) (e : Event) : Modal :=
  match e with
  | BrowseClick => openModal m
  | CloseClick => closeModal m
  | RootsAnswer initial =>
      match initial with [] => m | _ :: _ => listPathBegin initial m end
  | RootChange p => listPathBegin p m
  | TypeCurrent text =>
      {| hidden := hidden m; currentPath := currentPath m;
         selected := selected m; listBox := listBox m;
         currentInput := text; upParent := upParent m;
         exportInput := exportInput m; requests := requests m |}
  | GoClick =>
      match trim js_space (currentInput m) with
      | [] => m
      | p => listPathBegin p m
      end
  | UpClick =>
      match upParent m with [] => m | p => listPathBegin p m end
  | RowClick target => selectRow target m
  | RowDblClick target => onDblClick target m
  | SelectClick => onSelectClick m
  | ListAnswer p payload => listPathDone p payload m
  | AnswerFailed => m
  end.

(** The modal when initPathModal returns, with whatever the export input
    already holds. *)
Definition initial (exportValue : Text.t) : Modal :=
  {| hidden := true; currentPath := []; selected := None; listBox := [];
     currentInput := []; upParent := []; exportInput := exportValue;
     requests := [] |}.

Definition run (m : Modal) (events : list Event) : Modal :=
  fold_left handle events m.

(** The selection holds no denied entry, and no row marked as denied is
    highlighted. *)
Definition selectionAllowed (m : Modal) : Prop :=
  (forall sel, selected m = Some sel -> denied sel = false)
  /\ (forall row, In row (listBox m) -> isDenied row = true -> isSelected row = false).

(** *** setPanelOpen and initAccordion, lines 7-11 and 39-53 *)

(** A panel of the accordion: its data-open value ([None] while the
    attribute is absent) and, when it holds an accordion button, the
    aria-expanded attribute of that button.  Panels are taken not to be
    nested, so each button belongs to one panel. *)
Record Panel := {
  panelOpen : option Text.t;
  panelButton : option (option Text.t)
}.

Definition boolText (b : bool) : Text.t := if b then lit "true" else lit "false".

Definition setPanelOpen (panel : Panel) (open : bool) : Panel :=
  {| panelOpen := Some (boolText open);
     panelButton :=
       match panelButton panel with
       | Some _ => Some (Some (boolText open))
       | None => None
       end |}.

(** [panel.dataset.open === "true"]. *)
Definition isOpenPanel (panel : Panel) : bool :=
  match panelOpen panel with
  | Some v => Text.eqb v (lit "true")
  | None => false
  end.

Definition hasButton (panel : Panel) : bool :=
  match panelButton panel with Some _ => true | None => false end.

(** Every panel but the one at index [i] is closed, then that one is set to
    [open]. *)
Fixpoint closeOthers (i : nat) (open : bool) (panels : list Panel) {struct panels}
  : list Panel :=
  match panels with
  | [] => []
  | p :: rest =>
      match i with
      | O => setPanelOpen p open :: map (fun q => setPanelOpen q false) rest
      | S j => setPanelOpen p false :: closeOthers j open rest
      end
  end.

(** The click listener of the button of panel [i], lines 45-49; a panel
    without a button has no listener. *)
Definition onAccordionClick (panels : list Panel) (i : nat) : list Panel :=
  match nth_error panels i with
  | Some panel =>
      if hasButton panel
      then closeOthers i (negb (isOpenPanel panel)) panels
      else panels
  | None => panels
  end.

(** The aria-expanded attribute of the button, when there is one, equals
    the data-open attribute of the panel. *)
Definition buttonSynced (panel : Panel) : Prop :=
  forall attr, panelButton panel = Some attr -> attr = panelOpen panel.

Definition openCount (panels : list Panel) : nat :=
  length (filter isOpenPanel panels).

(** Panel [i] exists and has a button, so a click listener. *)
Definition clickable (panels : list Panel) (i : nat) : bool :=
  match nth_error panels i with
  | Some panel => hasButton panel
  | None => false
  end.

(** initAccordion apart from the listeners: the first panel is opened when
    it has a button. *)
Definition initAccordion (panels : list Panel) : list Panel :=
  match panels with
  | p :: rest => if hasButton p then setPanelOpen p true :: rest else panels
  | [] => []
  end.

(** *** initThemeToggle, lines 13-37 *)

Record ToggleButton := {
  buttonText : Text.t;
  ariaPressed : option Text.t
}.

(** The data-theme attribute of the document, the ui_theme entry of
    localStorage, and the toggle button when the page has one. *)
Record ThemeState := {
  themeAttr : option Text.t;
  storedTheme : option Text.t;
  toggleButton : option ToggleButton
}.

Definition isLightTheme (theme : Text.t) : bool := Text.eqb theme (lit "light").

(** [apply(theme)], lines 17-24. *)
Definition applyTheme (theme : Text.t) (st : ThemeState) : ThemeState :=
  {| themeAttr := Some theme;
     storedTheme := storedTheme st;
     toggleButton :=
       match toggleButton st with
       | Some _ =>
           Some {| buttonText :=
                     if isLightTheme theme then lit "Modo oscuro" else lit "Modo claro";
                   ariaPressed := Some (boolText (isLightTheme theme)) |}
       | None => None
       end |}.

(** Line 27: the theme already set, or dark. *)
Definition currentTheme (st : ThemeState) : Text.t :=
  match themeAttr st with
  | Some t => orDefault t (lit "dark")
  | None => lit "dark"
  end.

(** Lines 27-28. *)
Definition initThemeToggle (st : ThemeState) : ThemeState :=
  applyTheme (currentTheme st) st.

(** What the button shows for a theme. *)
Definition buttonFor (theme : Text.t) : ToggleButton :=
  {| buttonText := if isLightTheme theme then lit "Modo oscuro" else lit "Modo claro";
     ariaPressed := Some (boolText (isLightTheme theme)) |}.

(** The click listener, lines 32-36; without a button there is none. *)
Definition onThemeClick (st : ThemeState) : ThemeState :=
  match toggleButton st with
  | None => st
  | Some _ =>
      let now :=
        match themeAttr st with
        | Some t => if isLightTheme t then lit "dark" else lit "light"
        | None => lit "light"
        end in
      applyTheme now
        {| themeAttr := themeAttr st; storedTheme := Some now;
           toggleButton := toggleButton st |}
  end.

(** *** initLightValidation and restoreSpoolPrefs, lines 102-128 *)

(** The values of the two inputs ([None] when the page lacks the input) and
    the two entries of localStorage.  The value of a single-line input holds
    no line break, and the setter stores such a value as it is. *)
Record SpoolFields := {
  exportField : option Text.t;
  reportField : option Text.t;
  savedExportPath : option Text.t;
  savedReportName : option Text.t
}.

(** The blur listener of the export path, lines 105-108. *)
Definition onExportBlur (f : SpoolFields) : SpoolFields :=
  match exportField f with
  | None => f
  | Some v =>
      {| exportField := Some (ensureTrailingSeparator v);
         reportField := reportField f;
         savedExportPath := Some (ensureTrailingSeparator v);
         savedReportName := savedReportName f |}
  end.

(** The blur listener of the report name, lines 113-115. *)
Definition onReportBlur (f : SpoolFields) : SpoolFields :=
  match reportField f with
  | None => f
  | Some v =>
      {| exportField := exportField f;
         reportField := reportField f;
         savedExportPath := savedExportPath f;
         savedReportName := Some (trim js_space v) |}
  end.

(** A string that is neither null nor empty. *)
Definition truthy (s : option Text.t) : bool :=
  match s with Some (_ :: _) => true | _ => false end.

Definition blank (s : Text.t) : bool :=
  match trim js_space s with [] => true | _ :: _ => false end.

Definition restoreField (field saved : option Text.t) : option Text.t :=
  match field with
  | Some v => if truthy saved && blank v then saved else field
  | None => None
  end.

(** restoreSpoolPrefs, lines 119-128. *)
Definition restoreSpoolPrefs (f : SpoolFields) : SpoolFields :=
  {| exportField := restoreField (exportField f) (savedExportPath f);
     reportField := restoreField (reportField f) (savedReportName f);
     savedExportPath := savedExportPath f;
     savedReportName := savedReportName f |}.

(** The page loaded again: the inputs hold what the markup gives them, the
    storage is kept. *)
Definition reloaded (exportMarkup reportMarkup : Text.t) (f : SpoolFields) : SpoolFields :=
  {| exportField := Some exportMarkup; reportField := Some reportMarkup;
     savedExportPath := savedExportPath f;
     savedReportName := savedReportName f |}.

(** *** The file name of a good response, lines 210-214, and downloadBlob,
    lines 62-71 *)

(** The download attribute downloadBlob gives the link, line 66. *)
Definition downloadAttribute (filename : Text.t) : Text.t :=
  orDefault filename (lit "download").

Inductive SubmitOutcome :=
| Downloaded (download : Text.t)
| UnexpectedError.

(** submitAsFetch from line 210 on, for a response that is ok: the file name
    of the header or archivo_generado; a throw of getFilenameFromDisposition
    or a failed read of the body ends in the catch of line 217. *)
Definition onOkResponse (disposition : option Text.t) (bodyRead : bool) : SubmitOutcome :=
  match getFilenameFromDisposition disposition with
  | ThrowsURIError => UnexpectedError
  | ReturnsNull =>
      if bodyRead then Downloaded (downloadAttribute (lit "archivo_generado"))
      else UnexpectedError
  | ReturnsString s =>
      if bodyRead
      then Downloaded (downloadAttribute (orDefault s (lit "archivo_generado")))
      else UnexpectedError
  end.

(** *** renderPreviewTable, lines 230-258 *)

(** A cell of a row: null or undefined ([None]), or the text [String] gives
    its value. *)
Definition Cell := option Text.t.

(** A row of the payload: a falsy value ([None]) or an array of cells. *)
Definition PreviewRow := option (list Cell).

Definition spaces (n : nat) : Text.t := repeat 32 n.

(** [String(n)] of a length. *)
Fixpoint uintText (d : Decimal.uint) : Text.t :=
  match d with
  | Decimal.Nil => []
  | Decimal.D0 r => 48 :: uintText r
  | Decimal.D1 r => 49 :: uintText r
  | Decimal.D2 r => 50 :: uintText r
  | Decimal.D3 r => 51 :: uintText r
  | Decimal.D4 r => 52 :: uintText r
  | Decimal.D5 r => 53 :: uintText r
  | Decimal.D6 r => 54 :: uintText r
  | Decimal.D7 r => 55 :: uintText r
  | Decimal.D8 r => 56 :: uintText r
  | Decimal.D9 r => 57 :: uintText r
  end.

Definition lengthText (n : nat) : Text.t := uintText (Nat.to_uint n).

(** Line 244: a header cell. *)
Definition headerCell (c : Text.t) : Text.t :=
  lit "<th>" ++ escapeHtml c ++ lit "</th>".

(** Lines 242-246. *)
Definition renderHead (cols : list Text.t) : Text.t :=
  [10] ++ spaces 6 ++ lit "<thead>" ++ [10] ++ spaces 8 ++ lit "<tr>"
  ++ concat (map headerCell cols) ++ lit "</tr>" ++ [10] ++ spaces 6
  ++ lit "</thead>" ++ [10] ++ spaces 4.

(** Line 250: the value shown in column [i] of row [r]. *)
Definition cellAt (r : PreviewRow) (i : nat) : Cell :=
  match r with
  | None => Some []
  | Some cells =>
      match nth_error cells i with
      | Some v => v
      | None => Some []
      end
  end.

(** Line 251. *)
Definition bodyCell (v : Cell) : Text.t :=
  lit "<td>" ++ escapeHtml (match v with None => [] | Some s => s end) ++ lit "</td>".

(** Lines 248-254: the row has one cell for each column. *)
Definition bodyRow (ncols : nat) (r : PreviewRow) : Text.t :=
  lit "<tr>" ++ concat (map (fun i => bodyCell (cellAt r i)) (seq 0 ncols))
  ++ lit "</tr>".

(** The row of line 256 for a table without rows. *)
Definition noRowsRow (ncols : nat) : Text.t :=
  lit "<tr><td colspan=" ++ [dquote] ++ lengthText ncols ++ [dquote]
  ++ lit ">Sin filas para mostrar.</td></tr>".

(** The innerHTML renderPreviewTable gives the table, for the columns and
    rows of the payload. *)
Definition renderPreviewTable (cols : list Text.t) (rows : list PreviewRow) : Text.t :=
  match cols with
  | [] => lit "<tbody><tr><td>No se detectaron columnas.</td></tr></tbody>"
  | _ :: _ =>
      renderHead cols
      ++ lit "<tbody>"
      ++ orDefault (concat (map (bodyRow (length cols)) rows)) (noRowsRow (length cols))
      ++ lit "</tbody>"
  end.

(** The number of occurrences of a code unit. *)
Definition occurrences (c : N) (s : Text.t) : nat :=
  length (filter (N.eqb c) s).

(** The number of less-than signs, and of greater-than signs, of the tags
    the template of renderPreviewTable writes for a table of the given
    numbers of columns and rows. *)
Definition templateTags (ncols nrows : nat) : nat :=
  match ncols with
  | O => 6
  | S _ =>
      6 + 2 * ncols
      + match nrows with
        | O => 4
        | S _ => nrows * (2 + 2 * ncols)
        end
  end.

(** *** Reading escaped text back *)

Fixpoint startsWith (pat s : Text.t) : bool :=
  match pat with
  | [] => true
  | p :: pat' =>
      match s with
      | c :: s' => (c =? p) && startsWith pat' s'
      | [] => false
      end
  end.

(** The character an entity of escapeHtml stands for, with the number of
    code units after its ampersand. *)
Definition entityAt (s : Text.t) : option (N * nat) :=
  if startsWith (lit "&amp;") s then Some (amp, 4%nat)
  else if startsWith (lit "&lt;") s then Some (lt, 3%nat)
  else if startsWith (lit "&gt;") s then Some (gt, 3%nat)
  else if startsWith (lit "&quot;") s then Some (dquote, 5%nat)
  else if startsWith (lit "&#039;") s then Some (squote, 5%nat)
  else None.

(** The text a browser reads from escaped markup, as far as the five
    entities go. *)
Fixpoint unescapeFrom (skip : nat) (s : Text.t) : Text.t :=
  match s with
  | [] => []
  | c :: r =>
      match skip with
      | S k => unescapeFrom k r
      | O =>
          match entityAt s with
          | Some (ch, n) => ch :: unescapeFrom n r
          | None => c :: unescapeFrom O r
          end
      end
  end.

(** *** The modal without its row selection *)

Definition isRowClick (e : Event) : bool :=
  match e with RowClick _ => true | _ => false end.

(** Two states of the modal that differ at most in the selection and in the
    rows that carry is-selected. *)
Definition SameButSelection (a b : Modal) : Prop :=
  hidden a = hidden b /\ currentPath a = currentPath b
  /\ currentInput a = currentInput b /\ upParent a = upParent b
  /\ exportInput a = exportInput b /\ requests a = requests b
  /\ map (markSelected false) (listBox a) = map (markSelected false) (listBox b).

End App.

(** ** The backend components the interface relies on

    The validator (app/db/sql_sample.py), the sanitizer
    (app/core/settings.py) and the generators (app/services/generators.py)
    are Python modules of the server; the three modules below follow their
    descriptions in sections 4.1, 4.2 and 4.4 of the specification. *)

Module SqlValidator.
Import Text.

(** Modelled from the spec: the white space that step 1 of section 4.1
    strips around a statement (sql_sample.py is missing). *)
Definition sqlSpace (c : N) : bool :=
  (c =? 32) || (c =? 9) || (c =? 10) || (c =? 11) || (c =? 12) || (c =? 13).

Definition dash : N := 45.
Definition asterisk : N := 42.
Definition newline : N := 10.

(** Where the scan of the raw text stands: in code, inside a quoted literal
    or quoted identifier opened by the quote [q], or inside a comment. *)
Inductive Scan := InCode | InQuoted (q : N) | InLineComment | InBlockComment.

(** The quotes of literals and of quoted identifiers: single quote, double
    quote and backquote. *)
Definition isQuote (c : N) : bool := (c =? squote) || (c =? dquote) || (c =? 96).

Definition lineEnd (c : N) : bool := (c =? newline) || (c =? 13).

(** Modelled from the spec: step 1 of section 4.1, strip SQL comments
    (sql_sample.py is missing): a line comment runs from two dashes to the
    end of the line, a block comment from slash-star to star-slash and
    reads as one blank.  Quoted text is code: two dashes or a slash-star
    between quotes open no comment, and a quote inside a comment opens no
    literal. *)
Fixpoint stripFrom (st : Scan) (s : Text.t) : Text.t :=
  match s with
  | [] => []
  | c :: r =>
      match st with
      | InCode =>
          if isQuote c then c :: stripFrom (InQuoted c) r
          else
            match r with
            | d :: r' =>
                if (c =? dash) && (d =? dash) then stripFrom InLineComment r'
                else if (c =? slash) && (d =? asterisk) then stripFrom InBlockComment r'
                else c :: stripFrom InCode r
            | [] => [c]
            end
      | InQuoted q =>
          c :: stripFrom (if c =? q then InCode else InQuoted q) r
      | InLineComment =>
          if lineEnd c then c :: stripFrom InCode r
          else stripFrom InLineComment r
      | InBlockComment =>
          match r with
          | d :: r' =>
              if (c =? asterisk) && (d =? slash) then 32 :: stripFrom InCode r'
              else stripFrom InBlockComment r
          | [] => []
          end
      end
  end.

Definition stripComments (s : Text.t) : Text.t := stripFrom InCode s.

(** Modelled from the spec: step 2 of section 4.1, a trailing separator is
    tolerated (sql_sample.py is missing). *)
Definition dropTrailingSeparator (s : Text.t) : Text.t :=
  if endsWithChar semicolon s then removelast s else s.

(** Modelled from the spec: the normalized statement of section 4.1,
    comments and surrounding white space stripped and one trailing
    separator dropped (sql_sample.py is missing). *)
Definition normalizeSql (raw : Text.t) : Text.t :=
  trim sqlSpace (dropTrailingSeparator (trim sqlSpace (stripComments raw))).

Definition upper (s : Text.t) : Text.t := map App.upperAscii s.

Definition wordChar (c : N) : bool :=
  ((97 <=? c) && (c <=? 122)) || ((65 <=? c) && (c <=? 90))
  || ((48 <=? c) && (c <=? 57)) || (c =? 95) || (c =? 36) || (c =? 35).

(** Modelled from the spec: the first token of step 3 of section 4.1, in
    upper case (sql_sample.py is missing). *)
Definition firstWord (s : Text.t) : Text.t := upper (App.takeWhile wordChar s).

Fixpoint dropWhile (f : N -> bool) (s : Text.t) : Text.t :=
  match s with
  | [] => []
  | c :: r => if f c then dropWhile f r else s
  end.

Definition flush (cur : Text.t) (rest : list Text.t) : list Text.t :=
  match cur with [] => rest | _ :: _ => cur :: rest end.

(** Modelled from the spec: the tokenizer of step 4 of section 4.1
    (sql_sample.py is missing): whole words in upper case, the inside of
    single-quoted literals skipped. *)
Fixpoint wordsFrom (inLiteral : bool) (cur : Text.t) (s : Text.t) : list Text.t :=
  match s with
  | [] => flush cur []
  | c :: r =>
      if inLiteral then wordsFrom (negb (c =? squote)) [] r
      else if c =? squote then flush cur (wordsFrom true [] r)
      else if wordChar c then wordsFrom false (cur ++ [App.upperAscii c]) r
      else flush cur (wordsFrom false [] r)
  end.

(** Modelled from the spec: the blocklist step 4 of section 4.1 names
    (sql_sample.py is missing). *)
Definition blocklist : list Text.t :=
  map lit ["INSERT"; "UPDATE"; "DELETE"; "DROP"; "ALTER"; "CREATE";
           "TRUNCATE"; "MERGE"; "GRANT"; "REVOKE"; "EXECUTE"; "EXEC";
           "CALL"; "BEGIN"; "DECLARE"; "PRAGMA"]%string.

Definition memText (w : Text.t) (ws : list Text.t) : bool :=
  existsb (Text.eqb w) ws.

Fixpoint stripPrefix (pat s : Text.t) : option Text.t :=
  match pat with
  | [] => Some s
  | p :: pat' =>
      match s with
      | c :: s' => if c =? p then stripPrefix pat' s' else None
      | [] => None
      end
  end.

(** Modelled from the spec: the pattern of step 5 of section 4.1 at the
    head of an upper-case text (sql_sample.py is missing): INTO, white
    space, then OUTFILE or DUMPFILE. *)
Definition intoFileAt (s : Text.t) : bool :=
  match stripPrefix (lit "INTO") s with
  | None => false
  | Some r =>
      match r with
      | [] => false
      | c :: _ =>
          sqlSpace c
          && match stripPrefix (lit "OUTFILE") (dropWhile sqlSpace r),
                   stripPrefix (lit "DUMPFILE") (dropWhile sqlSpace r) with
             | None, None => false
             | _, _ => true
             end
      end
  end.

Fixpoint intoFile (s : Text.t) : bool :=
  match s with
  | [] => false
  | _ :: r => intoFileAt s || intoFile r
  end.

Inductive DenialReason :=
| EmptyStatement
| MultipleStatements
| NotReadOnly
| ForbiddenKeyword
| FileRedirect.

Inductive SqlVerdict :=
| Allowed (normalizedStatement : Text.t)
| Denied (reason : DenialReason).

(** Modelled from the spec: validateSqlStatement, the five steps of section
    4.1 in their order (sql_sample.py is missing). *)
Definition validateSqlStatement (raw : Text.t) : SqlVerdict :=
  let s := normalizeSql raw in
  match s with
  | [] => Denied EmptyStatement
  | _ :: _ =>
      if includes semicolon s then Denied MultipleStatements
      else if negb (memText (firstWord s) [lit "SELECT"; lit "WITH"])
      then Denied NotReadOnly
      else if existsb (fun w => memText w blocklist)
                (wordsFrom false [] (dropWhile wordChar s))
      then Denied ForbiddenKeyword
      else if intoFile (upper s) then Denied FileRedirect
      else Allowed s
  end.

(** The keywords the denial property of section 8 lists. *)
Definition mutatingKeywords : list Text.t :=
  map lit ["INSERT"; "UPDATE"; "DELETE"; "DROP"; "ALTER"; "CREATE";
           "TRUNCATE"; "MERGE"; "GRANT"; "REVOKE"; "EXEC"; "BEGIN"]%string.

(** A statement separator with something other than white space after it,
    in a text without comments. *)
Definition InternalSeparator (s : Text.t) : Prop :=
  exists a b c, s = a ++ semicolon :: b /\ In c b /\ sqlSpace c = false.

(** The text, read without case, starts with one of the mutating
    keywords. *)
Definition StartsWithMutating (s : Text.t) : Prop :=
  exists kw rest, In kw mutatingKeywords /\ upper s = kw ++ rest.

(** The text, read without case, contains INTO, white space, and OUTFILE
    or DUMPFILE. *)
Definition ContainsIntoFile (s : Text.t) : Prop :=
  exists a gap target b,
    In target [lit "OUTFILE"; lit "DUMPFILE"]
    /\ gap <> [] /\ forallb sqlSpace gap = true
    /\ upper s = a ++ lit "INTO" ++ gap ++ target ++ b.

Fixpoint hasInternalSeparator (s : Text.t) : bool :=
  match s with
  | [] => false
  | c :: r =>
      ((c =? semicolon) && existsb (fun x => negb (sqlSpace x)) r)
      || hasInternalSeparator r
  end.

(** The raw text holds neither two dashes in a row nor a slash followed by
    an asterisk: nothing in it can open a comment. *)
Fixpoint commentFree (s : Text.t) : bool :=
  match s with
  | [] => true
  | c :: r =>
      match r with
      | d :: _ =>
          negb ((c =? dash) && (d =? dash)) && negb ((c =? slash) && (d =? asterisk))
          && commentFree r
      | [] => true
      end
  end.

End SqlValidator.

Module PathSanitizer.
Import Text.

(** Modelled from the spec: the configuration of section 4.2, deny
    prefixes, optional allowed roots and the strict flag, with the
    directory a relative path is resolved against (settings.py is
    missing). *)
Record Config := {
  denyPrefixes : list Text.t;
  allowedRoots : option (list Text.t);
  strictFilesystemCheck : bool;
  baseDirectory : Text.t
}.

(** Modelled from the spec: the canonical separator style of section 4.2
    (settings.py is missing): every slash becomes a backslash. *)
Definition canonical (s : Text.t) : Text.t :=
  map (fun c => if c =? slash then backslash else c) s.

(** [s.split(sep)]: the pieces between the separators, empty ones kept. *)
Fixpoint splitOn (sep : N) (s : Text.t) : list Text.t :=
  match s with
  | [] => [[]]
  | c :: r =>
      if c =? sep then [] :: splitOn sep r
      else
        match splitOn sep r with
        | h :: t => (c :: h) :: t
        | [] => [[c]]
        end
  end.

Definition nonEmpty (s : Text.t) : bool :=
  match s with [] => false | _ :: _ => true end.

(** Modelled from the spec: the segments of a path, section 4.2
    (settings.py is missing). *)
Definition segments (s : Text.t) : list Text.t :=
  filter nonEmpty (splitOn backslash (canonical s)).

(** Modelled from the spec: resolution without touching the filesystem,
    section 4.2 (settings.py is missing): a dot segment is dropped and a
    double dot removes the segment before it, but none of the first [keep]
    segments (the drive, or the host and share of a UNC path). *)
Fixpoint resolveDots (keep : nat) (stack : list Text.t) (segs : list Text.t)
  : list Text.t :=
  match segs with
  | [] => rev stack
  | s :: r =>
      if Text.eqb s (lit ".") then resolveDots keep stack r
      else if Text.eqb s (lit "..")
      then resolveDots keep (if Nat.ltb keep (length stack) then tl stack else stack) r
      else resolveDots keep (s :: stack) r
  end.

(** Modelled from the spec: what stands before the first segment of the
    absolute form of section 4.2 (settings.py is missing): two backslashes
    for a UNC path, one for a rooted path, nothing before a drive. *)
Definition rootOf (s : Text.t) : Text.t :=
  match canonical s with
  | c :: r =>
      if c =? backslash then
        match r with
        | d :: _ => if d =? backslash then [backslash; backslash] else [backslash]
        | [] => [backslash]
        end
      else []
  | [] => []
  end.

(** Modelled from the spec: whether a path is already absolute, section 4.2
    (settings.py is missing): it starts with a separator or with a drive
    letter and a colon. *)
Definition isAbsolute (s : Text.t) : bool :=
  match canonical s with
  | c :: r =>
      (c =? backslash) || match r with d :: _ => d =? colon | [] => false end
  | [] => false
  end.

(** Modelled from the spec: the number of leading segments that name the
    volume (settings.py is missing): two of a UNC path, one of a drive path,
    none of a rooted path. *)
Definition anchored (s : Text.t) : nat :=
  match canonical s with
  | c :: r =>
      if c =? backslash then
        match r with
        | d :: _ => if d =? backslash then 2%nat else 0%nat
        | [] => 0%nat
        end
      else
        match r with
        | d :: _ => if d =? colon then 1%nat else 0%nat
        | [] => 0%nat
        end
  | [] => 0%nat
  end.

Record Resolved := {
  root : Text.t;
  segs : list Text.t
}.

(** Modelled from the spec: the absolute form of section 4.2 (settings.py
    is missing). *)
Definition resolve (cfg : Config) (raw : Text.t) : Resolved :=
  if isAbsolute raw
  then {| root := rootOf raw;
          segs := resolveDots (anchored raw) [] (segments raw) |}
  else {| root := rootOf (baseDirectory cfg);
          segs := resolveDots (anchored (baseDirectory cfg)) []
                    (segments (baseDirectory cfg) ++ segments raw) |}.

Definition sameSegment (a b : Text.t) : bool :=
  Text.eqb (map App.upperAscii a) (map App.upperAscii b).

(** Modelled from the spec: the segment-wise, case-insensitive prefix match
    of section 4.2 (settings.py is missing). *)
Fixpoint segPrefix (prefix path : list Text.t) : bool :=
  match prefix with
  | [] => true
  | p :: prefix' =>
      match path with
      | s :: path' => sameSegment p s && segPrefix prefix' path'
      | [] => false
      end
  end.

(** Modelled from the spec: one deny rule applied to the segments of a
    path (settings.py is missing); a rule without any segment denies
    nothing. *)
Definition deniedBy (rule : Text.t) (path : list Text.t) : bool :=
  match segments rule with
  | [] => false
  | ds => segPrefix ds path
  end.

Definition isLetter (c : N) : bool :=
  ((97 <=? c) && (c <=? 122)) || ((65 <=? c) && (c <=? 90)).

(** Modelled from the spec: the administrative share of section 4.2, a
    host followed by a drive letter and a dollar sign (settings.py is
    missing). *)
Definition adminShare (r : Resolved) : bool :=
  Text.eqb (root r) [backslash; backslash]
  && match segs r with
     | _ :: share :: _ =>
         match share with
         | [l; d] => isLetter l && (d =? dollar)
         | _ => false
         end
     | _ => false
     end.

(** Modelled from the spec: root confinement, section 4.2 (settings.py is
    missing): with allowed roots configured, the path lies under one. *)
Definition withinRoots (cfg : Config) (r : Resolved) : bool :=
  match allowedRoots cfg with
  | None => true
  | Some roots => existsb (fun a => segPrefix (segments a) (segs r)) roots
  end.

(** Modelled from the spec: the normalized path of section 4.2, one
    separator style and a trailing separator (settings.py is missing). *)
Definition render (r : Resolved) : Text.t :=
  root r ++ flat_map (fun s => s ++ [backslash]) (segs r).

Inductive DenialReason := SystemPath | AdminShare | OutsideRoots.

Inductive Verdict :=
| Allowed (normalizedPath : Text.t)
| Denied (reason : DenialReason)
| ResourceError.

(** Modelled from the spec: validateExportPath, section 4.2 (settings.py
    is missing); [writable] answers the probe of strict mode. *)
Definition validateExportPath (writable : Text.t -> bool) (cfg : Config)
    (raw : Text.t) : Verdict :=
  let r := resolve cfg raw in
  if existsb (fun rule => deniedBy rule (segs r)) (denyPrefixes cfg)
  then Denied SystemPath
  else if adminShare r then Denied AdminShare
  else if negb (withinRoots cfg r) then Denied OutsideRoots
  else if strictFilesystemCheck cfg && negb (writable (render r))
  then ResourceError
  else Allowed (render r).

(** Two segments that differ at most in the case of ASCII letters. *)
Definition SameSegment (a b : Text.t) : Prop :=
  map App.upperAscii a = map App.upperAscii b.

(** The path is the prefix itself or lies under it: its segments begin
    with the segments of the prefix, compared without case. *)
Definition UnderPrefix (rule : Text.t) (path : list Text.t) : Prop :=
  segments rule <> []
  /\ exists head more,
       path = head ++ more /\ Forall2 SameSegment (segments rule) head.

(** No segment of the path is a dot or a double dot. *)
Definition noDotSegments (s : Text.t) : bool :=
  forallb (fun x => negb (Text.eqb x (lit ".")) && negb (Text.eqb x (lit "..")))
    (segments s).

(** The text of the path, read without case and with either separator,
    is the text of the prefix, alone or followed by a separator. *)
Definition TextUnder (rule raw : Text.t) : Prop :=
  exists rest,
    map App.upperAscii (canonical raw)
      = map App.upperAscii (canonical rule) ++ rest
    /\ (rest = [] \/ exists r, rest = backslash :: r).

(** The text of the path, read without case and with either separator,
    is the text of the prefix followed by a character that is no
    separator. *)
Definition TextExtends (rule raw : Text.t) : Prop :=
  exists x rest,
    map App.upperAscii (canonical raw)
      = map App.upperAscii (canonical rule) ++ x :: rest
    /\ x <> backslash.

(** A segment as the sanitizer produces them: not empty, and free of both
    separators. *)
Definition CleanSegment (seg : Text.t) : Prop :=
  seg <> [] /\ forall c, In c seg -> c <> backslash /\ c <> slash.

(** A clean segment that is neither a dot nor a double dot. *)
Definition PlainSegment (x : Text.t) : Prop :=
  CleanSegment x /\ Text.eqb x (lit ".") = false /\ Text.eqb x (lit "..") = false.

Definition defaultConfig (rules : list Text.t) : Config :=
  {| denyPrefixes := rules; allowedRoots := None;
     strictFilesystemCheck := false; baseDirectory := lit "C:\Users\me" |}.

End PathSanitizer.

Module Spool.
Import Text.

(** Modelled from the spec: the expressions of the row-emission logic of
    section 4.4 (generators.py is missing): literals, column references,
    REPLACE and concatenation. *)
Inductive Expr :=
| Lit (s : Text.t)
| Col (column : Text.t)
| Replace (e : Expr) (search replacement : Text.t)
| Concat (a b : Expr).

(** Modelled from the spec: the parts of the script in the order section
    4.4 fixes (generators.py is missing). *)
Inductive Statement :=
| SetDirective (text : Text.t)
| SpoolTo (target : Text.t)
| Prompt (line : Text.t)
| SelectFrom (e : Expr) (source : Text.t)
| SpoolOff
| ExitScript.

Definition quoted (s : Text.t) : Text.t := [dquote] ++ s ++ [dquote].

(** Modelled from the spec: one field of a row, section 4.4 (generators.py
    is missing): the value with every double quote replaced by two, in
    double quotes. *)
Definition fieldExpr (column : Text.t) : Expr :=
  Concat (Lit [dquote])
    (Concat (Replace (Col column) [dquote] [dquote; dquote]) (Lit [dquote])).

(** Modelled from the spec: the fields joined by commas, section 4.4
    (generators.py is missing). *)
Fixpoint rowExpr (columns : list Text.t) : Expr :=
  match columns with
  | [] => Lit []
  | c :: r =>
      match r with
      | [] => fieldExpr c
      | _ :: _ => Concat (fieldExpr c) (Concat (Lit [comma]) (rowExpr r))
      end
  end.

(** Modelled from the spec: the header line of section 4.4, each column
    name quoted on its own (generators.py is missing). *)
Definition headerLine (columns : list Text.t) : Text.t :=
  join [comma] (map quoted columns).

(** Modelled from the spec: the script of section 4.4 in its fixed order
    (generators.py is missing). *)
Definition script (columns : list Text.t) (sourceDescriptor exportPath reportName : Text.t)
  : list Statement :=
  [ SetDirective (lit "PAGESIZE 0");
    SetDirective (lit "FEEDBACK OFF");
    SetDirective (lit "HEADING OFF");
    SetDirective (lit "TERMOUT OFF");
    SpoolTo (exportPath ++ reportName ++ lit ".csv");
    Prompt (headerLine columns);
    SelectFrom (rowExpr columns) sourceDescriptor;
    SpoolOff;
    ExitScript ].

(** Modelled from the spec: a literal of SQL in the script text
    (generators.py is missing): in single quotes, each single quote
    doubled. *)
Definition sqlLiteral (s : Text.t) : Text.t :=
  [squote] ++ flat_map (fun c => if c =? squote then [squote; squote] else [c]) s
  ++ [squote].

Fixpoint renderExpr (e : Expr) : Text.t :=
  match e with
  | Lit s => sqlLiteral s
  | Col c => c
  | Replace e s r =>
      lit "REPLACE(" ++ renderExpr e ++ lit ", " ++ sqlLiteral s ++ lit ", "
      ++ sqlLiteral r ++ lit ")"
  | Concat a b => renderExpr a ++ lit " || " ++ renderExpr b
  end.

Definition renderStatement (st : Statement) : Text.t :=
  match st with
  | SetDirective t => lit "SET " ++ t
  | SpoolTo t => lit "SPOOL " ++ t
  | Prompt l => lit "PROMPT " ++ l
  | SelectFrom e src => lit "SELECT " ++ renderExpr e ++ lit " FROM " ++ src ++ lit ";"
  | SpoolOff => lit "SPOOL OFF"
  | ExitScript => lit "EXIT"
  end.

(** Modelled from the spec: generate of section 4.4, the script text
    (generators.py is missing), one statement a line. *)
Definition generate (columns : list Text.t)
    (sourceDescriptor exportPath reportName : Text.t) : Text.t :=
  flat_map (fun st => renderStatement st ++ [10])
    (script columns sourceDescriptor exportPath reportName).

(** **** What the emitted row logic computes *)

(** Modelled from the spec: REPLACE as the external SQL client computes it
    (generators.py is missing): every occurrence of a non-empty search text,
    left to right; [skip] counts the characters of an occurrence still to
    pass. *)
Fixpoint replaceFrom (skip : nat) (search replacement s : Text.t) : Text.t :=
  match s with
  | [] => []
  | c :: r =>
      match skip with
      | S k => replaceFrom k search replacement r
      | O =>
          match search, SqlValidator.stripPrefix search s with
          | _ :: _, Some _ =>
              replacement ++ replaceFrom (length search - 1) search replacement r
          | _, _ => c :: replaceFrom O search replacement r
          end
      end
  end.

Definition replaceAll (search replacement s : Text.t) : Text.t :=
  replaceFrom O search replacement s.

(** **** The SQL client that runs the script

    The generated text is read as the SQL client reads it: command by
    command, the row expression of the SELECT split into tokens, parsed and
    evaluated on each row of the source. *)

Definition bar : N := 124.
Definition lparen : N := 40.
Definition rparen : N := 41.

Inductive Token :=
| TLit (s : Text.t)
| TWord (w : Text.t)
| TBar
| TLParen
| TRParen
| TComma
| TOther (c : N).

(** Where the tokenizer stands: between tokens, inside a word, inside a
    literal, after a quote met inside a literal (the end of the literal
    unless a second quote follows), or after one bar of the concatenation
    operator. *)
Inductive Lexing :=
| Idle
| InWord (w : Text.t)
| InLit (s : Text.t)
| LitQuote (s : Text.t)
| HalfBar.

Definition start (c : N) : list Token * Lexing :=
  if SqlValidator.wordChar c then ([], InWord [c])
  else if c =? squote then ([], InLit [])
  else if c =? bar then ([], HalfBar)
  else if c =? lparen then ([TLParen], Idle)
  else if c =? rparen then ([TRParen], Idle)
  else if c =? comma then ([TComma], Idle)
  else if SqlValidator.sqlSpace c then ([], Idle)
  else ([TOther c], Idle).

Definition lexStep (st : Lexing) (c : N) : list Token * Lexing :=
  match st with
  | Idle => start c
  | InWord w =>
      if SqlValidator.wordChar c then ([], InWord (w ++ [c]))
      else (TWord w :: fst (start c), snd (start c))
  | InLit s =>
      if c =? squote then ([], LitQuote s) else ([], InLit (s ++ [c]))
  | LitQuote s =>
      if c =? squote then ([], InLit (s ++ [squote]))
      else (TLit s :: fst (start c), snd (start c))
  | HalfBar =>
      if c =? bar then ([TBar], Idle)
      else (TOther bar :: fst (start c), snd (start c))
  end.

Definition lexEnd (st : Lexing) : list Token :=
  match st with
  | Idle => []
  | InWord w => [TWord w]
  | InLit _ => [TOther squote]
  | LitQuote s => [TLit s]
  | HalfBar => [TOther bar]
  end.

(** Modelled from the spec: the tokens of a SQL expression as the external
    SQL client of section 6 reads them (no code of it in the repository):
    literals in single quotes with a doubled quote for a quote, words, the
    concatenation operator, parentheses and commas. *)
Fixpoint lexFrom (st : Lexing) (s : Text.t) : list Token :=
  match s with
  | [] => lexEnd st
  | c :: r => fst (lexStep st c) ++ lexFrom (snd (lexStep st c)) r
  end.

(** The operands of a concatenation: a literal, a column, or REPLACE of a
    column. *)
Inductive Term :=
| Literal (s : Text.t)
| Column (column : Text.t)
| ReplaceIn (column search replacement : Text.t).

Definition isWord (kw : string) (w : Text.t) : bool :=
  Text.eqb (SqlValidator.upper w) (lit kw).

(** Modelled from the spec: the concatenation the SELECT of the script
    lists, read from its tokens (no code of the SQL client in the
    repository); what follows the last operand is returned. *)
Fixpoint parseConcat (toks : list Token) : option (list Term * list Token) :=
  match toks with
  | TLit s :: rest =>
      match rest with
      | TBar :: rest' =>
          option_map (fun p => (Literal s :: fst p, snd p)) (parseConcat rest')
      | _ => Some ([Literal s], rest)
      end
  | TWord w :: TLParen :: TWord c :: TComma :: TLit a :: TComma :: TLit b
      :: TRParen :: rest =>
      if isWord "REPLACE" w then
        match rest with
        | TBar :: rest' =>
            option_map (fun p => (ReplaceIn c a b :: fst p, snd p)) (parseConcat rest')
        | _ => Some ([ReplaceIn c a b], rest)
        end
      else None
  | TWord c :: rest =>
      match rest with
      | TBar :: rest' =>
          option_map (fun p => (Column c :: fst p, snd p)) (parseConcat rest')
      | _ => Some ([Column c], rest)
      end
  | _ => None
  end.

(** Modelled from the spec: the value of an operand on a row, the row given
    as the value of each column (no code of the SQL client in the
    repository). *)
Definition evalTerm (row : Text.t -> Text.t) (t : Term) : Text.t :=
  match t with
  | Literal s => s
  | Column c => row c
  | ReplaceIn c a b => replaceAll a b (row c)
  end.

Definition evalTerms (row : Text.t -> Text.t) (ts : list Term) : Text.t :=
  flat_map (evalTerm row) ts.

(** The lines a SELECT yields, one for each row of the source: the text
    between SELECT and the final separator is a concatenation followed by
    FROM. *)
Definition selectLines (rows : list (Text.t -> Text.t)) (statement : Text.t)
  : option (list Text.t) :=
  match parseConcat (lexFrom Idle statement) with
  | Some (terms, TWord w :: _) =>
      if isWord "FROM" w
      then Some (map (fun row => evalTerms row terms) rows)
      else None
  | _ => None
  end.

(** The first word of a command, in upper case, and what follows it and one
    separating character. *)
Definition keyword (line : Text.t) : Text.t :=
  SqlValidator.upper (App.takeWhile SqlValidator.wordChar line).

Definition argument (line : Text.t) : Text.t :=
  tl (SqlValidator.dropWhile SqlValidator.wordChar line).

(** A SELECT runs on over the lines until a line ends with the
    separator. *)
Definition continues (line : Text.t) : bool :=
  Text.eqb (keyword line) (lit "SELECT") && negb (endsWithChar semicolon line).

Inductive Outcome :=
| Continue (file : option Text.t) (out : list (Text.t * Text.t))
| Exit (out : list (Text.t * Text.t))
| Unknown.

(** The lines are written to the spool file while one is open. *)
Definition emit (file : option Text.t) (out : list (Text.t * Text.t))
    (lines : list Text.t) : list (Text.t * Text.t) :=
  match file with
  | Some f => out ++ map (pair f) lines
  | None => out
  end.

(** Modelled from the spec: one command of the script as the external SQL
    client of section 6 runs it (no code of it in the repository): SET
    changes no output, SPOOL opens the file named or closes it with OFF,
    PROMPT writes its text, SELECT writes a line for each row, EXIT ends
    the session. *)
Definition exec (rows : list (Text.t -> Text.t)) (file : option Text.t)
    (out : list (Text.t * Text.t)) (line : Text.t) : Outcome :=
  if forallb SqlValidator.sqlSpace line then Continue file out
  else if Text.eqb (keyword line) (lit "SET") then Continue file out
  else if Text.eqb (keyword line) (lit "SPOOL") then
    if isWord "OFF" (argument line) then Continue None out
    else Continue (Some (argument line)) out
  else if Text.eqb (keyword line) (lit "PROMPT")
  then Continue file (emit file out [argument line])
  else if Text.eqb (keyword line) (lit "SELECT") then
    if endsWithChar semicolon line then
      match selectLines rows (removelast (argument line)) with
      | Some lines => Continue file (emit file out lines)
      | None => Unknown
      end
    else Unknown
  else if Text.eqb (keyword line) (lit "EXIT") then Exit out
  else Unknown.

(** Modelled from the spec: the session of the external SQL client of
    section 6 on a script text (no code of it in the repository): the
    commands are run line by line; the result is the lines written, each
    with the spool file it went to, or nothing when a command is not
    understood. *)
Fixpoint sqlplus (rows : list (Text.t -> Text.t)) (file : option Text.t)
    (out : list (Text.t * Text.t)) (line : Text.t) (s : Text.t) {struct s}
  : option (list (Text.t * Text.t)) :=
  match s with
  | [] =>
      match line with
      | [] => Some out
      | _ :: _ =>
          match exec rows file out line with
          | Continue _ out' => Some out'
          | Exit out' => Some out'
          | Unknown => None
          end
      end
  | c :: r =>
      if (c =? 10) && negb (continues line) then
        match exec rows file out line with
        | Continue file' out' => sqlplus rows file' out' [] r
        | Exit out' => Some out'
        | Unknown => None
        end
      else sqlplus rows file out (line ++ [c]) r
  end.

Definition runScript (rows : list (Text.t -> Text.t)) (text : Text.t)
  : option (list (Text.t * Text.t)) :=
  sqlplus rows None [] [] text.

(** What follows the last operand of a concatenation: no further
    concatenation operator. *)
Definition NoBar (rest : list Token) : Prop :=
  match rest with TBar :: _ => False | _ => True end.

(** A column name as the data model has it: a sanitized identifier. *)
Definition isIdentifier (c : Text.t) : bool :=
  match c with
  | [] => false
  | _ :: _ => forallb SqlValidator.wordChar c
  end.

(** The tokens and the operands of the row expression. *)
Definition fieldTokens (c : Text.t) : list Token :=
  [TLit [dquote]; TBar; TWord (lit "REPLACE"); TLParen; TWord c; TComma;
   TLit [dquote]; TComma; TLit [dquote; dquote]; TRParen; TBar; TLit [dquote]].

Fixpoint rowTokens (columns : list Text.t) : list Token :=
  match columns with
  | [] => [TLit []]
  | c :: r =>
      match r with
      | [] => fieldTokens c
      | _ :: _ => fieldTokens c ++ [TBar; TLit [comma]; TBar] ++ rowTokens r
      end
  end.

Definition fieldTerms (c : Text.t) : list Term :=
  [Literal [dquote]; ReplaceIn c [dquote] [dquote; dquote]; Literal [dquote]].

Fixpoint rowTerms (columns : list Text.t) : list Term :=
  match columns with
  | [] => [Literal []]
  | c :: r =>
      match r with
      | [] => fieldTerms c
      | _ :: _ => fieldTerms c ++ [Literal [comma]] ++ rowTerms r
      end
  end.

(** A CSV field: every double quote doubled, the whole in double quotes. *)
Definition doubleQuotes (v : Text.t) : Text.t :=
  flat_map (fun c => if c =? dquote then [dquote; dquote] else [c]) v.

Definition csvField (v : Text.t) : Text.t := quoted (doubleQuotes v).

(** A row with the given values for the given columns. *)
Fixpoint rowOf (cells : list (Text.t * Text.t)) (column : Text.t) : Text.t :=
  match cells with
  | [] => []
  | (c, v) :: rest => if Text.eqb c column then v else rowOf rest column
  end.

(** Modelled from the spec: the reader of a CSV field, for the round trip of
    section 8 (generators.py is missing): the outer quotes dropped, each
    doubled quote read as one. *)
Fixpoint undoubleQuotes (s : Text.t) : Text.t :=
  match s with
  | [] => []
  | c :: r =>
      if c =? dquote then
        match r with
        | _ :: r' => dquote :: undoubleQuotes r'
        | [] => []
        end
      else c :: undoubleQuotes r
  end.

Definition csvUnquote (field : Text.t) : Text.t :=
  match field with
  | [] => []
  | _ :: r => undoubleQuotes (removelast r)
  end.

(** The value of the scenario: Lu, a double quote, is. *)
Definition luis : Text.t := lit "Lu" ++ [dquote] ++ lit "is".

End Spool.

(** * Properties *)

Import Text App.

Lemma includes_app c a b : includes c (a ++ b) = includes c a || includes c b.
Proof. apply existsb_app. Qed.

(** ** Trimming *)

Section TrimFacts.
Variable ws : N -> bool.

Lemma trimStart_clean s : starts_clean ws (trimStart ws s).
Proof.
  induction s as [|c r IH]; simpl; [exact I|].
  destruct (ws c) eqn:E; [exact IH | exact E].
Qed.

Lemma trimStart_fixed s : starts_clean ws s -> trimStart ws s = s.
Proof. destruct s as [|c r]; simpl; intros H; [reflexivity | now rewrite H]. Qed.

Lemma trimEnd_cons c r :
  ws c = false -> exists k, trimEnd ws (c :: r) = c :: k.
Proof.
  intros H; simpl. destruct (trimEnd ws r) as [|x k].
  - rewrite H. now exists [].
  - now exists (x :: k).
Qed.

Lemma trimEnd_clean s : starts_clean ws s -> starts_clean ws (trimEnd ws s).
Proof.
  destruct s as [|c r]; intros H; [exact I|].
  destruct (trimEnd_cons c r H) as [k ->]. exact H.
Qed.

Lemma trimEnd_idem s : trimEnd ws (trimEnd ws s) = trimEnd ws s.
Proof.
  induction s as [|c r IH]; simpl; [reflexivity|].
  destruct (trimEnd ws r) as [|x k] eqn:E.
  - destruct (ws c) eqn:W; simpl; [reflexivity | now rewrite W].
  - change (trimEnd ws (c :: x :: k)) with
      (match trimEnd ws (x :: k) with
       | [] => if ws c then [] else [c]
       | y :: k' => c :: y :: k'
       end).
    now rewrite IH.
Qed.

Lemma trim_clean s : starts_clean ws (trim ws s).
Proof. apply trimEnd_clean, trimStart_clean. Qed.

Lemma trim_idem s : trim ws (trim ws s) = trim ws s.
Proof.
  unfold trim at 1. rewrite (trimStart_fixed _ (trim_clean s)).
  apply trimEnd_idem.
Qed.

Lemma trimEnd_snoc v c : ws c = false -> trimEnd ws (v ++ [c]) = v ++ [c].
Proof.
  intros H. induction v as [|x r IH]; simpl; [now rewrite H|].
  rewrite IH. destruct r; reflexivity.
Qed.

Lemma trim_snoc v c :
  trim ws v = v -> ws c = false -> trim ws (v ++ [c]) = v ++ [c].
Proof.
  intros Hv Hc. unfold trim.
  assert (Hs : starts_clean ws (v ++ [c])).
  { pose proof (trim_clean v) as H. rewrite Hv in H.
    destruct v; simpl; [exact Hc | exact H]. }
  rewrite (trimStart_fixed _ Hs). now apply trimEnd_snoc.
Qed.

Lemma includes_trimStart c s :
  ws c = false -> includes c (trimStart ws s) = includes c s.
Proof.
  intros Hc. induction s as [|x r IH]; simpl; [reflexivity|].
  destruct (ws x) eqn:W; [|reflexivity].
  rewrite IH. destruct (N.eqb_spec c x) as [->|]; [congruence | reflexivity].
Qed.

Lemma includes_trimEnd c s :
  ws c = false -> includes c (trimEnd ws s) = includes c s.
Proof.
  intros Hc. induction s as [|x r IH]; simpl; [reflexivity|].
  rewrite <- IH. destruct (trimEnd ws r) as [|y k]; [|reflexivity].
  destruct (ws x) eqn:W; simpl; [|reflexivity].
  destruct (N.eqb_spec c x) as [->|]; [congruence | reflexivity].
Qed.

Lemma includes_trim c s :
  ws c = false -> includes c (trim ws s) = includes c s.
Proof.
  intros Hc. unfold trim.
  now rewrite includes_trimEnd, includes_trimStart.
Qed.
End TrimFacts.

Lemma endsWithChar_snoc c v x : endsWithChar c (v ++ [x]) = (x =? c).
Proof.
  induction v as [|y r IH]; simpl; [reflexivity|].
  destruct (r ++ [x]) eqn:E; [now destruct r | exact IH].
Qed.

(** ** ensureTrailingSeparator *)

Lemma chosen_separator_cases v :
  chosen_separator v = backslash \/ chosen_separator v = slash.
Proof. unfold chosen_separator. destruct (_ || _); auto. Qed.

Lemma chosen_separator_not_space v : js_space (chosen_separator v) = false.
Proof. destruct (chosen_separator_cases v) as [-> | ->]; reflexivity. Qed.

Lemma ensureTrailingSeparator_unfold c r :
  ensureTrailingSeparator (c :: r) =
    let v := trim js_space (c :: r) in
    if endsWithChar backslash v || endsWithChar slash v then v
    else v ++ [chosen_separator v].
Proof. reflexivity. Qed.

Lemma ensureTrailingSeparator_fixed v :
  trim js_space v = v ->
  endsWithChar backslash v || endsWithChar slash v = true ->
  ensureTrailingSeparator v = v.
Proof.
  intros Ht He. destruct v as [|c r]; [reflexivity|].
  rewrite ensureTrailingSeparator_unfold. cbv zeta. rewrite Ht, He. reflexivity.
Qed.

(** C4: ensureTrailingSeparator is idempotent: applying it to its own result
    gives that result back, for every input string. *)
Theorem ensureTrailingSeparator_idempotent (p : Text.t) :
  ensureTrailingSeparator (ensureTrailingSeparator p) = ensureTrailingSeparator p.
Proof.
  destruct p as [|c r]; [reflexivity|].
  rewrite ensureTrailingSeparator_unfold. cbv zeta.
  set (v := trim js_space (c :: r)).
  assert (Hv : trim js_space v = v) by apply trim_idem.
  destruct (endsWithChar backslash v || endsWithChar slash v) eqn:E.
  - now apply ensureTrailingSeparator_fixed.
  - apply ensureTrailingSeparator_fixed.
    + apply trim_snoc; [exact Hv | apply chosen_separator_not_space].
    + rewrite !endsWithChar_snoc.
      destruct (chosen_separator_cases v) as [-> | ->]; reflexivity.
Qed.

(** C5: for every non-empty raw path the normalized export path ends with a
    separator, backslash or slash. *)
Theorem ensureTrailingSeparator_ends_with_separator (value : Text.t) :
  value <> [] ->
  endsWithChar backslash (ensureTrailingSeparator value)
  || endsWithChar slash (ensureTrailingSeparator value) = true.
Proof.
  intros Hne. destruct value as [|c r]; [congruence|].
  rewrite ensureTrailingSeparator_unfold. cbv zeta.
  set (v := trim js_space (c :: r)).
  destruct (endsWithChar backslash v || endsWithChar slash v) eqn:E; [exact E|].
  rewrite !endsWithChar_snoc.
  destruct (chosen_separator_cases v) as [-> | ->]; reflexivity.
Qed.

(** The scenario of C5: D:\Reports normalizes to D:\Reports\ and that ends
    with a separator. *)
Lemma ensureTrailingSeparator_reports :
  ensureTrailingSeparator (lit "D:\Reports") = lit "D:\Reports" ++ [backslash]
  /\ endsWithChar backslash (ensureTrailingSeparator (lit "D:\Reports"))
     || endsWithChar slash (ensureTrailingSeparator (lit "D:\Reports")) = true.
Proof.
  split; [reflexivity|].
  apply (ensureTrailingSeparator_ends_with_separator (lit "D:\Reports")).
  vm_compute. discriminate.
Defined.

(** The browser helper alone brings no single style: it issues no verdict,
    and a value that mixes the two separators keeps both. *)
Lemma ensureTrailingSeparator_keeps_mixed_separators :
  ensureTrailingSeparator (lit "C:\a/b") = lit "C:\a/b" ++ [backslash]
  /\ mixes_separators (ensureTrailingSeparator (lit "C:\a/b")) = true.
Proof. split; reflexivity. Qed.

(** ensureTrailingSeparator rewrites no separator; its result contains both
    a backslash and a slash exactly when its input does. *)
Lemma ensureTrailingSeparator_mixes_iff_input_mixes (p : Text.t) :
  mixes_separators (ensureTrailingSeparator p) = mixes_separators p.
Proof.
  destruct p as [|c r]; [reflexivity|].
  rewrite ensureTrailingSeparator_unfold. cbv zeta.
  set (v := trim js_space (c :: r)).
  assert (Hb : includes backslash v = includes backslash (c :: r))
    by (apply includes_trim; reflexivity).
  assert (Hf : includes slash v = includes slash (c :: r))
    by (apply includes_trim; reflexivity).
  unfold mixes_separators. rewrite <- Hb, <- Hf.
  destruct (endsWithChar backslash v || endsWithChar slash v); [reflexivity|].
  rewrite !includes_app. unfold chosen_separator.
  destruct (includes backslash v), (includes slash v); reflexivity.
Qed.

(** ** escapeHtml *)

Lemma htmlSpecial_false c :
  htmlSpecial c = false -> c <> amp /\ markup_char c = false.
Proof.
  unfold htmlSpecial, markup_char. intros H.
  destruct (N.eqb_spec c amp); [discriminate|].
  split; [assumption|]. simpl in H. exact H.
Qed.

Lemma escapeChar_entity c : htmlSpecial c = true -> In (escapeChar c) entities.
Proof.
  unfold escapeChar, entities. intros _.
  destruct (c =? amp); [simpl; auto|].
  destruct (c =? lt); [simpl; auto|].
  destruct (c =? gt); [simpl; auto|].
  destruct (c =? dquote); simpl; auto 6.
Qed.

Lemma entity_no_markup e : In e entities -> forallb (fun c => negb (markup_char c)) e = true.
Proof.
  unfold entities. simpl.
  intros [<-|[<-|[<-|[<-|[<-|[]]]]]]; reflexivity.
Qed.

(** An ampersand inside [e ++ rest] at a position within [e] is the first
    character of [e], when [e] is one of the entities. *)
Lemma entity_amp_at_start e rest pre suf :
  In e entities ->
  e ++ rest = pre ++ amp :: suf ->
  pre = [] \/ exists pre', pre = e ++ pre' /\ rest = pre' ++ amp :: suf.
Proof.
  unfold entities. simpl.
  intros [<-|[<-|[<-|[<-|[<-|[]]]]]] H; cbn in H.
  all: repeat (destruct pre as [|? pre];
            [ first [ now left | cbn in H; discriminate H ]
            | cbn in H; injection H as <- H ]).
  all: right; exists pre; (split; [reflexivity | exact H]).
Qed.

Lemma escapeHtml_cons c s :
  escapeHtml (c :: s) =
    (if htmlSpecial c then escapeChar c else [c]) ++ escapeHtml s.
Proof. reflexivity. Qed.

Lemma escapeHtml_no_markup s :
  forallb (fun c => negb (markup_char c)) (escapeHtml s) = true.
Proof.
  induction s as [|c s IH]; [reflexivity|].
  rewrite escapeHtml_cons, forallb_app, IH, andb_true_r.
  destruct (htmlSpecial c) eqn:E.
  - apply entity_no_markup, escapeChar_entity, E.
  - apply htmlSpecial_false in E as [_ E]. simpl. now rewrite E.
Qed.

Lemma escapeHtml_amp_starts_entity s : forall pre suf,
  escapeHtml s = pre ++ amp :: suf ->
  exists e rest, In e entities /\ amp :: suf = e ++ rest.
Proof.
  induction s as [|c s IH]; intros pre suf H.
  - destruct pre; discriminate H.
  - rewrite escapeHtml_cons in H. destruct (htmlSpecial c) eqn:E.
    + pose proof (escapeChar_entity c E) as He.
      destruct (entity_amp_at_start _ _ _ _ He H) as [-> | [pre' [-> H']]].
      * exists (escapeChar c), (escapeHtml s). split; [exact He|].
        symmetry. exact H.
      * apply (IH _ _ H').
    + apply htmlSpecial_false in E as [E _].
      destruct pre as [|x pre]; cbn in H; injection H as Hc H.
      * congruence.
      * apply (IH _ _ H).
Qed.

(** C8: for every string, the escaped text holds none of the characters
    less-than, greater-than, double quote and single quote, and every
    ampersand in it starts one of the five replacement entities. *)
Theorem escapeHtml_introduces_no_markup (s : Text.t) :
  (forall c, In c (escapeHtml s) ->
     c <> lt /\ c <> gt /\ c <> dquote /\ c <> squote)
  /\ (forall pre suf, escapeHtml s = pre ++ amp :: suf ->
        exists e rest, In e entities /\ amp :: suf = e ++ rest).
Proof.
  split.
  - intros c Hc.
    pose proof (escapeHtml_no_markup s) as H.
    rewrite forallb_forall in H. specialize (H c Hc).
    unfold markup_char in H.
    repeat split; intros ->; discriminate H.
  - apply escapeHtml_amp_starts_entity.
Qed.

(** An instance of C8: the escaped form of a less-than sign, an ampersand
    and a single quote holds no less-than sign, and its first character, an
    ampersand, starts an entity. *)
Lemma escapeHtml_tag_text :
  escapeHtml [lt; amp; squote] = lit "&lt;&amp;&#039;"
  /\ ~ In lt (escapeHtml [lt; amp; squote])
  /\ exists e rest, In e entities /\ amp :: lit "lt;&amp;&#039;" = e ++ rest.
Proof.
  split; [reflexivity|]. split.
  - intros H.
    destruct (proj1 (escapeHtml_introduces_no_markup [lt; amp; squote]) lt H)
      as [Hlt _].
    now apply Hlt.
  - apply (proj2 (escapeHtml_introduces_no_markup [lt; amp; squote]) []).
    reflexivity.
Defined.

(** ** getFilenameFromDisposition *)

Lemma removeQuotes_no_quote m : includes dquote (removeQuotes m) = false.
Proof.
  induction m as [|c m IH]; [reflexivity|].
  unfold removeQuotes, includes in *. cbn [filter].
  destruct (N.eqb_spec c dquote) as [->|Hc]; cbn [negb existsb]; [exact IH|].
  rewrite IH, orb_false_r. apply N.eqb_neq. congruence.
Qed.

Lemma takeWhile_all f s : forallb f (takeWhile f s) = true.
Proof.
  induction s as [|c s IH]; [reflexivity|].
  simpl. destruct (f c) eqn:E; [simpl; now rewrite E | reflexivity].
Qed.

Lemma matchValue_class s m : matchValue s = Some m -> forallb valueChar m = true.
Proof.
  unfold matchValue. pose proof (takeWhile_all valueChar s) as H.
  destruct (takeWhile valueChar s); [discriminate|].
  intros [= <-]. exact H.
Qed.

Lemma matchAfterEquals_class s m :
  matchAfterEquals s = Some m -> forallb valueChar m = true.
Proof.
  unfold matchAfterEquals, orElse, andThen.
  destruct (stripPrefixCi _ s) as [r1|];
    [destruct (matchValue r1) eqn:E1; [intros [= <-]; eauto using matchValue_class|]|];
    (destruct (stripChar dquote s) as [r2|];
     [destruct (matchValue r2) eqn:E2; [intros [= <-]; eauto using matchValue_class|]|]);
    apply matchValue_class.
Qed.

Lemma matchAt_class s m : matchAt s = Some m -> forallb valueChar m = true.
Proof.
  unfold matchAt, matchAfterName, orElse, andThen.
  destruct (stripPrefixCi _ s) as [r|]; [|discriminate].
  destruct (stripChar star r) as [r1|].
  - destruct (stripChar equals r1) as [r2|].
    + destruct (matchAfterEquals r2) eqn:E.
      * intros [= <-]. eauto using matchAfterEquals_class.
      * destruct (stripChar equals r) as [r3|]; [|discriminate].
        apply matchAfterEquals_class.
    + destruct (stripChar equals r) as [r3|]; [|discriminate].
      apply matchAfterEquals_class.
  - destruct (stripChar equals r) as [r3|]; [|discriminate].
    apply matchAfterEquals_class.
Qed.

(** [exec] finds a match exactly when the pattern matches at the head of
    some suffix of the text. *)
Lemma regexExec_none d :
  regexExec d = None <-> forall pre suf, d = pre ++ suf -> matchAt suf = None.
Proof.
  induction d as [|c d IH].
  - split; [|reflexivity].
    intros _ pre suf E. symmetry in E. apply app_eq_nil in E as [_ ->].
    reflexivity.
  - cbn [regexExec]. split.
    + intros H pre suf E. destruct (matchAt (c :: d)) eqn:M; [discriminate|].
      destruct pre as [|x pre]; cbn in E.
      * now subst suf.
      * injection E as _ E. apply (proj1 IH H pre suf E).
    + intros H. rewrite (H [] (c :: d) eq_refl).
      apply IH. intros pre suf E. apply (H (c :: pre) suf). now rewrite E.
Qed.

Lemma regexExec_class d m : regexExec d = Some m -> forallb valueChar m = true.
Proof.
  induction d as [|c d IH]; cbn [regexExec].
  - discriminate.
  - destruct (matchAt (c :: d)) eqn:M; [|exact IH].
    intros [= <-]. eauto using matchAt_class.
Qed.

(** The capture never holds a double quote: the replace of line 59 leaves it
    as it is. *)
Lemma removeQuotes_capture m : forallb valueChar m = true -> removeQuotes m = m.
Proof.
  induction m as [|c m IH]; [reflexivity|].
  simpl. intros H. apply andb_true_iff in H as [Hc Hm].
  unfold valueChar in Hc. apply andb_true_iff in Hc as [Hc _].
  unfold removeQuotes in *. simpl. rewrite Hc. f_equal. auto.
Qed.

Lemma decodeFrom_no_percent t :
  includes percent t = false -> decodeFrom 0 t = Some t.
Proof.
  induction t as [|c t IH]; [reflexivity|].
  unfold includes. cbn [existsb]. intros H. apply orb_false_iff in H as [Hc Ht].
  rewrite N.eqb_sym in Hc. cbn [decodeFrom decodeAt]. rewrite Hc.
  cbn [andThen fst snd]. fold (includes percent t) in Ht.
  rewrite (IH Ht). reflexivity.
Qed.

(** C10, as stated, fails: a percent escape is decoded after the quotes were
    removed and the text trimmed, so the result can hold a double quote and
    outer white space. *)
Lemma getFilenameFromDisposition_result_with_quote_and_space :
  exists r,
    getFilenameFromDisposition (Some (lit "attachment; filename=%22a%20")) = ReturnsString r
    /\ includes dquote r = true
    /\ trim js_space r <> r.
Proof.
  exists [dquote; 97; 32]. split; [reflexivity|].
  split; [reflexivity|]. vm_compute. discriminate.
Qed.

(** C10, amended: the call returns null exactly when the header is null or
    empty or the pattern matches at no position of it; every string it
    returns is the URI-decoding of the captured text after the double quotes
    were removed from it and it was trimmed, and is that text itself, free of
    double quotes and trimmed, when the text holds no percent sign. *)
Theorem getFilenameFromDisposition_outcome (disposition : option Text.t) :
  (getFilenameFromDisposition disposition = ReturnsNull <->
     disposition = None \/ disposition = Some [] \/
     exists d, disposition = Some d /\
       forall pre suf, d = pre ++ suf -> matchAt suf = None)
  /\ (forall r, getFilenameFromDisposition disposition = ReturnsString r ->
        exists d m, disposition = Some d /\ regexExec d = Some m /\
          let t := trim js_space (removeQuotes m) in
          t = trim js_space m /\
          includes dquote t = false /\ trim js_space t = t /\
          decodeURIComponent t = Some r /\
          (includes percent t = false -> r = t)).
Proof.
  split.
  - destruct disposition as [[|c d]|]; cbn [getFilenameFromDisposition].
    + split; auto.
    + split.
      * destruct (regexExec (c :: d)) as [m|] eqn:E.
        -- destruct (decodeURIComponent _); discriminate.
        -- intros _. right. right. exists (c :: d). split; [reflexivity|].
           now apply regexExec_none.
      * intros [H|[H|[d' [H N']]]]; try discriminate.
        injection H as <-. apply regexExec_none in N'. now rewrite N'.
    + split; auto.
  - intros r. destruct disposition as [[|c d]|]; cbn [getFilenameFromDisposition];
      try discriminate.
    destruct (regexExec (c :: d)) as [m|] eqn:E; [|discriminate].
    destruct (decodeURIComponent _) as [s|] eqn:D; [|discriminate].
    intros [= <-]. exists (c :: d), m. split; [reflexivity|].
    split; [exact E|]. cbv zeta.
    split; [now rewrite (removeQuotes_capture m (regexExec_class _ _ E))|].
    split; [rewrite includes_trim by reflexivity; apply removeQuotes_no_quote|].
    split; [apply trim_idem|]. split; [exact D|].
    intros Hp. unfold decodeURIComponent in D.
    rewrite (decodeFrom_no_percent _ Hp) in D. now injection D.
Qed.

(** An instance of C10: a plain file name comes back as it is. *)
Lemma getFilenameFromDisposition_plain_name :
  getFilenameFromDisposition (Some (lit "attachment; filename=spool_ventas.sql"))
  = ReturnsString (lit "spool_ventas.sql")
  /\ exists d m,
       Some (lit "attachment; filename=spool_ventas.sql") = Some d
       /\ regexExec d = Some m
       /\ let t := trim js_space (removeQuotes m) in
          t = trim js_space m
          /\ includes dquote t = false /\ trim js_space t = t
          /\ decodeURIComponent t = Some (lit "spool_ventas.sql")
          /\ (includes percent t = false -> lit "spool_ventas.sql" = t).
Proof.
  split; [reflexivity|].
  apply (proj2 (getFilenameFromDisposition_outcome
                  (Some (lit "attachment; filename=spool_ventas.sql")))).
  reflexivity.
Defined.

(** ** The folder picker *)

Lemma isDenied_markSelected b row : isDenied (markSelected b row) = isDenied row.
Proof. reflexivity. Qed.

Lemma isDenied_attribute row :
  dataDenied row = Some (lit "1") -> isDenied row = true.
Proof. unfold isDenied. now intros ->. Qed.

Lemma selectOnly_rows rows : forall i row,
  In row (selectOnly i rows) ->
  (exists r, In r rows /\ row = markSelected false r)
  \/ (exists r, nth_error rows i = Some r /\ row = markSelected true r).
Proof.
  induction rows as [|r rest IH]; intros i row H; [cbn in H; destruct H|].
  destruct i as [|j]; cbn [selectOnly] in H; destruct H as [<-|H].
  - right. exists r. now split.
  - left. apply in_map_iff in H as [r' [<- Hr']]. exists r'. split; [now right | reflexivity].
  - left. exists r. split; [now left | reflexivity].
  - destruct (IH j row H) as [[r' [Hin ->]] | [r' [Hn ->]]].
    + left. exists r'. split; [now right | reflexivity].
    + right. exists r'. now split.
Qed.

Lemma selectRow_denied m i row :
  nth_error (listBox m) i = Some row -> isDenied row = true ->
  selectRow (Some i) m = m.
Proof. intros Hn Hd. unfold selectRow. now rewrite Hn, Hd. Qed.

Lemma onDblClick_denied m i row :
  nth_error (listBox m) i = Some row -> isDenied row = true ->
  onDblClick (Some i) m = m.
Proof. intros Hn Hd. unfold onDblClick. now rewrite Hn, Hd. Qed.

Lemma selectionAllowed_unselect m m' :
  selected m' = None -> listBox m' = listBox m ->
  selectionAllowed m -> selectionAllowed m'.
Proof.
  intros Hs Hl [_ Hrows]. split.
  - intros sel H. rewrite Hs in H. discriminate.
  - rewrite Hl. exact Hrows.
Qed.

Lemma selectRow_allowed target m :
  selectionAllowed m -> selectionAllowed (selectRow target m).
Proof.
  intros Hm. unfold selectRow.
  destruct target as [i|]; [|exact Hm].
  destruct (nth_error (listBox m) i) as [row|] eqn:Hn; [|exact Hm].
  destruct (isDenied row) eqn:Hd; [exact Hm|].
  destruct Hm as [_ Hrows]. split; cbn.
  - intros sel [= <-]. reflexivity.
  - intros r Hin Hden.
    destruct (selectOnly_rows _ _ _ Hin) as [[r' [_ ->]] | [r' [Hn' ->]]].
    + reflexivity.
    + rewrite Hn in Hn'. injection Hn' as <-.
      rewrite isDenied_markSelected in Hden. congruence.
Qed.

Lemma listPathDone_allowed p payload m :
  selectionAllowed m -> selectionAllowed (listPathDone p payload m).
Proof.
  intros [Hsel _]. split; [exact Hsel|]. cbn.
  intros row Hin _. destruct (payloadFolders payload) as [|f fs].
  - destruct Hin as [<-|[]]. reflexivity.
  - change (In row (map folderRow (f :: fs))) in Hin.
    apply in_map_iff in Hin as [f' [<- _]]. reflexivity.
Qed.

Lemma handle_allowed m e : selectionAllowed m -> selectionAllowed (handle m e).
Proof.
  intros Hm. destruct e; cbn [handle].
  - unfold selectionAllowed. cbn. split; [discriminate | intros row []].
  - now apply (selectionAllowed_unselect m).
  - destruct initial0; [exact Hm | now apply (selectionAllowed_unselect m)].
  - now apply (selectionAllowed_unselect m).
  - exact Hm.
  - destruct (trim js_space (currentInput m));
      [exact Hm | now apply (selectionAllowed_unselect m)].
  - destruct (upParent m); [exact Hm | now apply (selectionAllowed_unselect m)].
  - now apply selectRow_allowed.
  - unfold onDblClick. destruct target as [i|]; [|exact Hm].
    destruct (nth_error (listBox m) i) as [row|]; [|exact Hm].
    destruct (isDenied row); [exact Hm|].
    destruct (dataPath row) as [[|c p]|];
      [exact Hm | now apply (selectionAllowed_unselect m) | exact Hm].
  - unfold onSelectClick.
    destruct (ensureTrailingSeparator _);
      [exact Hm | now apply (selectionAllowed_unselect m)].
  - now apply listPathDone_allowed.
  - exact Hm.
Qed.

Lemma run_allowed events : forall m,
  selectionAllowed m -> selectionAllowed (run m events).
Proof.
  induction events as [|e events IH]; intros m Hm; [exact Hm|].
  apply IH, handle_allowed, Hm.
Qed.

(** C9: a click or a double click on a row whose data-denied attribute is 1
    changes nothing (selectRow keeps the selection, the double click issues
    no listing), and after any sequence of events the selection is null or
    has its denied field false, and no denied row is highlighted. *)
Theorem modal_selection_never_denied :
  (forall m i row,
      nth_error (listBox m) i = Some row ->
      dataDenied row = Some (lit "1") ->
      selectRow (Some i) m = m /\ handle m (RowClick (Some i)) = m)
  /\ (forall m i row,
      nth_error (listBox m) i = Some row ->
      dataDenied row = Some (lit "1") ->
      handle m (RowDblClick (Some i)) = m
      /\ requests (handle m (RowDblClick (Some i))) = requests m)
  /\ (forall exportValue events,
      let m := run (initial exportValue) events in
      (forall sel, selected m = Some sel -> denied sel = false)
      /\ (forall row, In row (listBox m) ->
            dataDenied row = Some (lit "1") -> isSelected row = false)).
Proof.
  split; [|split].
  - intros m i row Hn Hd. apply isDenied_attribute in Hd.
    split; apply (selectRow_denied m i row Hn Hd).
  - intros m i row Hn Hd. apply isDenied_attribute in Hd.
    cbn [handle]. rewrite (onDblClick_denied m i row Hn Hd). now split.
  - intros exportValue events m.
    assert (H : selectionAllowed m).
    { apply run_allowed. unfold selectionAllowed. cbn.
      split; [discriminate | intros row []]. }
    destruct H as [Hsel Hrows]. split; [exact Hsel|].
    intros row Hin Hd. apply Hrows; [exact Hin | now apply isDenied_attribute].
Qed.

(** A listing with a restricted folder: clicking or double-clicking the
    restricted row changes nothing, clicking the other row selects it and
    double-clicking it asks for its listing. *)
Lemma modal_listing_with_denied_folder :
  let payload :=
    {| payloadPath := lit "C:\" ; payloadParent := [];
       payloadFolders :=
         [ {| folderName := lit "Windows"; folderPath := lit "C:\Windows";
              folderDenied := true |};
           {| folderName := lit "Users"; folderPath := lit "C:\Users";
              folderDenied := false |} ] |} in
  let listed :=
    run (initial []) [BrowseClick; RootsAnswer (lit "C:\");
                      ListAnswer (lit "C:\") payload] in
  (selectRow (Some 0%nat) listed = listed
   /\ handle listed (RowClick (Some 0%nat)) = listed)
  /\ (handle listed (RowDblClick (Some 0%nat)) = listed
      /\ requests (handle listed (RowDblClick (Some 0%nat))) = requests listed)
  /\ option_map path (selected (handle listed (RowClick (Some 1%nat))))
     = Some (lit "C:\Users")
  /\ requests (handle listed (RowDblClick (Some 1%nat)))
     = [lit "C:\Users"; lit "C:\"].
Proof.
  cbv zeta. split; [|split; [|split]].
  - eapply (proj1 modal_selection_never_denied); reflexivity.
  - eapply (proj1 (proj2 modal_selection_never_denied)); reflexivity.
  - reflexivity.
  - reflexivity.
Defined.

(** ** validateSqlStatement *)

Import SqlValidator.

Section TrimParts.
Variable ws : N -> bool.

Lemma trimEnd_solid s : existsb (solid ws) (trimEnd ws s) = existsb (solid ws) s.
Proof.
  induction s as [|c r IH]; [reflexivity|].
  cbn [trimEnd existsb]. rewrite <- IH.
  destruct (trimEnd ws r) as [|x k]; [|reflexivity].
  destruct (ws c) eqn:W; cbn [existsb]; unfold solid; rewrite W; reflexivity.
Qed.

Lemma trimEnd_app_solid u w :
  existsb (solid ws) w = true -> trimEnd ws (u ++ w) = u ++ trimEnd ws w.
Proof.
  intros Hw. induction u as [|x u IH]; [reflexivity|].
  cbn [app trimEnd]. rewrite IH.
  destruct (trimEnd ws w) as [|y k] eqn:E.
  - rewrite <- trimEnd_solid, E in Hw. discriminate.
  - now destruct u.
Qed.

(** Trimming the start keeps a part that begins with a solid character,
    with everything after it. *)
Lemma trimStart_keeps a z m b :
  ws z = false ->
  exists a', trimStart ws (a ++ z :: m ++ b) = a' ++ z :: m ++ b.
Proof.
  intros Hz. induction a as [|x a IH]; cbn [app trimStart].
  - rewrite Hz. now exists [].
  - destruct (ws x); [exact IH | now exists (x :: a)].
Qed.

(** Trimming the end keeps a part that ends with a solid character, with
    everything before it. *)
Lemma trimEnd_keeps a m z b :
  ws z = false ->
  exists b', trimEnd ws (a ++ m ++ z :: b) = a ++ m ++ z :: b'.
Proof.
  intros Hz. rewrite app_assoc.
  rewrite trimEnd_app_solid by (cbn; unfold solid; now rewrite Hz).
  destruct (trimEnd_cons ws z b Hz) as [k ->].
  exists k. now rewrite <- app_assoc.
Qed.

Lemma trimStart_map g s :
  (forall c, ws (g c) = ws c) ->
  trimStart ws (map g s) = map g (trimStart ws s).
Proof.
  intros Hg. induction s as [|c r IH]; [reflexivity|].
  cbn [map trimStart]. rewrite Hg. now destruct (ws c).
Qed.

Lemma trimEnd_map g s :
  (forall c, ws (g c) = ws c) ->
  trimEnd ws (map g s) = map g (trimEnd ws s).
Proof.
  intros Hg. induction s as [|c r IH]; [reflexivity|].
  cbn [map trimEnd]. rewrite IH, Hg.
  destruct (trimEnd ws r); [now destruct (ws c) | reflexivity].
Qed.

Lemma trim_map g s :
  (forall c, ws (g c) = ws c) -> trim ws (map g s) = map g (trim ws s).
Proof.
  intros Hg. unfold trim. now rewrite trimStart_map, trimEnd_map.
Qed.
End TrimParts.

Lemma endsWithChar_includes c s : endsWithChar c s = true -> includes c s = true.
Proof.
  induction s as [|x r IH]; [discriminate|].
  cbn [endsWithChar]. unfold includes in *. cbn [existsb]. destruct r as [|y r'].
  - intros H. rewrite N.eqb_sym, H. reflexivity.
  - intros H. rewrite (IH H). apply orb_true_r.
Qed.

(** *** An internal separator survives the normalization *)

Lemma hasInternalSeparator_intro a b c :
  In c b -> sqlSpace c = false ->
  hasInternalSeparator (a ++ semicolon :: b) = true.
Proof.
  intros Hin Hc. induction a as [|x a IH]; cbn [app hasInternalSeparator].
  - rewrite N.eqb_refl. cbn [andb].
    replace (existsb _ b) with true; [reflexivity|].
    symmetry. apply existsb_exists. exists c. now rewrite Hc.
  - rewrite IH. apply orb_true_r.
Qed.

Lemma hasInternalSeparator_trimStart s :
  hasInternalSeparator (trimStart sqlSpace s) = hasInternalSeparator s.
Proof.
  induction s as [|c r IH]; [reflexivity|].
  cbn [trimStart]. destruct (sqlSpace c) eqn:E; [|reflexivity].
  rewrite IH. cbn [hasInternalSeparator].
  destruct (N.eqb_spec c semicolon) as [->|]; [discriminate E | reflexivity].
Qed.

Lemma hasInternalSeparator_solid s :
  hasInternalSeparator s = true -> existsb (solid sqlSpace) s = true.
Proof.
  induction s as [|c r IH]; [discriminate|].
  cbn [hasInternalSeparator existsb]. intros H.
  apply orb_true_iff in H as [H|H].
  - apply andb_true_iff in H as [_ H]. unfold solid. rewrite H. apply orb_true_r.
  - rewrite (IH H). apply orb_true_r.
Qed.

Lemma hasInternalSeparator_trimEnd s :
  hasInternalSeparator (trimEnd sqlSpace s) = hasInternalSeparator s.
Proof.
  induction s as [|c r IH]; [reflexivity|].
  cbn [trimEnd hasInternalSeparator].
  pose proof (trimEnd_solid sqlSpace r) as Hs. unfold solid in Hs.
  destruct (trimEnd sqlSpace r) as [|x k] eqn:E.
  - rewrite <- IH, <- Hs. cbn [existsb hasInternalSeparator].
    rewrite andb_false_r.
    destruct (sqlSpace c); cbn [hasInternalSeparator existsb];
      now rewrite ?andb_false_r.
  - cbn [hasInternalSeparator] in *. now rewrite IH, Hs.
Qed.

Lemma hasInternalSeparator_removelast s :
  hasInternalSeparator s = true -> includes semicolon (removelast s) = true.
Proof.
  induction s as [|c r IH]; [discriminate|].
  cbn [hasInternalSeparator]. intros H.
  destruct r as [|d r'];
    [cbn [existsb hasInternalSeparator] in H; rewrite andb_false_r in H;
     discriminate H|].
  change (removelast (c :: d :: r')) with (c :: removelast (d :: r')).
  unfold includes in *. cbn [existsb].
  apply orb_true_iff in H as [H|H].
  - apply andb_true_iff in H as [H _]. rewrite N.eqb_sym, H. reflexivity.
  - rewrite (IH H). apply orb_true_r.
Qed.

Lemma hasInternalSeparator_includes s :
  hasInternalSeparator s = true -> includes semicolon s = true.
Proof.
  induction s as [|c r IH]; [discriminate|].
  cbn [hasInternalSeparator]. unfold includes in *. cbn [existsb]. intros H.
  apply orb_true_iff in H as [H|H].
  - apply andb_true_iff in H as [H _]. rewrite N.eqb_sym, H. reflexivity.
  - rewrite (IH H). apply orb_true_r.
Qed.

Lemma normalizeSql_keeps_internal_separator raw :
  InternalSeparator (stripComments raw) ->
  includes semicolon (normalizeSql raw) = true.
Proof.
  intros [a [b [c [E [Hin Hc]]]]]. unfold normalizeSql.
  rewrite includes_trim by reflexivity.
  assert (H : hasInternalSeparator (trim sqlSpace (stripComments raw)) = true).
  { unfold trim. rewrite hasInternalSeparator_trimEnd, hasInternalSeparator_trimStart, E.
    now apply (hasInternalSeparator_intro a b c). }
  unfold dropTrailingSeparator.
  destruct (endsWithChar semicolon _);
    [now apply hasInternalSeparator_removelast
    | now apply hasInternalSeparator_includes].
Qed.

(** *** The first character of the statement survives the normalization *)

Lemma normalizeSql_head raw c r :
  trimStart sqlSpace (stripComments raw) = c :: r ->
  normalizeSql raw = [] \/ exists k, normalizeSql raw = c :: k.
Proof.
  intros E.
  assert (Hc : sqlSpace c = false).
  { pose proof (trimStart_clean sqlSpace (stripComments raw)) as H.
    now rewrite E in H. }
  assert (Htrim : forall k, exists k', trim sqlSpace (c :: k) = c :: k').
  { intros k. unfold trim. cbn [trimStart]. rewrite Hc.
    apply trimEnd_cons, Hc. }
  assert (H1 : exists k1, trim sqlSpace (stripComments raw) = c :: k1).
  { unfold trim. rewrite E. apply trimEnd_cons, Hc. }
  destruct H1 as [k1 H1].
  unfold normalizeSql. rewrite H1. unfold dropTrailingSeparator.
  destruct (endsWithChar semicolon (c :: k1)).
  - destruct k1 as [|d k1]; [now left|].
    change (removelast (c :: d :: k1)) with (c :: removelast (d :: k1)).
    right. apply Htrim.
  - right. apply Htrim.
Qed.

Lemma firstWord_select_or_with c k :
  memText (firstWord (c :: k)) [lit "SELECT"; lit "WITH"] = true ->
  App.upperAscii c = 83 \/ App.upperAscii c = 87.
Proof.
  unfold firstWord, upper, memText. cbn [App.takeWhile].
  destruct (wordChar c); cbn [map existsb]; [|discriminate].
  change (lit "SELECT") with (83 :: lit "ELECT").
  change (lit "WITH") with (87 :: lit "ITH").
  cbn [Text.eqb]. intros H.
  destruct (N.eqb_spec (App.upperAscii c) 83) as [->|]; [now left|].
  destruct (N.eqb_spec (App.upperAscii c) 87) as [->|]; [now right|].
  discriminate H.
Qed.

Lemma mutating_initial kw :
  In kw mutatingKeywords ->
  exists z tail, kw = z :: tail /\ z <> 83 /\ z <> 87.
Proof.
  unfold mutatingKeywords. cbn [map In].
  intros H.
  repeat (destruct H as [<-|H];
          [eexists; eexists; split; [reflexivity | split; discriminate]|]).
  destruct H.
Qed.

Lemma normalizeSql_mutating_start raw :
  StartsWithMutating (trimStart sqlSpace (stripComments raw)) ->
  normalizeSql raw = []
  \/ memText (firstWord (normalizeSql raw)) [lit "SELECT"; lit "WITH"] = false.
Proof.
  intros [kw [rest [Hkw E]]].
  destruct (mutating_initial kw Hkw) as [z [tail [-> [H83 H87]]]].
  destruct (trimStart sqlSpace (stripComments raw)) as [|c r] eqn:T;
    [discriminate E|].
  cbn in E. injection E as Ez _.
  destruct (normalizeSql_head raw c r T) as [->|[k ->]]; [now left|].
  right. destruct (memText _ _) eqn:M; [|reflexivity].
  apply firstWord_select_or_with in M as [M|M]; congruence.
Qed.

(** *** A redirection pattern survives the normalization *)

Lemma Holds_trimStart ws z m s :
  ws z = false -> Holds (z :: m) s -> Holds (z :: m) (trimStart ws s).
Proof.
  intros Hz [a [b ->]].
  destruct (trimStart_keeps ws a z m b Hz) as [a' E].
  exists a', b. exact E.
Qed.

Lemma Holds_trimEnd ws m z s :
  ws z = false -> Holds (m ++ [z]) s -> Holds (m ++ [z]) (trimEnd ws s).
Proof.
  intros Hz [a [b ->]].
  destruct (trimEnd_keeps ws a m z b Hz) as [b' E].
  exists a, b'. rewrite <- !app_assoc. exact E.
Qed.

Lemma Holds_dropTrailingSeparator m z s :
  z <> semicolon ->
  Holds (m ++ [z]) s -> Holds (m ++ [z]) (dropTrailingSeparator s).
Proof.
  intros Hz [a [b ->]]. unfold dropTrailingSeparator.
  destruct (endsWithChar semicolon _) eqn:E; [|now exists a, b].
  destruct b as [|x b].
  - rewrite app_nil_r, app_assoc, endsWithChar_snoc in E.
    apply N.eqb_eq in E. contradiction.
  - exists a, (removelast (x :: b)).
    rewrite app_assoc, removelast_app by discriminate.
    now rewrite <- app_assoc.
Qed.

Lemma upperAscii_sqlSpace c : sqlSpace (App.upperAscii c) = sqlSpace c.
Proof.
  unfold App.upperAscii.
  destruct ((97 <=? c) && (c <=? 122)) eqn:E; [|reflexivity].
  apply andb_true_iff in E as [Hl Hh].
  apply N.leb_le in Hl, Hh. unfold sqlSpace.
  repeat match goal with
         | |- context [?a =? ?b] =>
             destruct (N.eqb_spec a b) as [?|_]; [lia|]
         end.
  reflexivity.
Qed.

Lemma upperAscii_semicolon c : (App.upperAscii c =? semicolon) = (c =? semicolon).
Proof.
  unfold App.upperAscii, semicolon.
  destruct ((97 <=? c) && (c <=? 122)) eqn:E; [|reflexivity].
  apply andb_true_iff in E as [Hl Hh].
  apply N.leb_le in Hl, Hh.
  destruct (N.eqb_spec (c - 32) 59), (N.eqb_spec c 59); try reflexivity; lia.
Qed.

Lemma endsWithChar_upper s :
  endsWithChar semicolon (upper s) = endsWithChar semicolon s.
Proof.
  induction s as [|c r IH]; [reflexivity|].
  unfold upper in *. cbn [map endsWithChar]. rewrite IH.
  destruct r; [apply upperAscii_semicolon | reflexivity].
Qed.

Lemma removelast_upper s : removelast (upper s) = upper (removelast s).
Proof.
  induction s as [|c r IH]; [reflexivity|].
  unfold upper in *. destruct r as [|d r]; [reflexivity|].
  change (removelast (c :: d :: r)) with (c :: removelast (d :: r)).
  cbn [map]. change (App.upperAscii d :: map App.upperAscii r)
    with (map App.upperAscii (d :: r)).
  rewrite <- IH. reflexivity.
Qed.

Lemma normalizeSql_upper raw :
  upper (normalizeSql raw) =
    trim sqlSpace (dropTrailingSeparator (trim sqlSpace (upper (stripComments raw)))).
Proof.
  unfold normalizeSql, upper.
  rewrite <- !(trim_map sqlSpace App.upperAscii) by apply upperAscii_sqlSpace.
  f_equal. unfold dropTrailingSeparator.
  fold (upper (trim sqlSpace (stripComments raw))).
  rewrite (trim_map sqlSpace App.upperAscii) by apply upperAscii_sqlSpace.
  fold (upper (trim sqlSpace (stripComments raw))).
  rewrite endsWithChar_upper.
  destruct (endsWithChar semicolon _); [now rewrite removelast_upper | reflexivity].
Qed.

Lemma dropWhile_gap gap z rest :
  forallb sqlSpace gap = true -> sqlSpace z = false ->
  dropWhile sqlSpace (gap ++ z :: rest) = z :: rest.
Proof.
  intros Hg Hz. induction gap as [|g gap IH]; cbn [app dropWhile].
  - now rewrite Hz.
  - cbn [forallb] in Hg. apply andb_true_iff in Hg as [Hg1 Hg2].
    rewrite Hg1. now apply IH.
Qed.

Lemma stripPrefix_app pat rest : stripPrefix pat (pat ++ rest) = Some rest.
Proof.
  induction pat as [|p pat IH]; [reflexivity|].
  cbn [app stripPrefix]. now rewrite N.eqb_refl.
Qed.

Lemma intoFileAt_pattern gap target b :
  In target [lit "OUTFILE"; lit "DUMPFILE"] ->
  gap <> [] -> forallb sqlSpace gap = true ->
  intoFileAt (lit "INTO" ++ gap ++ target ++ b) = true.
Proof.
  intros Ht Hne Hg. unfold intoFileAt. rewrite stripPrefix_app.
  destruct gap as [|g gap']; [congruence|].
  cbn [app]. pose proof Hg as Hg'. cbn [forallb] in Hg'.
  apply andb_true_iff in Hg' as [-> _]. cbn [andb].
  change (g :: gap' ++ target ++ b) with ((g :: gap') ++ target ++ b).
  destruct Ht as [<-|[<-|[]]].
  - change (lit "OUTFILE" ++ b) with (79 :: lit "UTFILE" ++ b).
    rewrite (dropWhile_gap _ _ _ Hg) by reflexivity.
    change (79 :: lit "UTFILE" ++ b) with (lit "OUTFILE" ++ b).
    now rewrite stripPrefix_app.
  - change (lit "DUMPFILE" ++ b) with (68 :: lit "UMPFILE" ++ b).
    rewrite (dropWhile_gap _ _ _ Hg) by reflexivity.
    change (68 :: lit "UMPFILE" ++ b) with (lit "DUMPFILE" ++ b).
    rewrite stripPrefix_app.
    now destruct (stripPrefix (lit "OUTFILE") _).
Qed.

Lemma intoFile_pattern a gap target b :
  In target [lit "OUTFILE"; lit "DUMPFILE"] ->
  gap <> [] -> forallb sqlSpace gap = true ->
  intoFile (a ++ lit "INTO" ++ gap ++ target ++ b) = true.
Proof.
  intros Ht Hne Hg. induction a as [|x a IH].
  - cbn [app]. change (lit "INTO" ++ gap ++ target ++ b)
      with (73 :: lit "NTO" ++ gap ++ target ++ b).
    cbn [intoFile].
    change (73 :: lit "NTO" ++ gap ++ target ++ b)
      with (lit "INTO" ++ gap ++ target ++ b).
    now rewrite intoFileAt_pattern.
  - cbn [app intoFile]. rewrite IH. apply orb_true_r.
Qed.

Lemma normalizeSql_keeps_into_file raw :
  ContainsIntoFile (stripComments raw) ->
  intoFile (upper (normalizeSql raw)) = true.
Proof.
  intros [a [gap [target [b [Ht [Hne [Hg E]]]]]]].
  set (part := lit "INTO" ++ gap ++ target).
  assert (Hfirst : exists m, part = 73 :: m) by (now exists (lit "NTO" ++ gap ++ target)).
  assert (Hlast : exists m, part = m ++ [69]).
  { unfold part. destruct Ht as [<-|[<-|[]]].
    - exists (lit "INTO" ++ gap ++ lit "OUTFIL"). now rewrite <- !app_assoc.
    - exists (lit "INTO" ++ gap ++ lit "DUMPFIL"). now rewrite <- !app_assoc. }
  assert (H0 : Holds part (upper (stripComments raw))).
  { exists a, b. rewrite E. unfold part. now rewrite <- !app_assoc. }
  assert (H1 : Holds part (upper (normalizeSql raw))).
  { rewrite normalizeSql_upper.
    destruct Hfirst as [mf Ef], Hlast as [ml El].
    unfold trim.
    rewrite El. apply Holds_trimEnd; [reflexivity|]. rewrite <- El.
    rewrite Ef. apply Holds_trimStart; [reflexivity|]. rewrite <- Ef.
    rewrite El. apply Holds_dropTrailingSeparator; [discriminate|].
    apply Holds_trimEnd; [reflexivity|]. rewrite <- El.
    rewrite Ef. apply Holds_trimStart; [reflexivity|]. rewrite <- Ef.
    exact H0. }
  destruct H1 as [a' [b' ->]]. unfold part. rewrite <- !app_assoc.
  now apply intoFile_pattern.
Qed.

(** *** A text that opens no comment is its own code *)

Lemma stripFrom_commentFree s :
  commentFree s = true ->
  stripFrom InCode s = s /\ forall q, stripFrom (InQuoted q) s = s.
Proof.
  induction s as [|c r IH]; [now split|]. intros H.
  assert (Hr : commentFree r = true).
  { destruct r as [|d r']; [reflexivity|].
    cbn [commentFree] in H. now apply andb_true_iff in H as [_ H]. }
  destruct (IH Hr) as [IHc IHq]. split.
  - cbn [stripFrom]. destruct (isQuote c); [now rewrite IHq|].
    destruct r as [|d r']; [reflexivity|].
    cbn [commentFree] in H.
    apply andb_true_iff in H as [H _]. apply andb_true_iff in H as [H1 H2].
    apply negb_true_iff in H1, H2. rewrite H1, H2. now rewrite IHc.
  - intros q. cbn [stripFrom]. destruct (c =? q); [now rewrite IHc | now rewrite IHq].
Qed.

Lemma stripComments_commentFree raw :
  commentFree raw = true -> stripComments raw = raw.
Proof. intros H. now apply stripFrom_commentFree. Qed.

(** C1: a raw SQL text whose code, the text outside its comments, contains
    an internal statement separator, or starts with INSERT, UPDATE, DELETE,
    DROP, ALTER, CREATE, TRUNCATE, MERGE, GRANT, REVOKE, EXEC or BEGIN, or
    contains INTO OUTFILE or INTO DUMPFILE, is denied by
    validateSqlStatement; two dashes or a slash-star between quotes open no
    comment, and for a raw text that opens no comment the three conditions
    are read on the raw text itself. *)
Theorem validateSqlStatement_denies (raw : Text.t) :
  (InternalSeparator (stripComments raw)
   \/ StartsWithMutating (trimStart sqlSpace (stripComments raw))
   \/ ContainsIntoFile (stripComments raw))
  \/ (commentFree raw = true
      /\ (InternalSeparator raw
          \/ StartsWithMutating (trimStart sqlSpace raw)
          \/ ContainsIntoFile raw)) ->
  exists reason, validateSqlStatement raw = Denied reason.
Proof.
  intros H.
  assert (H' : InternalSeparator (stripComments raw)
               \/ StartsWithMutating (trimStart sqlSpace (stripComments raw))
               \/ ContainsIntoFile (stripComments raw)).
  { destruct H as [H | [Hfree H]]; [exact H|].
    now rewrite (stripComments_commentFree raw Hfree). }
  clear H. unfold validateSqlStatement. cbv zeta.
  destruct (normalizeSql raw) as [|c k] eqn:E; [now eexists|].
  destruct (includes semicolon (c :: k)) eqn:Hsep; [now eexists|].
  destruct (negb (memText (firstWord (c :: k)) _)) eqn:Hfirst; [now eexists|].
  destruct (existsb _ _); [now eexists|].
  destruct (intoFile (upper (c :: k))) eqn:Hinto; [now eexists|].
  exfalso. destruct H' as [H|[H|H]].
  - apply normalizeSql_keeps_internal_separator in H. congruence.
  - apply normalizeSql_mutating_start in H as [H|H]; rewrite E in H;
      [discriminate | rewrite H in Hfirst; discriminate].
  - apply normalizeSql_keeps_into_file in H. congruence.
Qed.

(** Instances of C1: the scenario of section 8, SELECT 1; DROP TABLE x,
    denied for holding more than one statement; a second statement after a
    literal that holds two dashes; and a DROP behind a leading comment. *)
Lemma validateSqlStatement_denies_two_statements :
  validateSqlStatement (lit "SELECT 1; DROP TABLE x") = Denied MultipleStatements
  /\ (exists reason,
        validateSqlStatement (lit "SELECT 1; DROP TABLE x") = Denied reason)
  /\ (exists reason,
        validateSqlStatement (lit "SELECT '--' FROM t; DROP TABLE x") = Denied reason)
  /\ (exists reason,
        validateSqlStatement (lit "/* x */ drop table x") = Denied reason).
Proof.
  split; [reflexivity|]. split; [|split].
  - apply (validateSqlStatement_denies (lit "SELECT 1; DROP TABLE x")).
    right. split; [reflexivity|].
    left. exists (lit "SELECT 1"), (lit " DROP TABLE x"), 68.
    repeat split. cbn. auto.
  - apply (validateSqlStatement_denies (lit "SELECT '--' FROM t; DROP TABLE x")).
    left. left. exists (lit "SELECT '--' FROM t"), (lit " DROP TABLE x"), 68.
    repeat split. cbn. auto.
  - apply (validateSqlStatement_denies (lit "/* x */ drop table x")).
    left. right. left. exists (lit "DROP"), (lit " TABLE X").
    split; [cbn; auto 12 | reflexivity].
Defined.

(** The literal-aware scan at work: what follows a literal holding two
    dashes, or a quoted identifier holding a slash-star, stays in the code
    and is denied, and a separator inside a comment is no separator. *)
Lemma validateSqlStatement_quoted_markers :
  validateSqlStatement (lit "SELECT '--' FROM t; DROP TABLE x")
    = Denied MultipleStatements
  /\ validateSqlStatement (lit "SELECT 1 AS " ++ [dquote] ++ lit "/*" ++ [dquote]
                             ++ lit " FROM t; DROP TABLE x")
     = Denied MultipleStatements
  /\ validateSqlStatement (lit "SELECT 1 -- a; b")
     = Allowed (lit "SELECT 1").
Proof. repeat split. Qed.

(** ** validateExportPath *)

Import PathSanitizer.

Lemma Text_eqb_eq a : forall b, Text.eqb a b = true <-> a = b.
Proof.
  induction a as [|x a IH]; intros [|y b]; cbn [Text.eqb];
    try (split; [discriminate | congruence]); [easy|].
  rewrite andb_true_iff, N.eqb_eq, IH. split.
  - now intros [-> ->].
  - now intros [= -> ->].
Qed.

Lemma sameSegment_spec a b : sameSegment a b = true <-> SameSegment a b.
Proof. apply Text_eqb_eq. Qed.

Lemma segPrefix_spec prefix : forall path,
  segPrefix prefix path = true <->
  exists head more, path = head ++ more /\ Forall2 SameSegment prefix head.
Proof.
  induction prefix as [|p prefix IH]; intros path; cbn [segPrefix].
  - split; [|reflexivity]. intros _. exists [], path. split; [reflexivity | constructor].
  - destruct path as [|s path].
    + split; [discriminate|].
      intros [head [more [E F]]]. inversion F; subst. discriminate E.
    + rewrite andb_true_iff, sameSegment_spec, IH. split.
      * intros [Hs [head [more [-> F]]]].
        exists (s :: head), more. split; [reflexivity | now constructor].
      * intros [head [more [E F]]]. inversion F as [|? y ? head' Hs F']; subst.
        injection E as <- ->. split; [exact Hs|]. now exists head', more.
Qed.

Lemma deniedBy_spec rule path :
  deniedBy rule path = true <-> UnderPrefix rule path.
Proof.
  unfold deniedBy, UnderPrefix.
  destruct (segments rule) as [|d ds] eqn:E.
  - split; [discriminate | intros [H _]; congruence].
  - rewrite segPrefix_spec. split; [intros H; split; [discriminate | exact H] | now intros [_ H]].
Qed.

Lemma validateExportPath_system_path writable cfg raw :
  validateExportPath writable cfg raw = Denied SystemPath <->
  exists rule, In rule (denyPrefixes cfg) /\ UnderPrefix rule (segs (resolve cfg raw)).
Proof.
  unfold validateExportPath. cbv zeta.
  destruct (existsb _ (denyPrefixes cfg)) eqn:E.
  - split; [intros _|reflexivity].
    apply existsb_exists in E as [rule [Hin Hd]].
    exists rule. split; [exact Hin | now apply deniedBy_spec].
  - split.
    + destruct (adminShare _); [discriminate|].
      destruct (negb _); [discriminate|].
      destruct (_ && _); discriminate.
    + intros [rule [Hin Hu]]. apply deniedBy_spec in Hu.
      assert (existsb (fun rule => deniedBy rule (segs (resolve cfg raw)))
                (denyPrefixes cfg) = true)
        by (apply existsb_exists; now exists rule).
      congruence.
Qed.

(** *** From the text of a path to its segments *)

Lemma splitOn_cons sep s : exists h t, splitOn sep s = h :: t.
Proof.
  destruct s as [|c r]; cbn [splitOn]; [now eexists; eexists|].
  destruct (c =? sep); [now eexists; eexists|].
  destruct (splitOn sep r); now eexists; eexists.
Qed.

Lemma splitOn_app_sep sep x y :
  splitOn sep (x ++ sep :: y) = splitOn sep x ++ splitOn sep y.
Proof.
  induction x as [|c x IH]; cbn [app splitOn].
  - now rewrite N.eqb_refl.
  - rewrite IH. destruct (c =? sep); [reflexivity|].
    destruct (splitOn_cons sep x) as [h [t ->]]. reflexivity.
Qed.

Lemma splitOn_map g sep s :
  (forall c, (g c =? sep) = (c =? sep)) ->
  splitOn sep (map g s) = map (map g) (splitOn sep s).
Proof.
  intros Hg. induction s as [|c r IH]; [reflexivity|].
  cbn [map splitOn]. rewrite Hg, IH. destruct (c =? sep); [reflexivity|].
  destruct (splitOn sep r); reflexivity.
Qed.

Lemma filter_nonEmpty_map (g : N -> N) l :
  filter nonEmpty (map (map g) l) = map (map g) (filter nonEmpty l).
Proof.
  induction l as [|x l IH]; [reflexivity|].
  cbn [map filter]. rewrite IH. now destruct x.
Qed.

Lemma upperAscii_backslash c : (App.upperAscii c =? backslash) = (c =? backslash).
Proof.
  unfold App.upperAscii, backslash.
  destruct ((97 <=? c) && (c <=? 122)) eqn:E; [|reflexivity].
  apply andb_true_iff in E as [Hl Hh].
  apply N.leb_le in Hl, Hh.
  destruct (N.eqb_spec (c - 32) 92), (N.eqb_spec c 92); try reflexivity; lia.
Qed.

Lemma segments_upper s :
  map (map App.upperAscii) (segments s)
  = filter nonEmpty (splitOn backslash (map App.upperAscii (canonical s))).
Proof.
  unfold segments.
  rewrite splitOn_map by apply upperAscii_backslash.
  now rewrite filter_nonEmpty_map.
Qed.

Lemma map_eq_Forall2 (l1 : list Text.t) : forall l2,
  map (map App.upperAscii) l1 = map (map App.upperAscii) l2 ->
  Forall2 SameSegment l1 l2.
Proof.
  induction l1 as [|a l1 IH]; intros [|b l2] E; try discriminate E; [constructor|].
  cbn [map] in E. injection E as Ha E. constructor; [exact Ha | now apply IH].
Qed.

Lemma Forall2_map_eq l1 l2 :
  Forall2 SameSegment l1 l2 ->
  map (map App.upperAscii) l1 = map (map App.upperAscii) l2.
Proof. induction 1 as [|a b l1 l2 H _ IH]; [reflexivity|]. cbn [map]. now rewrite H, IH. Qed.

Lemma resolveDots_plain keep segs : forall stack,
  forallb (fun x => negb (Text.eqb x (lit ".")) && negb (Text.eqb x (lit ".."))) segs = true ->
  resolveDots keep stack segs = rev stack ++ segs.
Proof.
  induction segs as [|s r IH]; intros stack H; cbn [resolveDots].
  - now rewrite app_nil_r.
  - cbn [forallb] in H. apply andb_true_iff in H as [Hs Hr].
    apply andb_true_iff in Hs as [H1 H2].
    apply negb_true_iff in H1, H2. rewrite H1, H2, (IH _ Hr).
    cbn [rev]. now rewrite <- app_assoc.
Qed.

Lemma resolve_plain cfg raw :
  isAbsolute raw = true -> noDotSegments raw = true ->
  segs (resolve cfg raw) = segments raw.
Proof.
  intros Ha Hd. unfold resolve. rewrite Ha. cbn [segs].
  now rewrite resolveDots_plain.
Qed.

Lemma TextUnder_segments rule raw :
  segments rule <> [] -> TextUnder rule raw -> UnderPrefix rule (segments raw).
Proof.
  intros Hne [rest [E Hrest]]. split; [exact Hne|].
  pose proof (segments_upper raw) as Hraw. rewrite E in Hraw.
  destruct Hrest as [->|[r ->]].
  - rewrite app_nil_r, <- segments_upper in Hraw.
    exists (segments raw), []. split; [now rewrite app_nil_r|].
    apply map_eq_Forall2. now symmetry.
  - rewrite splitOn_app_sep, filter_app, <- segments_upper in Hraw.
    apply map_eq_app in Hraw as [head [more [-> [Hh _]]]].
    exists head, more. split; [reflexivity|].
    apply map_eq_Forall2. now symmetry.
Qed.

(** *** A sibling: the text of the prefix followed by more of the same
    segment *)

Lemma splitOn_app_extend sep a x rest :
  x <> sep ->
  exists h t,
    splitOn sep (a ++ x :: rest)
    = removelast (splitOn sep a) ++ (last (splitOn sep a) [] ++ x :: h) :: t.
Proof.
  intros Hx. induction a as [|c a IH].
  - cbn [app splitOn removelast last].
    apply N.eqb_neq in Hx. rewrite Hx.
    destruct (splitOn_cons sep rest) as [h [t ->]]. now exists h, t.
  - destruct IH as [h [t IH]]. exists h, t.
    cbn [app splitOn]. rewrite IH.
    destruct (splitOn_cons sep a) as [h0 [t0 E]]. rewrite E.
    destruct (c =? sep).
    + reflexivity.
    + destruct t0 as [|y t0]; reflexivity.
Qed.

Lemma splitOn_last_nonEmpty sep a :
  a <> [] -> endsWithChar sep a = false -> last (splitOn sep a) [] <> [].
Proof.
  induction a as [|c a IH]; [congruence|]. intros _ He.
  cbn [endsWithChar] in He. cbn [splitOn].
  destruct (splitOn_cons sep a) as [h0 [t0 E]].
  destruct a as [|d a].
  - rewrite He. cbn. discriminate.
  - assert (IH' : last (splitOn sep (d :: a)) [] <> [])
      by (apply IH; [discriminate | exact He]).
    rewrite E in *. destruct (c =? sep).
    + exact IH'.
    + destruct t0 as [|y t0]; [cbn; discriminate | exact IH'].
Qed.

Lemma filter_nonEmpty_last (l : list Text.t) :
  l <> [] -> last l [] <> [] ->
  filter nonEmpty l = filter nonEmpty (removelast l) ++ [last l []].
Proof.
  intros Hl Hlast. unfold Text.t in *.
  pose proof (app_removelast_last [] Hl) as E.
  destruct (last l []) as [|c z]; [congruence|].
  rewrite E at 1. now rewrite filter_app.
Qed.

Lemma cons_extend_absurd (a : list N) x h (M T T' : list (list N)) :
  a :: M = (if nonEmpty (a ++ x :: h) then (a ++ x :: h) :: T else T') -> False.
Proof.
  destruct a as [|c a]; cbn [app nonEmpty]; intros H; [discriminate H|].
  injection H as H _.
  apply (f_equal (@length N)) in H. rewrite length_app in H. cbn in H. lia.
Qed.

Lemma TextExtends_not_under rule raw :
  canonical rule <> [] -> endsWithChar backslash (canonical rule) = false ->
  TextExtends rule raw -> ~ UnderPrefix rule (segments raw).
Proof.
  intros Hne Hend [x [rest [E Hx]]] [_ [head [more [Hraw F]]]].
  set (cd := map App.upperAscii (canonical rule)) in *.
  assert (Hcd : cd <> []).
  { unfold cd. destruct (canonical rule); [congruence | discriminate]. }
  assert (Hcdend : endsWithChar backslash cd = false).
  { unfold cd. clear -Hend. induction (canonical rule) as [|c r IH]; [reflexivity|].
    cbn [map endsWithChar] in *. destruct r as [|d r].
    - now rewrite upperAscii_backslash.
    - now apply IH. }
  pose proof (splitOn_last_nonEmpty backslash cd Hcd Hcdend) as Hlast.
  destruct (splitOn_app_extend backslash cd x rest Hx) as [h [t Hsplit]].
  pose proof (segments_upper raw) as Sraw.
  rewrite E, Hsplit, filter_app in Sraw. cbn [filter] in Sraw.
  pose proof (segments_upper rule) as Srule. fold cd in Srule.
  rewrite filter_nonEmpty_last in Srule
    by (try exact Hlast; destruct (splitOn_cons backslash cd) as [? [? ->]]; discriminate).
  apply Forall2_map_eq in F. rewrite Srule in F.
  unfold Text.t in *.
  rewrite Hraw, map_app, <- F, <- app_assoc in Sraw.
  apply app_inv_head in Sraw.
  exact (cons_extend_absurd _ _ _ _ _ _ Sraw).
Qed.

(** *** The normalized path keeps one separator style *)

Lemma splitOn_pieces sep t :
  Forall (fun p => forall c, In c p -> In c t /\ c <> sep) (splitOn sep t).
Proof.
  induction t as [|x t IH]; cbn [splitOn].
  - constructor; [intros c []|constructor].
  - assert (IH' : Forall (fun p => forall c, In c p -> In c (x :: t) /\ c <> sep)
                    (splitOn sep t)).
    { eapply Forall_impl; [|exact IH]. cbv beta. intros p Hp c Hc.
      destruct (Hp c Hc). split; [now right | assumption]. }
    destruct (N.eqb_spec x sep) as [->|Hx].
    + constructor; [intros c []|exact IH'].
    + destruct (splitOn sep t) as [|h rest].
      * constructor; [|constructor].
        intros c [<-|[]]. split; [now left | assumption].
      * inversion IH' as [|? ? Hh Hrest]; subst. constructor; [|exact Hrest].
        intros c [<-|Hc]; [split; [now left | assumption]|]. now apply Hh.
Qed.

Lemma canonical_no_slash s c : In c (canonical s) -> c <> slash.
Proof.
  unfold canonical. intros H. apply in_map_iff in H as [x [<- _]].
  destruct (N.eqb_spec x slash); [discriminate | assumption].
Qed.

Lemma segments_clean s : Forall CleanSegment (segments s).
Proof.
  unfold segments. apply Forall_forall. intros seg Hin.
  apply filter_In in Hin as [Hin Hne].
  pose proof (splitOn_pieces backslash (canonical s)) as H.
  rewrite Forall_forall in H. specialize (H seg Hin). split.
  - now destruct seg.
  - intros c Hc. destruct (H c Hc) as [Hcan Hb].
    split; [exact Hb | now apply (canonical_no_slash s)].
Qed.

Lemma resolveDots_Forall (P : Text.t -> Prop) keep segs : forall stack,
  Forall P stack -> Forall P segs -> Forall P (resolveDots keep stack segs).
Proof.
  induction segs as [|x segs IH]; intros stack Hs Hx; cbn [resolveDots].
  - now apply Forall_rev.
  - inversion Hx as [|? ? Hx1 Hx2]; subst.
    destruct (Text.eqb x (lit ".")); [now apply IH|].
    destruct (Text.eqb x (lit "..")).
    + apply IH; [|exact Hx2].
      destruct (Nat.ltb keep (length stack)); [|exact Hs].
      destruct stack; [constructor | now inversion Hs].
    + apply IH; [now constructor | exact Hx2].
Qed.

Lemma resolve_clean cfg raw : Forall CleanSegment (segs (resolve cfg raw)).
Proof.
  unfold resolve. destruct (isAbsolute raw); cbn [segs];
    apply resolveDots_Forall; try constructor;
    rewrite ?Forall_app; auto using segments_clean.
Qed.

Lemma rootOf_cases s :
  rootOf s = [] \/ rootOf s = [backslash] \/ rootOf s = [backslash; backslash].
Proof.
  unfold rootOf. destruct (canonical s) as [|c r]; [now left|].
  destruct (c =? backslash); [|now left].
  destruct r as [|d r]; [now right; left|].
  destruct (d =? backslash); [now right; right | now right; left].
Qed.

Lemma resolve_root cfg raw :
  root (resolve cfg raw) = [] \/ root (resolve cfg raw) = [backslash]
  \/ root (resolve cfg raw) = [backslash; backslash].
Proof. unfold resolve. destruct (isAbsolute raw); apply rootOf_cases. Qed.

(** On Allowed, the normalized path holds no slash, and unless it is empty
    it ends with a backslash: one separator style, with a trailing
    separator. *)
Lemma validateExportPath_allowed_one_style writable cfg raw n :
  validateExportPath writable cfg raw = Allowed n ->
  ~ In slash n /\ (n = [] \/ endsWithChar backslash n = true).
Proof.
  unfold validateExportPath. cbv zeta.
  destruct (existsb _ _); [discriminate|].
  destruct (adminShare _); [discriminate|].
  destruct (negb _); [discriminate|].
  destruct (_ && _); [discriminate|].
  intros [= <-]. unfold render.
  pose proof (resolve_clean cfg raw) as Hc.
  pose proof (resolve_root cfg raw) as Hr.
  set (r := resolve cfg raw) in *. split.
  - intros Hin. apply in_app_or in Hin as [Hin|Hin].
    + destruct Hr as [E|[E|E]]; rewrite E in Hin; cbn in Hin;
        repeat (destruct Hin as [Hin|Hin]; [discriminate Hin|]); exact Hin.
    + apply in_flat_map in Hin as [seg [Hseg Hin]].
      rewrite Forall_forall in Hc. destruct (Hc seg Hseg) as [_ Hclean].
      apply in_app_or in Hin as [Hin|[Hin|[]]]; [|discriminate Hin].
      now destruct (Hclean slash Hin).
  - clear Hc. induction (segs r) as [|s0 rest _] using rev_ind.
    + cbn [flat_map]. rewrite app_nil_r.
      destruct Hr as [-> | [-> | ->]]; [now left | now right | now right].
    + right. rewrite flat_map_app. cbn [flat_map]. rewrite app_nil_r.
      rewrite !app_assoc. apply endsWithChar_snoc.
Qed.

(** *** One separator style *)

Lemma canonical_idem s : canonical (canonical s) = canonical s.
Proof.
  unfold canonical. rewrite map_map. apply map_ext. intros c.
  destruct (c =? slash) eqn:E; [reflexivity | now rewrite E].
Qed.

Lemma resolve_canonical cfg raw : resolve cfg (canonical raw) = resolve cfg raw.
Proof.
  unfold resolve, isAbsolute, rootOf, anchored, segments.
  now rewrite canonical_idem.
Qed.

Lemma validateExportPath_canonical writable cfg raw :
  validateExportPath writable cfg (canonical raw)
  = validateExportPath writable cfg raw.
Proof. unfold validateExportPath. now rewrite resolve_canonical. Qed.

(** C6: on Allowed, the normalized path uses one separator style: it holds
    no slash, so never both a backslash and a slash; the verdict is that of
    the path with its separators made canonical first; and the trailing
    separator helper of the form, applied to the normalized path, brings
    no second style back. *)
Theorem validateExportPath_one_separator_style (writable : Text.t -> bool)
    (cfg : Config) (raw n : Text.t) :
  validateExportPath writable cfg raw = Allowed n ->
  includes slash n = false
  /\ mixes_separators n = false
  /\ validateExportPath writable cfg (canonical raw) = Allowed n
  /\ mixes_separators (ensureTrailingSeparator n) = false.
Proof.
  intros H.
  assert (Hs : includes slash n = false).
  { destruct (validateExportPath_allowed_one_style writable cfg raw n H) as [Hn _].
    unfold includes. destruct (existsb (N.eqb slash) n) eqn:E; [|reflexivity].
    apply existsb_exists in E as [x [Hx Ex]]. apply N.eqb_eq in Ex. now subst x. }
  assert (Hm : mixes_separators n = false).
  { unfold mixes_separators. rewrite Hs. apply andb_false_r. }
  repeat split; try assumption.
  - now rewrite validateExportPath_canonical.
  - now rewrite ensureTrailingSeparator_mixes_iff_input_mixes.
Qed.

(** An instance of C6: C:\a/b mixes the two separators and is allowed as
    C:\a\b\. *)
Lemma validateExportPath_mixed_input :
  includes slash (lit "C:\a\b\") = false
  /\ mixes_separators (lit "C:\a\b\") = false
  /\ validateExportPath (fun _ => true) (defaultConfig [lit "C:\Windows"])
       (canonical (lit "C:\a/b")) = Allowed (lit "C:\a\b\")
  /\ mixes_separators (ensureTrailingSeparator (lit "C:\a\b\")) = false.
Proof.
  apply (validateExportPath_one_separator_style (fun _ => true)
           (defaultConfig [lit "C:\Windows"]) (lit "C:\a/b") (lit "C:\a\b\")).
  reflexivity.
Defined.

(** *** Validating a normalized path again *)

Lemma canonical_fixed s : ~ In slash s -> canonical s = s.
Proof.
  induction s as [|c s IH]; [reflexivity|]. intros H.
  unfold canonical in *. cbn [map].
  destruct (N.eqb_spec c slash) as [->|_]; [exfalso; apply H; now left|].
  f_equal. apply IH. intros Hin. apply H. now right.
Qed.

Lemma render_no_slash r :
  (root r = [] \/ root r = [backslash] \/ root r = [backslash; backslash]) ->
  Forall CleanSegment (segs r) -> ~ In slash (render r).
Proof.
  intros Hr Hc Hin. unfold render in Hin.
  apply in_app_or in Hin as [Hin|Hin].
  - destruct Hr as [E|[E|E]]; rewrite E in Hin; cbn in Hin;
      repeat (destruct Hin as [Hin|Hin]; [discriminate Hin|]); exact Hin.
  - apply in_flat_map in Hin as [seg [Hseg Hin]].
    rewrite Forall_forall in Hc. destruct (Hc seg Hseg) as [_ Hclean].
    apply in_app_or in Hin as [Hin|[Hin|[]]]; [|discriminate Hin].
    now destruct (Hclean slash Hin).
Qed.

Lemma splitOn_clean seg :
  (forall c, In c seg -> c <> backslash) -> splitOn backslash seg = [seg].
Proof.
  induction seg as [|c seg IH]; [reflexivity|]. intros H.
  cbn [splitOn].
  destruct (N.eqb_spec c backslash) as [E|_]; [exfalso; apply (H c); [now left | exact E]|].
  rewrite IH; [reflexivity|]. intros x Hx. apply H. now right.
Qed.

Lemma segments_flat l :
  Forall CleanSegment l ->
  filter nonEmpty (splitOn backslash (flat_map (fun s => s ++ [backslash]) l)) = l.
Proof.
  induction 1 as [|seg l [Hne Hseg] _ IH]; [reflexivity|].
  cbn [flat_map]. rewrite <- app_assoc. cbn [app].
  rewrite splitOn_app_sep, filter_app, IH.
  rewrite splitOn_clean by (intros c Hc; now destruct (Hseg c Hc)).
  cbn [filter]. now destruct seg.
Qed.

Lemma segments_render r :
  (root r = [] \/ root r = [backslash] \/ root r = [backslash; backslash]) ->
  Forall CleanSegment (segs r) -> segments (render r) = segs r.
Proof.
  intros Hr Hc. unfold segments.
  rewrite canonical_fixed by now apply render_no_slash.
  unfold render.
  destruct Hr as [-> | [-> | ->]]; cbn [app splitOn N.eqb backslash Pos.eqb filter nonEmpty];
    now apply segments_flat.
Qed.

(** What resolveDots returns was pushed: it satisfies whatever the segments
    that are no dots satisfy. *)
Lemma resolveDots_pushed (P : Text.t -> Prop) keep segs : forall stack,
  Forall P stack ->
  Forall (fun x => Text.eqb x (lit ".") = false ->
                   Text.eqb x (lit "..") = false -> P x) segs ->
  Forall P (resolveDots keep stack segs).
Proof.
  induction segs as [|x segs IH]; intros stack Hs Hx; cbn [resolveDots].
  - now apply Forall_rev.
  - inversion Hx as [|? ? Hx1 Hx2]; subst.
    destruct (Text.eqb x (lit ".")) eqn:E1; [now apply IH|].
    destruct (Text.eqb x (lit "..")) eqn:E2.
    + apply IH; [|exact Hx2].
      destruct (Nat.ltb keep (length stack)); [|exact Hs].
      destruct stack; [constructor | now inversion Hs].
    + apply IH; [constructor; auto | exact Hx2].
Qed.

Lemma resolve_plain_segments cfg raw : Forall PlainSegment (segs (resolve cfg raw)).
Proof.
  assert (H : forall l, Forall CleanSegment l ->
            Forall (fun x => Text.eqb x (lit ".") = false ->
                             Text.eqb x (lit "..") = false -> PlainSegment x) l).
  { intros l Hl. eapply Forall_impl; [|exact Hl]. cbv beta.
    intros x Hx H1 H2. split; [exact Hx | now split]. }
  unfold resolve. destruct (isAbsolute raw); cbn [segs];
    apply resolveDots_pushed; try constructor; apply H;
    rewrite ?Forall_app; auto using segments_clean.
Qed.

Lemma resolveDots_of_plain keep l :
  Forall PlainSegment l -> resolveDots keep [] l = l.
Proof.
  intros H. rewrite resolveDots_plain; [reflexivity|].
  apply forallb_forall. intros x Hx. rewrite Forall_forall in H.
  destruct (H x Hx) as [_ [-> ->]]. reflexivity.
Qed.

(** The first segment of a drive path is never removed. *)
Lemma resolveDots_bottom keep b segs : forall stack,
  (1 <= keep)%nat -> exists rest, resolveDots keep (stack ++ [b]) segs = b :: rest.
Proof.
  induction segs as [|x segs IH]; intros stack Hk; cbn [resolveDots].
  - rewrite rev_app_distr. cbn. now eexists.
  - destruct (Text.eqb x (lit ".")); [now apply IH|].
    destruct (Text.eqb x (lit "..")).
    + destruct (Nat.ltb keep (length (stack ++ [b]))) eqn:L; [|now apply IH].
      destruct stack as [|y st]; [|cbn [app tl]; now apply IH].
      apply Nat.ltb_lt in L. cbn in L. lia.
    + change (x :: stack ++ [b]) with ((x :: stack) ++ [b]). now apply IH.
Qed.

Lemma flat_head l :
  Forall CleanSegment l ->
  match flat_map (fun s => s ++ [backslash]) l with
  | d :: _ => d <> backslash
  | [] => True
  end.
Proof.
  intros H. destruct H as [|seg l [Hne Hseg] _]; [exact I|].
  cbn [flat_map]. destruct seg as [|c seg]; [congruence|].
  cbn [app]. apply (Hseg c). now left.
Qed.

Lemma anchor_render a more :
  isAbsolute a = true -> Forall CleanSegment more ->
  let r := {| root := rootOf a;
              segs := resolveDots (anchored a) [] (segments a ++ more) |} in
  isAbsolute (render r) = true /\ rootOf (render r) = rootOf a.
Proof.
  intros Ha Hm r.
  assert (Hclean : Forall CleanSegment (segs r)).
  { apply resolveDots_Forall; [constructor|].
    rewrite Forall_app. split; [apply segments_clean | exact Hm]. }
  assert (Hns : ~ In slash (render r))
    by (apply render_no_slash; [apply rootOf_cases | exact Hclean]).
  unfold isAbsolute at 1. unfold rootOf at 1.
  rewrite (canonical_fixed _ Hns).
  pose proof (flat_head _ Hclean) as Hhead.
  unfold render. subst r. cbn [root segs] in *.
  unfold isAbsolute in Ha. unfold rootOf, anchored in *.
  destruct (canonical a) as [|c rest] eqn:Ea; [discriminate Ha|].
  destruct (N.eqb_spec c backslash) as [->|Hc].
  - destruct rest as [|d rest'].
    + cbn [app]. split; [reflexivity|]. cbn [N.eqb backslash Pos.eqb].
      destruct (flat_map _ _) as [|x fl]; [reflexivity|].
      apply N.eqb_neq in Hhead. now rewrite Hhead.
    + destruct (d =? backslash).
      * cbn [app]. split; reflexivity.
      * cbn [app]. split; [reflexivity|]. cbn [N.eqb backslash Pos.eqb].
        destruct (flat_map _ _) as [|x fl]; [reflexivity|].
        apply N.eqb_neq in Hhead. now rewrite Hhead.
  - apply N.eqb_neq in Hc. rewrite ?Hc in Ha. cbn [orb] in Ha.
    destruct rest as [|d rest']; [discriminate Ha|].
    apply N.eqb_eq in Ha. subst d. cbn [N.eqb colon Pos.eqb] in *.
    destruct (splitOn_cons backslash rest') as [h [t Et]].
    assert (Hseg : segments a = (c :: colon :: h) :: filter nonEmpty t).
    { unfold segments. rewrite Ea. cbn [splitOn]. rewrite Hc.
      change (colon =? backslash) with false. cbv iota. rewrite Et. reflexivity. }
    rewrite Hseg in *. cbn [app resolveDots Text.eqb] in *.
    change (lit ".") with [46] in *. change (lit "..") with [46; 46] in *.
    cbn [Text.eqb] in *. change (colon =? 46) with false in *.
    cbn [andb] in *. rewrite !andb_false_r in *.
    destruct (resolveDots_bottom 1 (c :: colon :: h) (filter nonEmpty t ++ more) []
                (le_n 1)) as [rest'' E].
    cbn [app] in E. rewrite E in *. cbn [flat_map app].
    rewrite Hc. split; reflexivity.
Qed.

Lemma resolve_render cfg raw :
  isAbsolute (baseDirectory cfg) = true ->
  resolve cfg (render (resolve cfg raw)) = resolve cfg raw.
Proof.
  intros Hb.
  pose proof (resolve_plain_segments cfg raw) as Hplain.
  assert (Hclean : Forall CleanSegment (segs (resolve cfg raw))).
  { eapply Forall_impl; [|exact Hplain]. now intros x [Hx _]. }
  pose proof (resolve_root cfg raw) as Hroot.
  assert (Habs : isAbsolute (render (resolve cfg raw)) = true
                 /\ rootOf (render (resolve cfg raw)) = root (resolve cfg raw)).
  { unfold resolve. destruct (isAbsolute raw) eqn:Hr.
    - pose proof (anchor_render raw [] Hr (Forall_nil _)) as H.
      cbv zeta in H. rewrite app_nil_r in H. exact H.
    - exact (anchor_render (baseDirectory cfg) (segments raw) Hb (segments_clean raw)). }
  destruct Habs as [Ha Hr].
  unfold resolve at 1. rewrite Ha, Hr.
  rewrite (segments_render _ Hroot Hclean), (resolveDots_of_plain _ _ Hplain).
  now destruct (resolve cfg raw).
Qed.

(** Validating an allowed, normalized path again gives the same path, when
    the base directory is absolute. *)
Lemma validateExportPath_idempotent writable cfg raw n :
  isAbsolute (baseDirectory cfg) = true ->
  validateExportPath writable cfg raw = Allowed n ->
  validateExportPath writable cfg n = Allowed n.
Proof.
  intros Hb H.
  assert (Hn : n = render (resolve cfg raw)).
  { unfold validateExportPath in H. cbv zeta in H.
    destruct (existsb _ _); [discriminate|].
    destruct (adminShare _); [discriminate|].
    destruct (negb _); [discriminate|].
    destruct (_ && _); [discriminate|]. now injection H. }
  subst n. unfold validateExportPath in *. cbv zeta in *.
  rewrite (resolve_render cfg raw Hb). exact H.
Qed.

(** C2: validateExportPath denies a path for a system prefix exactly when
    the segments of its resolved form begin with the segments of a deny
    prefix, compared without case.  So an absolute path whose text is the
    prefix, alone or followed by a separator, is denied, and one whose text
    only continues the last segment of the prefix is not denied by that
    rule: C:\Windows\System32 is denied under the rule C:\Windows, C:\Windows2
    is allowed, and D:\Reports is allowed as D:\Reports\. *)
Theorem validateExportPath_matches_prefix_by_segment :
  (forall writable cfg raw,
      validateExportPath writable cfg raw = Denied SystemPath <->
      exists rule,
        In rule (denyPrefixes cfg) /\ UnderPrefix rule (segs (resolve cfg raw)))
  /\ (forall writable cfg rule raw,
      In rule (denyPrefixes cfg) -> segments rule <> [] ->
      isAbsolute raw = true -> noDotSegments raw = true ->
      TextUnder rule raw ->
      validateExportPath writable cfg raw = Denied SystemPath)
  /\ (forall writable cfg rule raw,
      denyPrefixes cfg = [rule] ->
      canonical rule <> [] -> endsWithChar backslash (canonical rule) = false ->
      isAbsolute raw = true -> noDotSegments raw = true ->
      TextExtends rule raw ->
      validateExportPath writable cfg raw <> Denied SystemPath)
  /\ (let cfg := defaultConfig [lit "C:\Windows"] in
      let writable := fun _ : Text.t => true in
      validateExportPath writable cfg (lit "C:\Windows\System32") = Denied SystemPath
      /\ validateExportPath writable cfg (lit "c:/WINDOWS") = Denied SystemPath
      /\ validateExportPath writable cfg (lit "C:\Windows2")
         = Allowed (lit "C:\Windows2" ++ [backslash])
      /\ validateExportPath writable cfg (lit "D:\Reports")
         = Allowed (lit "D:\Reports" ++ [backslash])).
Proof.
  split; [exact validateExportPath_system_path|]. split; [|split].
  - intros writable cfg rule raw Hin Hne Ha Hd Hu.
    apply validateExportPath_system_path. exists rule. split; [exact Hin|].
    rewrite (resolve_plain cfg raw Ha Hd). now apply TextUnder_segments.
  - intros writable cfg rule raw Hrules Hne Hend Ha Hd Hx Hden.
    apply validateExportPath_system_path in Hden as [rule' [Hin Hu]].
    rewrite Hrules in Hin. destruct Hin as [<-|[]].
    rewrite (resolve_plain cfg raw Ha Hd) in Hu.
    now apply (TextExtends_not_under rule raw).
  - repeat split.
Qed.

(** The two paths of C2: C:\Windows\System32 lies under the rule C:\Windows
    and is denied; C:\Windows2 continues its last segment and is not. *)
Lemma validateExportPath_system32_and_windows2 :
  validateExportPath (fun _ => true) (defaultConfig [lit "C:\Windows"])
    (lit "C:\Windows\System32") = Denied SystemPath
  /\ validateExportPath (fun _ => true) (defaultConfig [lit "C:\Windows"])
       (lit "C:\Windows2") <> Denied SystemPath.
Proof.
  split.
  - apply (proj1 (proj2 validateExportPath_matches_prefix_by_segment))
      with (rule := lit "C:\Windows").
    + left. reflexivity.
    + vm_compute. discriminate.
    + reflexivity.
    + reflexivity.
    + exists (map App.upperAscii (lit "\System32")). split; [reflexivity|].
      right. eexists. reflexivity.
  - apply (proj1 (proj2 (proj2 validateExportPath_matches_prefix_by_segment)))
      with (rule := lit "C:\Windows").
    + reflexivity.
    + vm_compute. discriminate.
    + reflexivity.
    + reflexivity.
    + reflexivity.
    + exists 50, []. split; [reflexivity | vm_compute; discriminate].
Defined.

(** ** The spool script generator *)

Import Spool.

Lemma replaceAll_dquote v :
  replaceAll [dquote] [dquote; dquote] v = doubleQuotes v.
Proof.
  unfold replaceAll, doubleQuotes.
  induction v as [|c r IH]; [reflexivity|].
  cbn [replaceFrom SqlValidator.stripPrefix flat_map length Nat.sub].
  destruct (c =? dquote); cbn [app]; now rewrite IH.
Qed.

Lemma undoubleQuotes_doubleQuotes v : undoubleQuotes (doubleQuotes v) = v.
Proof.
  unfold doubleQuotes. induction v as [|c v IH]; [reflexivity|].
  cbn [flat_map]. destruct (N.eqb_spec c dquote) as [->|Hc].
  - cbn [app undoubleQuotes]. rewrite N.eqb_refl. now rewrite IH.
  - cbn [app undoubleQuotes]. apply N.eqb_neq in Hc. rewrite Hc. now rewrite IH.
Qed.

(** The round trip of section 8: reading a written field gives the value
    back, commas, quotes and line breaks included. *)
Lemma csvField_round_trip v : csvUnquote (csvField v) = v.
Proof.
  unfold csvField, quoted, csvUnquote. cbn [app].
  rewrite removelast_last. apply undoubleQuotes_doubleQuotes.
Qed.

(** *** The tokens of the row expression *)

Lemma render_field c rest :
  renderExpr (fieldExpr c) ++ rest
  = [squote; dquote; squote] ++ lit " || REPLACE(" ++ c
    ++ lit ", " ++ [squote; dquote; squote] ++ lit ", "
    ++ [squote; dquote; dquote; squote] ++ lit ") || " ++ [squote; dquote; squote]
    ++ rest.
Proof.
  unfold fieldExpr. cbn [renderExpr]. unfold sqlLiteral.
  rewrite <- !app_assoc. reflexivity.
Qed.

Lemma lex_field_open rest :
  lexFrom Idle ([squote; dquote; squote] ++ lit " || REPLACE(" ++ rest)
  = [TLit [dquote]; TBar; TWord (lit "REPLACE"); TLParen] ++ lexFrom Idle rest.
Proof. reflexivity. Qed.

Lemma lex_word c : forall w rest,
  forallb SqlValidator.wordChar c = true ->
  lexFrom (InWord w) (c ++ rest) = lexFrom (InWord (w ++ c)) rest.
Proof.
  induction c as [|x c IH]; intros w rest H.
  - now rewrite app_nil_r.
  - cbn [forallb] in H. apply andb_true_iff in H as [Hx Hc].
    cbn [app lexFrom lexStep]. rewrite Hx. cbn [fst snd app].
    rewrite (IH _ _ Hc), <- app_assoc. reflexivity.
Qed.

Lemma lex_identifier c rest :
  isIdentifier c = true -> lexFrom Idle (c ++ rest) = lexFrom (InWord c) rest.
Proof.
  destruct c as [|x c]; [discriminate|]. unfold isIdentifier. intros H.
  cbn [forallb] in H. apply andb_true_iff in H as [Hx Hc].
  cbn [app lexFrom lexStep]. unfold start. rewrite Hx. cbn [fst snd app].
  now rewrite (lex_word c [x] rest Hc).
Qed.

Lemma lex_field_close c rest :
  lexFrom (InWord c)
    (lit ", " ++ [squote; dquote; squote] ++ lit ", "
     ++ [squote; dquote; dquote; squote] ++ lit ") || " ++ [squote; dquote; squote]
     ++ 32 :: rest)
  = [TWord c; TComma; TLit [dquote]; TComma; TLit [dquote; dquote]; TRParen;
     TBar; TLit [dquote]] ++ lexFrom Idle rest.
Proof. reflexivity. Qed.

Lemma lex_field c rest :
  isIdentifier c = true ->
  lexFrom Idle (renderExpr (fieldExpr c) ++ 32 :: rest)
  = fieldTokens c ++ lexFrom Idle rest.
Proof.
  intros H. rewrite render_field, lex_field_open, (lex_identifier c _ H).
  rewrite lex_field_close. reflexivity.
Qed.

Lemma lex_comma rest :
  lexFrom Idle (lit "|| " ++ [squote; comma; squote] ++ lit " || " ++ rest)
  = [TBar; TLit [comma]; TBar] ++ lexFrom Idle rest.
Proof. reflexivity. Qed.

Lemma render_row c d r rest :
  renderExpr (rowExpr (c :: d :: r)) ++ 32 :: rest
  = renderExpr (fieldExpr c)
    ++ 32 :: lit "|| " ++ [squote; comma; squote] ++ lit " || "
    ++ renderExpr (rowExpr (d :: r)) ++ 32 :: rest.
Proof.
  change (rowExpr (c :: d :: r))
    with (Concat (fieldExpr c) (Concat (Lit [comma]) (rowExpr (d :: r)))).
  cbn [renderExpr]. unfold sqlLiteral. rewrite <- !app_assoc. reflexivity.
Qed.

Lemma lex_row columns : forall rest,
  forallb isIdentifier columns = true ->
  lexFrom Idle (renderExpr (rowExpr columns) ++ 32 :: rest)
  = rowTokens columns ++ lexFrom Idle rest.
Proof.
  induction columns as [|c r IH]; intros rest H; [reflexivity|].
  cbn [forallb] in H. apply andb_true_iff in H as [Hc Hr].
  destruct r as [|d r].
  - now apply lex_field.
  - rewrite render_row, (lex_field c _ Hc), lex_comma, (IH _ Hr).
    change (rowTokens (c :: d :: r))
      with (fieldTokens c ++ [TBar; TLit [comma]; TBar] ++ rowTokens (d :: r)).
    now rewrite <- !app_assoc.
Qed.

(** *** The operands read back from the tokens *)

Lemma parse_last_field c rest :
  NoBar rest -> parseConcat (fieldTokens c ++ rest) = Some (fieldTerms c, rest).
Proof. destruct rest as [|[] rest]; intros H; try reflexivity. destruct H. Qed.

Lemma parse_field c more :
  parseConcat (fieldTokens c ++ [TBar; TLit [comma]; TBar] ++ more)
  = option_map (fun p => (fieldTerms c ++ [Literal [comma]] ++ fst p, snd p))
      (parseConcat more).
Proof.
  cbn. destruct (parseConcat more) as [[ts rest]|]; reflexivity.
Qed.

Lemma parse_row columns rest :
  NoBar rest -> parseConcat (rowTokens columns ++ rest) = Some (rowTerms columns, rest).
Proof.
  intros H. induction columns as [|c r IH].
  - destruct rest as [|[] rest]; try reflexivity. destruct H.
  - destruct r as [|d r]; [now apply parse_last_field|].
    change (rowTokens (c :: d :: r))
      with (fieldTokens c ++ [TBar; TLit [comma]; TBar] ++ rowTokens (d :: r)).
    rewrite <- !app_assoc, parse_field, IH. reflexivity.
Qed.

Lemma evalTerms_row row columns :
  evalTerms row (rowTerms columns)
  = join [comma] (map (fun c => [dquote] ++ doubleQuotes (row c) ++ [dquote]) columns).
Proof.
  induction columns as [|c r IH]; [reflexivity|].
  destruct r as [|d r].
  - unfold evalTerms. cbn [rowTerms fieldTerms flat_map evalTerm map join].
    now rewrite replaceAll_dquote, app_nil_r.
  - change (rowTerms (c :: d :: r))
      with (fieldTerms c ++ [Literal [comma]] ++ rowTerms (d :: r)).
    unfold evalTerms in *. rewrite !flat_map_app, IH.
    cbn [fieldTerms flat_map evalTerm map join].
    rewrite replaceAll_dquote, app_nil_r. now rewrite <- !app_assoc.
Qed.

(** *** The session on the generated script *)

Lemma sqlplus_feed rows file out t : forall line rest,
  includes 10 t = false ->
  sqlplus rows file out line (t ++ rest) = sqlplus rows file out (line ++ t) rest.
Proof.
  induction t as [|c t IH]; intros line rest H.
  - now rewrite app_nil_r.
  - unfold includes in H. cbn [existsb] in H. apply orb_false_iff in H as [Hc Ht].
    cbn [app sqlplus]. rewrite N.eqb_sym in Hc. rewrite Hc. cbn [andb].
    rewrite (IH _ _ Ht), <- app_assoc. reflexivity.
Qed.

Lemma continues_select X :
  includes semicolon X = false -> continues (lit "SELECT " ++ X) = true.
Proof.
  intros H. unfold continues.
  change (keyword (lit "SELECT " ++ X)) with (lit "SELECT").
  destruct (endsWithChar semicolon (lit "SELECT " ++ X)) eqn:E; [|reflexivity].
  apply endsWithChar_includes in E. rewrite includes_app, H in E. discriminate E.
Qed.

Lemma sqlplus_feed_select rows file out t : forall X rest,
  includes semicolon (X ++ t) = false ->
  sqlplus rows file out (lit "SELECT " ++ X) (t ++ rest)
  = sqlplus rows file out (lit "SELECT " ++ X ++ t) rest.
Proof.
  induction t as [|c t IH]; intros X rest H.
  - now rewrite !app_nil_r.
  - assert (HX : includes semicolon X = false).
    { rewrite includes_app in H. now apply orb_false_iff in H as [H _]. }
    cbn [app sqlplus]. rewrite (continues_select X HX). cbn [negb].
    rewrite andb_false_r, <- app_assoc.
    rewrite (IH (X ++ [c]) rest) by (now rewrite <- app_assoc).
    now rewrite <- app_assoc.
Qed.

Lemma sqlplus_line rows file out t rest file' out' :
  includes 10 t = false -> continues t = false ->
  exec rows file out t = Continue file' out' ->
  sqlplus rows file out [] ((t ++ [10]) ++ rest) = sqlplus rows file' out' [] rest.
Proof.
  intros Ht Hc He. rewrite <- app_assoc, (sqlplus_feed rows file out t) by exact Ht.
  cbn [app sqlplus]. rewrite N.eqb_refl, Hc, He. reflexivity.
Qed.

Lemma sqlplus_select rows file out X rest file' out' :
  includes semicolon X = false ->
  exec rows file out (lit "SELECT " ++ X ++ [semicolon]) = Continue file' out' ->
  sqlplus rows file out [] (((lit "SELECT " ++ X ++ lit ";") ++ [10]) ++ rest)
  = sqlplus rows file' out' [] rest.
Proof.
  intros HX He. rewrite <- !app_assoc.
  rewrite (sqlplus_feed rows file out (lit "SELECT ")) by reflexivity.
  rewrite app_nil_l, <- (app_nil_r (lit "SELECT ")).
  rewrite (sqlplus_feed_select rows file out X []) by exact HX.
  rewrite app_nil_l.
  rewrite (sqlplus_feed rows file out (lit ";")) by reflexivity.
  cbn [app sqlplus]. rewrite N.eqb_refl.
  assert (Hc : continues ((lit "SELECT " ++ X) ++ lit ";") = false).
  { unfold continues. change (lit ";") with [semicolon].
    rewrite endsWithChar_snoc, N.eqb_refl. apply andb_false_r. }
  rewrite Hc. cbn [negb andb].
  change (lit ";") with [semicolon]. rewrite <- app_assoc, He. reflexivity.
Qed.

Lemma sqlplus_exit rows file out rest :
  sqlplus rows file out [] ((lit "EXIT" ++ [10]) ++ rest) = Some out.
Proof.
  rewrite <- app_assoc, (sqlplus_feed rows file out (lit "EXIT")) by reflexivity.
  reflexivity.
Qed.

Lemma isWord_off_csv X : isWord "OFF" (X ++ lit ".csv") = false.
Proof.
  unfold isWord. destruct (Text.eqb _ _) eqn:E; [|reflexivity].
  apply Text_eqb_eq in E. apply (f_equal (@length N)) in E.
  unfold SqlValidator.upper in E. rewrite length_map, length_app in E.
  cbn in E. lia.
Qed.

Lemma exec_spool rows file out X :
  exec rows file out (lit "SPOOL " ++ X ++ lit ".csv")
  = Continue (Some (X ++ lit ".csv")) out.
Proof.
  unfold exec.
  change (forallb SqlValidator.sqlSpace (lit "SPOOL " ++ X ++ lit ".csv")) with false.
  change (keyword (lit "SPOOL " ++ X ++ lit ".csv")) with (lit "SPOOL").
  change (argument (lit "SPOOL " ++ X ++ lit ".csv")) with (X ++ lit ".csv").
  rewrite isWord_off_csv. reflexivity.
Qed.

Lemma exec_prompt rows f out h :
  exec rows (Some f) out (lit "PROMPT " ++ h) = Continue (Some f) (out ++ [(f, h)]).
Proof. reflexivity. Qed.

Lemma lex_from rest :
  lexFrom Idle (lit "FROM " ++ rest) = TWord (lit "FROM") :: lexFrom Idle rest.
Proof. reflexivity. Qed.

Lemma selectLines_row rows columns src :
  forallb isIdentifier columns = true ->
  selectLines rows (renderExpr (rowExpr columns) ++ lit " FROM " ++ src)
  = Some (map (fun row => evalTerms row (rowTerms columns)) rows).
Proof.
  intros H. unfold selectLines.
  change (lit " FROM " ++ src) with (32 :: lit "FROM " ++ src).
  rewrite (lex_row columns _ H), lex_from.
  rewrite parse_row by exact I. reflexivity.
Qed.

Lemma exec_select rows f out columns src :
  forallb isIdentifier columns = true ->
  exec rows (Some f) out
    (lit "SELECT " ++ (renderExpr (rowExpr columns) ++ lit " FROM " ++ src)
     ++ [semicolon])
  = Continue (Some f)
      (out ++ map (pair f) (map (fun row => evalTerms row (rowTerms columns)) rows)).
Proof.
  intros H. unfold exec.
  set (Y := renderExpr (rowExpr columns) ++ lit " FROM " ++ src).
  change (forallb SqlValidator.sqlSpace (lit "SELECT " ++ Y ++ [semicolon])) with false.
  change (keyword (lit "SELECT " ++ Y ++ [semicolon])) with (lit "SELECT").
  change (argument (lit "SELECT " ++ Y ++ [semicolon])) with (Y ++ [semicolon]).
  rewrite removelast_last, app_assoc, endsWithChar_snoc, N.eqb_refl.
  subst Y. rewrite (selectLines_row rows columns src H). reflexivity.
Qed.

(** *** The generated text holds nothing that ends a line or a statement
    early *)

Lemma includes_identifier x c :
  SqlValidator.wordChar x = false -> isIdentifier c = true -> includes x c = false.
Proof.
  intros Hx Hc. destruct c as [|y c]; [discriminate|]. unfold isIdentifier in Hc.
  unfold includes. destruct (existsb (N.eqb x) (y :: c)) eqn:E; [|reflexivity].
  apply existsb_exists in E as [z [Hz Ez]]. apply N.eqb_eq in Ez. subst z.
  rewrite forallb_forall in Hc. rewrite (Hc x Hz) in Hx. discriminate.
Qed.

Lemma includes_headerLine columns :
  forallb isIdentifier columns = true -> includes 10 (headerLine columns) = false.
Proof.
  unfold headerLine, quoted. induction columns as [|c r IH]; [reflexivity|].
  intros H. cbn [forallb] in H. apply andb_true_iff in H as [Hc Hr].
  assert (E : includes 10 ([dquote] ++ c ++ [dquote]) = false).
  { rewrite !includes_app, (includes_identifier 10 c eq_refl Hc). reflexivity. }
  destruct r as [|d r]; [exact E|].
  change (join [comma] (map (fun s => [dquote] ++ s ++ [dquote]) (c :: d :: r)))
    with (([dquote] ++ c ++ [dquote]) ++ [comma]
          ++ join [comma] (map (fun s => [dquote] ++ s ++ [dquote]) (d :: r))).
  rewrite includes_app, E, includes_app. exact (IH Hr).
Qed.

Lemma includes_rowExpr columns :
  forallb isIdentifier columns = true ->
  includes semicolon (renderExpr (rowExpr columns)) = false.
Proof.
  induction columns as [|c r IH]; [reflexivity|].
  intros H. cbn [forallb] in H. apply andb_true_iff in H as [Hc Hr].
  assert (E : includes semicolon (renderExpr (fieldExpr c)) = false).
  { rewrite <- (app_nil_r (renderExpr (fieldExpr c))), render_field.
    rewrite !includes_app, (includes_identifier semicolon c eq_refl Hc). reflexivity. }
  destruct r as [|d r]; [exact E|].
  change (rowExpr (c :: d :: r))
    with (Concat (fieldExpr c) (Concat (Lit [comma]) (rowExpr (d :: r)))).
  cbn [renderExpr]. rewrite !includes_app, E, (IH Hr). reflexivity.
Qed.

(** *** The script run as a whole *)

Lemma runScript_generate columns src path name rows :
  forallb isIdentifier columns = true ->
  includes 10 (path ++ name) = false ->
  includes semicolon src = false ->
  runScript rows (generate columns src path name)
  = Some (map (pair (path ++ name ++ lit ".csv"))
            (join [comma] (map (fun c => [dquote] ++ c ++ [dquote]) columns)
             :: map (fun row =>
                       join [comma]
                         (map (fun c => [dquote] ++ doubleQuotes (row c) ++ [dquote])
                            columns))
                  rows)).
Proof.
  intros Hc Hp Hs. unfold runScript, generate, script.
  cbn [flat_map renderStatement].
  rewrite (sqlplus_line rows None [] (lit "SET " ++ lit "PAGESIZE 0") _ None [])
    by reflexivity.
  rewrite (sqlplus_line rows None [] (lit "SET " ++ lit "FEEDBACK OFF") _ None [])
    by reflexivity.
  rewrite (sqlplus_line rows None [] (lit "SET " ++ lit "HEADING OFF") _ None [])
    by reflexivity.
  rewrite (sqlplus_line rows None [] (lit "SET " ++ lit "TERMOUT OFF") _ None [])
    by reflexivity.
  set (f := path ++ name ++ lit ".csv").
  assert (Hf : f = (path ++ name) ++ lit ".csv") by (unfold f; now rewrite app_assoc).
  rewrite (sqlplus_line rows None [] (lit "SPOOL " ++ f) _ (Some f) []);
    [ | rewrite Hf, includes_app, includes_app, Hp; reflexivity
      | reflexivity
      | rewrite Hf; apply exec_spool ].
  rewrite (sqlplus_line rows (Some f) [] (lit "PROMPT " ++ headerLine columns) _
             (Some f) ([] ++ [(f, headerLine columns)]));
    [ | rewrite includes_app, (includes_headerLine columns Hc); reflexivity
      | reflexivity
      | apply exec_prompt ].
  set (X := renderExpr (rowExpr columns) ++ lit " FROM " ++ src).
  assert (HX : includes semicolon X = false).
  { unfold X. rewrite !includes_app, (includes_rowExpr columns Hc), Hs. reflexivity. }
  replace (lit "SELECT " ++ renderExpr (rowExpr columns) ++ lit " FROM " ++ src ++ lit ";")
    with (lit "SELECT " ++ X ++ lit ";")
    by (unfold X; now rewrite <- !app_assoc).
  rewrite (sqlplus_select rows (Some f) _ X _ (Some f) _ HX
             (exec_select rows f _ columns src Hc)).
  rewrite (sqlplus_line rows (Some f) _ (lit "SPOOL OFF") _ None _
             eq_refl eq_refl eq_refl).
  rewrite sqlplus_exit. cbn [app].
  assert (E : map (fun row => evalTerms row (rowTerms columns)) rows
              = map (fun row =>
                       join [comma]
                         (map (fun c => [dquote] ++ doubleQuotes (row c) ++ [dquote])
                            columns))
                  rows)
    by (apply map_ext; intros row; apply evalTerms_row).
  rewrite E. reflexivity.
Qed.

(** C3: the generated script, run by the SQL client on any rows of the
    source, writes to the spool file the header of quoted column names
    joined by commas and then, for each row and in the order of the columns,
    each value with its double quotes doubled and the whole in double
    quotes, the fields joined by commas; this for every sequence of column
    names that are identifiers, a path and report name without a line break
    and a source without a separator.  On the scenario of section 8 the
    header is the quoted id and name with a comma between, and the name of
    the second row is Lu, two double quotes, is, in double quotes. *)
Theorem spool_fields_quoted_and_joined :
  (forall columns sourceDescriptor exportPath reportName rows,
      forallb isIdentifier columns = true ->
      includes 10 (exportPath ++ reportName) = false ->
      includes semicolon sourceDescriptor = false ->
      runScript rows (generate columns sourceDescriptor exportPath reportName)
      = Some (map (pair (exportPath ++ reportName ++ lit ".csv"))
                (join [comma] (map (fun c => [dquote] ++ c ++ [dquote]) columns)
                 :: map (fun row =>
                           join [comma]
                             (map (fun c => [dquote] ++ doubleQuotes (row c) ++ [dquote])
                                columns))
                      rows)))
  /\ runScript
       [rowOf [(lit "id", lit "1"); (lit "name", lit "Ana")];
        rowOf [(lit "id", lit "2"); (lit "name", luis)]]
       (generate [lit "id"; lit "name"] (lit "personas") (lit "D:\Reports\") (lit "r"))
     = Some
         [ (lit "D:\Reports\r.csv",
            [dquote] ++ lit "id" ++ [dquote; comma; dquote] ++ lit "name" ++ [dquote]);
           (lit "D:\Reports\r.csv",
            [dquote] ++ lit "1" ++ [dquote; comma; dquote] ++ lit "Ana" ++ [dquote]);
           (lit "D:\Reports\r.csv",
            [dquote] ++ lit "2" ++ [dquote; comma; dquote] ++ lit "Lu"
              ++ [dquote; dquote] ++ lit "is" ++ [dquote]) ]
  /\ renderExpr (rowExpr [lit "id"; lit "name"])
     = [squote; dquote; squote] ++ lit " || REPLACE(id, " ++ [squote; dquote; squote]
       ++ lit ", " ++ [squote; dquote; dquote; squote] ++ lit ") || "
       ++ [squote; dquote; squote] ++ lit " || " ++ [squote; comma; squote]
       ++ lit " || " ++ [squote; dquote; squote] ++ lit " || REPLACE(name, "
       ++ [squote; dquote; squote] ++ lit ", " ++ [squote; dquote; dquote; squote]
       ++ lit ") || " ++ [squote; dquote; squote].
Proof.
  split; [exact runScript_generate|]. split; [vm_compute; reflexivity|].
  reflexivity.
Qed.

(** An instance of C3: two columns, a source table, and rows that hold a
    comma and a double quote. *)
Lemma spool_script_two_columns :
  runScript
    [rowOf [(lit "id", lit "7"); (lit "name", lit "a,b")];
     rowOf [(lit "id", lit "8"); (lit "name", luis)]]
    (generate [lit "id"; lit "name"] (lit "personas") (lit "D:\Reports\")
       (lit "ventas"))
  = Some (map (pair (lit "D:\Reports\" ++ lit "ventas" ++ lit ".csv"))
            (join [comma]
               (map (fun c => [dquote] ++ c ++ [dquote]) [lit "id"; lit "name"])
             :: map (fun row =>
                       join [comma]
                         (map (fun c => [dquote] ++ doubleQuotes (row c) ++ [dquote])
                            [lit "id"; lit "name"]))
                  [rowOf [(lit "id", lit "7"); (lit "name", lit "a,b")];
                   rowOf [(lit "id", lit "8"); (lit "name", luis)]])).
Proof.
  apply (proj1 spool_fields_quoted_and_joined); reflexivity.
Defined.
(** * Further properties of app/static/app.js *)

(** ** The accordion *)

Lemma isOpenPanel_set p b : isOpenPanel (setPanelOpen p b) = b.
Proof. now destruct b. Qed.

Lemma hasButton_set p b : hasButton (setPanelOpen p b) = hasButton p.
Proof. unfold hasButton, setPanelOpen. cbn. now destruct (panelButton p). Qed.

Lemma buttonSynced_set p b : buttonSynced (setPanelOpen p b).
Proof.
  unfold buttonSynced, setPanelOpen. cbn. intros attr.
  destruct (panelButton p); [now intros [= <-] | discriminate].
Qed.

Lemma closeOthers_nth panels : forall i b j,
  nth_error (closeOthers i b panels) j
  = option_map (fun p => setPanelOpen p (Nat.eqb j i && b)) (nth_error panels j).
Proof.
  induction panels as [|p rest IH]; intros i b j.
  - now destruct j.
  - destruct i as [|i], j as [|j]; cbn [closeOthers nth_error option_map Nat.eqb andb].
    + reflexivity.
    + now rewrite nth_error_map.
    + reflexivity.
    + apply IH.
Qed.

Lemma closed_none_open (rest : list Panel) :
  filter isOpenPanel (map (fun q => setPanelOpen q false) rest) = [].
Proof.
  induction rest as [|q rest IH]; [reflexivity|].
  cbn [map filter]. now rewrite isOpenPanel_set.
Qed.

Lemma closeOthers_openCount panels : forall i b,
  (openCount (closeOthers i b panels) <= 1)%nat.
Proof.
  unfold openCount. induction panels as [|p rest IH]; intros i b; [cbn; lia|].
  destruct i as [|i]; cbn [closeOthers filter]; rewrite isOpenPanel_set.
  - rewrite closed_none_open. destruct b; cbn; lia.
  - apply IH.
Qed.

Lemma closeOthers_synced panels : forall i b,
  Forall buttonSynced (closeOthers i b panels).
Proof.
  induction panels as [|p rest IH]; intros i b; [constructor|].
  destruct i as [|i]; cbn [closeOthers]; constructor;
    auto using buttonSynced_set.
  apply Forall_forall. intros q Hq. apply in_map_iff in Hq as [q0 [<- _]].
  apply buttonSynced_set.
Qed.

Lemma closeOthers_length panels : forall i b,
  length (closeOthers i b panels) = length panels.
Proof.
  induction panels as [|p rest IH]; intros i b; [reflexivity|].
  destruct i; cbn [closeOthers length]; [now rewrite length_map | now rewrite IH].
Qed.

Lemma clickable_click panels i j :
  clickable (onAccordionClick panels i) j = clickable panels j.
Proof.
  unfold onAccordionClick.
  destruct (nth_error panels i) as [p|]; [|reflexivity].
  destruct (hasButton p); [|reflexivity].
  unfold clickable. rewrite closeOthers_nth.
  destruct (nth_error panels j); cbn [option_map]; [apply hasButton_set | reflexivity].
Qed.

Lemma click_keeps panels i :
  (openCount panels <= 1)%nat /\ Forall buttonSynced panels ->
  (openCount (onAccordionClick panels i) <= 1)%nat
  /\ Forall buttonSynced (onAccordionClick panels i).
Proof.
  intros H. unfold onAccordionClick.
  destruct (nth_error panels i) as [p|]; [|exact H].
  destruct (hasButton p); [|exact H].
  split; [apply closeOthers_openCount | apply closeOthers_synced].
Qed.

Lemma clicks_keep clicks : forall panels,
  (openCount panels <= 1)%nat /\ Forall buttonSynced panels ->
  (openCount (fold_left onAccordionClick clicks panels) <= 1)%nat
  /\ Forall buttonSynced (fold_left onAccordionClick clicks panels).
Proof.
  induction clicks as [|c clicks IH]; intros panels H; [exact H|].
  cbn [fold_left]. apply IH, click_keeps, H.
Qed.

Lemma clicks_length clicks : forall panels,
  length (fold_left onAccordionClick clicks panels) = length panels.
Proof.
  induction clicks as [|c clicks IH]; intros panels; [reflexivity|].
  cbn [fold_left]. rewrite IH. unfold onAccordionClick.
  destruct (nth_error panels c) as [p|]; [|reflexivity].
  destruct (hasButton p); [apply closeOthers_length | reflexivity].
Qed.

Lemma click_sets panels i :
  clickable panels i = true ->
  (openCount (onAccordionClick panels i) <= 1)%nat
  /\ Forall buttonSynced (onAccordionClick panels i).
Proof.
  unfold clickable, onAccordionClick.
  destruct (nth_error panels i) as [p|]; [|discriminate].
  intros ->. split; [apply closeOthers_openCount | apply closeOthers_synced].
Qed.

Lemma click_idle panels i :
  clickable panels i = false -> onAccordionClick panels i = panels.
Proof.
  unfold clickable, onAccordionClick.
  destruct (nth_error panels i) as [p|]; [|reflexivity]. now intros ->.
Qed.

Lemma clicks_establish clicks : forall panels,
  existsb (clickable panels) clicks = true ->
  (openCount (fold_left onAccordionClick clicks panels) <= 1)%nat
  /\ Forall buttonSynced (fold_left onAccordionClick clicks panels).
Proof.
  induction clicks as [|c clicks IH]; intros panels H; [discriminate H|].
  cbn [fold_left]. cbn [existsb] in H.
  destruct (clickable panels c) eqn:E.
  - apply clicks_keep, click_sets, E.
  - rewrite (click_idle _ _ E). apply IH. exact H.
Qed.

(** X1: whatever the markup, once a button of the accordion has been
    clicked at most one panel is open, every button's aria-expanded equals
    its panel's data-open, and no panel was added or removed. *)
Theorem accordion_at_most_one_open (panels : list Panel) (clicks : list nat) :
  existsb (clickable panels) clicks = true ->
  let final := fold_left onAccordionClick clicks panels in
  (openCount final <= 1)%nat
  /\ Forall buttonSynced final
  /\ length final = length panels.
Proof.
  intros H final. destruct (clicks_establish clicks panels H) as [H1 H2].
  split; [exact H1|]. split; [exact H2 | apply clicks_length].
Qed.

(** An instance of X1: two panels both marked open in the markup, the
    second one clicked. *)
Lemma accordion_two_open_panels :
  let panels :=
    [ {| panelOpen := Some (lit "true"); panelButton := Some None |};
      {| panelOpen := Some (lit "true"); panelButton := Some None |} ] in
  openCount (initAccordion panels) = 2%nat
  /\ (openCount (fold_left onAccordionClick [1%nat] (initAccordion panels)) <= 1)%nat.
Proof.
  cbv zeta. split; [reflexivity|].
  apply (accordion_at_most_one_open _ [1%nat]). reflexivity.
Defined.

(** X2: a click on the button of panel i closes every other panel and
    toggles panel i: afterwards panel j is open exactly when j is i and
    panel i was not open before. *)
Theorem accordion_click_toggles (panels : list Panel) (i : nat) (p : Panel) :
  nth_error panels i = Some p -> hasButton p = true ->
  forall j q,
    nth_error (onAccordionClick panels i) j = Some q ->
    isOpenPanel q = Nat.eqb j i && negb (isOpenPanel p).
Proof.
  intros Hn Hb j q. unfold onAccordionClick. rewrite Hn, Hb, closeOthers_nth.
  destruct (nth_error panels j) as [p0|]; [|discriminate].
  cbn [option_map]. intros [= <-]. apply isOpenPanel_set.
Qed.

(** An instance of X2: the open first panel of three is clicked. *)
Lemma accordion_click_open_panel :
  let panels :=
    [ {| panelOpen := Some (lit "true"); panelButton := Some None |};
      {| panelOpen := None; panelButton := Some None |};
      {| panelOpen := Some (lit "true"); panelButton := None |} ] in
  map isOpenPanel (onAccordionClick panels 0) = [false; false; false]
  /\ forall j q,
       nth_error (onAccordionClick panels 0) j = Some q ->
       isOpenPanel q = Nat.eqb j 0 && negb true.
Proof.
  cbv zeta. split; [reflexivity|].
  exact (accordion_click_toggles
           [ {| panelOpen := Some (lit "true"); panelButton := Some None |};
             {| panelOpen := None; panelButton := Some None |};
             {| panelOpen := Some (lit "true"); panelButton := None |} ]
           0
           {| panelOpen := Some (lit "true"); panelButton := Some None |}
           eq_refl eq_refl).
Defined.

(** ** The theme toggle *)

Lemma themeAttr_click st :
  toggleButton st <> None ->
  exists now,
    onThemeClick st
    = {| themeAttr := Some now; storedTheme := Some now;
         toggleButton := Some (buttonFor now) |}
    /\ now = match themeAttr st with
             | Some t => if isLightTheme t then lit "dark" else lit "light"
             | None => lit "light"
             end.
Proof.
  intros Hb. unfold onThemeClick.
  destruct (toggleButton st) as [b|] eqn:E; [|congruence].
  eexists. split; [|reflexivity].
  unfold applyTheme. cbn. reflexivity.
Qed.

Lemma clicks_keep_button n : forall st,
  toggleButton st <> None ->
  toggleButton (Nat.iter n onThemeClick st) <> None.
Proof.
  induction n as [|n IH]; intros st Hb; [exact Hb|].
  change (Nat.iter (S n) onThemeClick st)
    with (onThemeClick (Nat.iter n onThemeClick st)).
  destruct (themeAttr_click _ (IH st Hb)) as [now [-> _]].
  discriminate.
Qed.

(** X3: after n clicks on the theme button, n at least 1, the theme is light
    when the theme found at load time was light and n is even or it was
    anything else and n is odd, and dark otherwise; the stored ui_theme is
    the theme shown, and the button's text and aria-pressed fit it. *)
Theorem theme_after_clicks (st : ThemeState) (n : nat) :
  toggleButton st <> None -> (1 <= n)%nat ->
  let theme :=
    if xorb (isLightTheme (currentTheme st)) (Nat.odd n)
    then lit "light" else lit "dark" in
  Nat.iter n onThemeClick (initThemeToggle st)
  = {| themeAttr := Some theme; storedTheme := Some theme;
       toggleButton := Some (buttonFor theme) |}.
Proof.
  intros Hb Hn. cbv zeta.
  assert (Hb0 : toggleButton (initThemeToggle st) <> None).
  { unfold initThemeToggle, applyTheme. cbn.
    destruct (toggleButton st); [discriminate | congruence]. }
  induction n as [|n IH]; [lia|].
  change (Nat.iter (S n) onThemeClick (initThemeToggle st))
    with (onThemeClick (Nat.iter n onThemeClick (initThemeToggle st))).
  destruct (themeAttr_click _ (clicks_keep_button n _ Hb0)) as [now [-> Hnow]].
  assert (E : now = if xorb (isLightTheme (currentTheme st)) (Nat.odd (S n))
                    then lit "light" else lit "dark").
  { rewrite Hnow. rewrite Nat.odd_succ, <- Nat.negb_odd.
    destruct n as [|n].
    - cbn. destruct (isLightTheme (currentTheme st)); reflexivity.
    - rewrite IH by lia. cbn [themeAttr].
      destruct (isLightTheme (currentTheme st)), (Nat.odd (S n)); reflexivity. }
  now rewrite E.
Qed.

(** An instance of X3: a page marked with a theme the script does not
    know, one click. *)
Lemma theme_unknown_then_click :
  Nat.iter 1 onThemeClick
    (initThemeToggle
       {| themeAttr := Some (lit "sepia"); storedTheme := None;
          toggleButton := Some {| buttonText := []; ariaPressed := None |} |})
  = {| themeAttr := Some (lit "light"); storedTheme := Some (lit "light");
       toggleButton := Some (buttonFor (lit "light")) |}.
Proof.
  apply (theme_after_clicks
           {| themeAttr := Some (lit "sepia"); storedTheme := None;
              toggleButton := Some {| buttonText := []; ariaPressed := None |} |}
           1); [discriminate | lia].
Defined.

(** ** ensureTrailingSeparator on blank values *)

(** X4: ensureTrailingSeparator gives the same result for a value and for
    the value trimmed first, unless the value is white space only: then the
    result is a lone backslash, while the trimmed, empty value stays
    empty. *)
Theorem ensureTrailingSeparator_of_trimmed (value : Text.t) :
  ensureTrailingSeparator value
  = match value with
    | [] => []
    | _ :: _ =>
        match trim js_space value with
        | [] => [backslash]
        | _ :: _ => ensureTrailingSeparator (trim js_space value)
        end
    end.
Proof.
  destruct value as [|c r]; [reflexivity|].
  rewrite ensureTrailingSeparator_unfold. cbv zeta.
  destruct (trim js_space (c :: r)) as [|d t] eqn:E; [reflexivity|].
  rewrite ensureTrailingSeparator_unfold. cbv zeta.
  now rewrite <- E, trim_idem.
Qed.

(** ** escapeHtml read back *)

Lemma htmlSpecial_cases c :
  htmlSpecial c = true ->
  c = amp \/ c = lt \/ c = gt \/ c = dquote \/ c = squote.
Proof.
  unfold htmlSpecial. intros H.
  repeat (apply orb_true_iff in H as [H|H]);
    apply N.eqb_eq in H; auto 6.
Qed.

Lemma entityAt_plain c s : c <> amp -> entityAt (c :: s) = None.
Proof.
  intros Hc. unfold entityAt.
  change (lit "&amp;") with (amp :: lit "amp;").
  change (lit "&lt;") with (amp :: lit "lt;").
  change (lit "&gt;") with (amp :: lit "gt;").
  change (lit "&quot;") with (amp :: lit "quot;").
  change (lit "&#039;") with (amp :: lit "#039;").
  cbn [startsWith]. apply N.eqb_neq in Hc. now rewrite Hc.
Qed.

Lemma unescape_escape s : unescapeFrom 0 (escapeHtml s) = s.
Proof.
  induction s as [|c s IH]; [reflexivity|].
  rewrite escapeHtml_cons. destruct (htmlSpecial c) eqn:E.
  - destruct (htmlSpecial_cases c E) as [-> | [-> | [-> | [-> | ->]]]];
      cbn; now rewrite IH.
  - apply htmlSpecial_false in E as [Hc _].
    cbn [app unescapeFrom]. rewrite (entityAt_plain c _ Hc). now rewrite IH.
Qed.

(** X5: escapeHtml loses nothing: two texts with the same escaped form are
    the same text, and reading the five entities back gives the text. *)
Theorem escapeHtml_injective (a b : Text.t) :
  (escapeHtml a = escapeHtml b -> a = b)
  /\ unescapeFrom 0 (escapeHtml a) = a.
Proof.
  split; [|apply unescape_escape].
  intros H. rewrite <- (unescape_escape a), <- (unescape_escape b). now rewrite H.
Qed.

Lemma escapeHtml_length s : (length s <= length (escapeHtml s))%nat.
Proof.
  induction s as [|c s IH]; [reflexivity|].
  rewrite escapeHtml_cons, length_app. destruct (htmlSpecial c) eqn:E.
  - destruct (htmlSpecial_cases c E) as [-> | [-> | [-> | [-> | ->]]]];
      cbn; lia.
  - cbn. lia.
Qed.

(** X6: escapeHtml returns a text unchanged exactly when the text holds none
    of the five characters it replaces. *)
Theorem escapeHtml_unchanged_iff (s : Text.t) :
  escapeHtml s = s <-> existsb htmlSpecial s = false.
Proof.
  induction s as [|c s IH]; [now split|].
  rewrite escapeHtml_cons. cbn [existsb]. destruct (htmlSpecial c) eqn:E.
  - split; [|discriminate]. intros H. exfalso.
    apply (f_equal (@length N)) in H. rewrite length_app in H.
    pose proof (escapeHtml_length s) as Hl. cbn [length] in H.
    destruct (htmlSpecial_cases c E) as [-> | [-> | [-> | [-> | ->]]]];
      cbn in H; lia.
  - cbn [app orb]. rewrite <- IH. split; [now intros [= H] | now intros ->].
Qed.

(** ** The file name of a download *)

Lemma getFilenameFromDisposition_some d :
  getFilenameFromDisposition (Some d)
  = match regexExec d with
    | None => ReturnsNull
    | Some m =>
        match decodeURIComponent (trim js_space (removeQuotes m)) with
        | Some s => ReturnsString s
        | None => ThrowsURIError
        end
    end.
Proof. now destruct d. Qed.

Lemma regexExec_skip c s : ci_eqb 102 c = false -> regexExec (c :: s) = regexExec s.
Proof.
  intros H. cbn [regexExec]. unfold matchAt.
  change (lit "filename") with (102 :: lit "ilename").
  cbn [stripPrefixCi]. now rewrite H.
Qed.

Lemma regexExec_skip_all pre s :
  forallb (fun c => negb (ci_eqb 102 c)) pre = true ->
  regexExec (pre ++ s) = regexExec s.
Proof.
  induction pre as [|c pre IH]; [reflexivity|].
  cbn [forallb app]. intros H. apply andb_true_iff in H as [Hc Hp].
  apply negb_true_iff in Hc. rewrite (regexExec_skip _ _ Hc). now apply IH.
Qed.

Lemma regexExec_here s m : matchAt s = Some m -> regexExec s = Some m.
Proof. intros H. destruct s; cbn [regexExec]; now rewrite H. Qed.

Lemma stripPrefixCi_same pat : forall p r,
  map upperAscii pat = map upperAscii p -> stripPrefixCi pat (p ++ r) = Some r.
Proof.
  induction pat as [|x pat IH]; intros [|y p] r H; try discriminate H; [reflexivity|].
  cbn [map] in H. injection H as Hx Hp.
  cbn [app stripPrefixCi]. unfold ci_eqb. rewrite Hx, N.eqb_refl. now apply IH.
Qed.

Lemma takeWhile_value n rest :
  forallb valueChar n = true -> takeWhile valueChar (n ++ dquote :: rest) = n.
Proof.
  induction n as [|c n IH]; [reflexivity|].
  cbn [forallb app takeWhile]. intros H. apply andb_true_iff in H as [-> Hn].
  now rewrite IH.
Qed.

(** The capture of a quoted file name parameter that is the first one. *)
Lemma regexExec_quoted pre pname n rest :
  forallb (fun c => negb (ci_eqb 102 c)) pre = true ->
  map upperAscii pname = lit "FILENAME" ->
  n <> [] -> forallb valueChar n = true ->
  regexExec (pre ++ pname ++ [equals; dquote] ++ n ++ [dquote] ++ rest) = Some n.
Proof.
  intros Hpre Hname Hne Hn.
  rewrite (regexExec_skip_all _ _ Hpre). apply regexExec_here.
  unfold matchAt. rewrite stripPrefixCi_same by (rewrite Hname; reflexivity).
  cbn [andThen app]. unfold matchAfterName.
  cbn [stripChar N.eqb equals star Pos.eqb andThen orElse].
  unfold matchAfterEquals.
  change (lit "UTF-8''") with (85 :: lit "TF-8''").
  cbn [stripPrefixCi ci_eqb]. cbn [stripChar N.eqb dquote Pos.eqb andThen orElse].
  change (ci_eqb 85 dquote) with false. cbv iota. cbn [andThen orElse].
  unfold matchValue. rewrite (takeWhile_value _ _ Hn).
  destruct n; [congruence | reflexivity].
Qed.

(** X7: when the first file name parameter of the header is quoted, its name
    is written in any case, and its value holds no percent sign and no outer
    white space, getFilenameFromDisposition returns that value, whatever
    follows it. *)
Theorem getFilenameFromDisposition_quoted_name (pre pname n rest : Text.t) :
  forallb (fun c => negb (ci_eqb 102 c)) pre = true ->
  map upperAscii pname = lit "FILENAME" ->
  n <> [] -> forallb valueChar n = true ->
  trim js_space n = n -> includes percent n = false ->
  getFilenameFromDisposition
    (Some (pre ++ pname ++ [equals; dquote] ++ n ++ [dquote] ++ rest))
  = ReturnsString n.
Proof.
  intros Hpre Hname Hne Hn Ht Hp.
  rewrite getFilenameFromDisposition_some.
  rewrite (regexExec_quoted pre pname n rest Hpre Hname Hne Hn).
  rewrite (removeQuotes_capture n Hn), Ht.
  unfold decodeURIComponent. now rewrite (decodeFrom_no_percent n Hp).
Qed.

(** An instance of X7: the quoted name wins over the encoded one that
    follows it. *)
Lemma getFilenameFromDisposition_first_parameter :
  getFilenameFromDisposition
    (Some (lit "attachment; " ++ lit "FileName" ++ [equals; dquote]
           ++ lit "carga.zip" ++ [dquote] ++ lit "; filename*=UTF-8''otro.zip"))
  = ReturnsString (lit "carga.zip").
Proof.
  apply (getFilenameFromDisposition_quoted_name
           (lit "attachment; ") (lit "FileName") (lit "carga.zip")
           (lit "; filename*=UTF-8''otro.zip")); try reflexivity.
  discriminate.
Defined.

Lemma decodeFrom_bad_escape a b :
  includes percent a = false -> escapeOctet (percent :: b) = None ->
  decodeFrom 0 (a ++ percent :: b) = None.
Proof.
  intros Ha Hb. induction a as [|c a IH].
  - cbn [app decodeFrom decodeAt]. rewrite N.eqb_refl. now rewrite Hb.
  - unfold includes in Ha. cbn [existsb] in Ha.
    apply orb_false_iff in Ha as [Hc Ha]. rewrite N.eqb_sym in Hc.
    cbn [app decodeFrom decodeAt]. rewrite Hc. cbn [andThen fst snd].
    now rewrite (IH Ha).
Qed.

(** X8: when no f or F precedes the first file name parameter of the
    header, its name is written in any case, and its quoted value holds no
    semicolon, has no outer white space and has a first percent sign that
    is not followed by two hexadecimal digits, getFilenameFromDisposition
    throws, so the good response ends in the catch of submitAsFetch and
    nothing is downloaded. *)
Theorem onOkResponse_malformed_escape (pre pname a b rest : Text.t) (bodyRead : bool) :
  forallb (fun c => negb (ci_eqb 102 c)) pre = true ->
  map upperAscii pname = lit "FILENAME" ->
  forallb valueChar (a ++ percent :: b) = true ->
  trim js_space (a ++ percent :: b) = a ++ percent :: b ->
  includes percent a = false -> escapeOctet (percent :: b) = None ->
  let header :=
    pre ++ pname ++ [equals; dquote] ++ (a ++ percent :: b) ++ [dquote] ++ rest in
  getFilenameFromDisposition (Some header) = ThrowsURIError
  /\ onOkResponse (Some header) bodyRead = UnexpectedError.
Proof.
  intros Hpre Hname Hn Ht Ha Hb header.
  assert (H : getFilenameFromDisposition (Some header) = ThrowsURIError).
  { subst header. rewrite getFilenameFromDisposition_some.
    rewrite (regexExec_quoted pre pname _ rest Hpre Hname) by
      (try exact Hn; now destruct a).
    rewrite (removeQuotes_capture _ Hn), Ht.
    unfold decodeURIComponent. now rewrite (decodeFrom_bad_escape a b Ha Hb). }
  split; [exact H|]. unfold onOkResponse. now rewrite H.
Qed.

(** An instance of X8: a file named with a plain percent sign. *)
Lemma onOkResponse_percent_in_name :
  getFilenameFromDisposition
    (Some (lit "attachment; " ++ lit "filename" ++ [equals; dquote]
           ++ (lit "ventas_100" ++ percent :: lit ".sql") ++ [dquote] ++ []))
  = ThrowsURIError
  /\ onOkResponse
       (Some (lit "attachment; " ++ lit "filename" ++ [equals; dquote]
              ++ (lit "ventas_100" ++ percent :: lit ".sql") ++ [dquote] ++ []))
       true
     = UnexpectedError.
Proof.
  apply (onOkResponse_malformed_escape
           (lit "attachment; ") (lit "filename") (lit "ventas_100") (lit ".sql")
           [] true); reflexivity.
Defined.

(** X9: whenever a good response is downloaded, the download attribute is
    not empty: it is the file name of the header, or archivo_generado when
    the header gives none or a blank one. *)
Theorem onOkResponse_download_name (disposition : option Text.t) (bodyRead : bool)
    (download : Text.t) :
  onOkResponse disposition bodyRead = Downloaded download ->
  download <> []
  /\ (getFilenameFromDisposition disposition = ReturnsString download
      \/ (download = lit "archivo_generado"
          /\ (getFilenameFromDisposition disposition = ReturnsNull
              \/ getFilenameFromDisposition disposition = ReturnsString []))).
Proof.
  unfold onOkResponse.
  destruct (getFilenameFromDisposition disposition) as [|s|]; [| |discriminate];
    destruct bodyRead; try discriminate; intros [= <-].
  - split; [discriminate|]. right. split; [reflexivity | now left].
  - destruct s as [|c s]; cbn.
    + split; [discriminate|]. right. split; [reflexivity | now right].
    + split; [discriminate | now left].
Qed.

(** An instance of X9: a header whose file name is blank. *)
Lemma onOkResponse_blank_name :
  onOkResponse (Some (lit "attachment; filename= ")) true
  = Downloaded (lit "archivo_generado")
  /\ lit "archivo_generado" <> [].
Proof.
  split; [reflexivity|].
  apply (onOkResponse_download_name (Some (lit "attachment; filename= ")) true).
  reflexivity.
Defined.

(** ** The folder picker: what the Select button writes *)

Lemma ensureTrailingSeparator_normal c r :
  let p := ensureTrailingSeparator (c :: r) in
  p <> [] /\ ensureTrailingSeparator p = p
  /\ endsWithChar backslash p || endsWithChar slash p = true.
Proof.
  cbv zeta. rewrite ensureTrailingSeparator_unfold. cbv zeta.
  set (v := trim js_space (c :: r)).
  assert (Hv : trim js_space v = v) by apply trim_idem.
  destruct (endsWithChar backslash v || endsWithChar slash v) eqn:E.
  - split; [|split; [now apply ensureTrailingSeparator_fixed | exact E]].
    intros ->. discriminate E.
  - assert (Hend : endsWithChar backslash (v ++ [chosen_separator v])
                   || endsWithChar slash (v ++ [chosen_separator v]) = true).
    { rewrite !endsWithChar_snoc.
      destruct (chosen_separator_cases v) as [-> | ->]; reflexivity. }
    split; [now destruct v|]. split; [|exact Hend].
    apply ensureTrailingSeparator_fixed; [|exact Hend].
    apply trim_snoc; [exact Hv | apply chosen_separator_not_space].
Qed.

Lemma handle_export m e :
  exportInput (handle m e) = exportInput m
  \/ (exportInput (handle m e) <> []
      /\ ensureTrailingSeparator (exportInput (handle m e)) = exportInput (handle m e)
      /\ endsWithChar backslash (exportInput (handle m e))
         || endsWithChar slash (exportInput (handle m e)) = true).
Proof.
  destruct e; cbn [handle]; try (now left).
  - destruct initial0; now left.
  - destruct (trim js_space (currentInput m)); now left.
  - destruct (upParent m); now left.
  - unfold selectRow. destruct target as [i|]; [|now left].
    destruct (nth_error (listBox m) i) as [row|]; [|now left].
    destruct (isDenied row); now left.
  - unfold onDblClick. destruct target as [i|]; [|now left].
    destruct (nth_error (listBox m) i) as [row|]; [|now left].
    destruct (isDenied row); [now left|].
    destruct (dataPath row) as [[|c p]|]; now left.
  - unfold onSelectClick.
    destruct (trim js_space (currentInput m)) as [|c r] eqn:T; [now left|].
    pose proof (ensureTrailingSeparator_normal c r) as H. cbv zeta in H.
    destruct (ensureTrailingSeparator (c :: r)) as [|d p] eqn:E; [now left|].
    right. cbn [closeModal setSelected setHidden exportInput]. exact H.
Qed.

(** X10: over any sequence of events the modal leaves the export path input
    as it found it or holds there a path that is not empty, ends with a
    separator and is a fixed point of ensureTrailingSeparator. *)
Theorem modal_writes_normalized_path (m : Modal) (events : list Event) :
  exportInput (run m events) = exportInput m
  \/ (exportInput (run m events) <> []
      /\ ensureTrailingSeparator (exportInput (run m events))
         = exportInput (run m events)
      /\ endsWithChar backslash (exportInput (run m events))
         || endsWithChar slash (exportInput (run m events)) = true).
Proof.
  revert m. induction events as [|e events IH]; intros m; [now left|].
  change (run m (e :: events)) with (run (handle m e) events).
  destruct (IH (handle m e)) as [H|H]; [|now right].
  rewrite H. apply handle_export.
Qed.

(** ** The folder picker: the row selection decides nothing *)

Lemma markSelected_twice b row :
  markSelected false (markSelected b row) = markSelected false row.
Proof. reflexivity. Qed.

Lemma selectOnly_unmarked rows : forall i,
  map (markSelected false) (selectOnly i rows) = map (markSelected false) rows.
Proof.
  induction rows as [|r rows IH]; intros i; [reflexivity|].
  destruct i as [|i]; cbn [selectOnly map]; rewrite markSelected_twice; f_equal.
  - rewrite map_map. apply map_ext. intros x. apply markSelected_twice.
  - apply IH.
Qed.

Lemma unmarked_nth (la : list Row) : forall lb i,
  map (markSelected false) la = map (markSelected false) lb ->
  match nth_error la i, nth_error lb i with
  | Some ra, Some rb => markSelected false ra = markSelected false rb
  | None, None => True
  | _, _ => False
  end.
Proof.
  induction la as [|a la IH]; intros [|b lb] i H; try discriminate H.
  - now destruct i.
  - cbn [map] in H.
    assert (Hab : markSelected false a = markSelected false b) by congruence.
    assert (Ht : map (markSelected false) la = map (markSelected false) lb)
      by congruence.
    destruct i as [|i]; cbn [nth_error]; [exact Hab | now apply IH].
Qed.

Lemma SameButSelection_refl m : SameButSelection m m.
Proof. repeat split. Qed.

Lemma SameButSelection_rowClick a b target :
  SameButSelection a b -> SameButSelection (handle a (RowClick target)) b.
Proof.
  intros H. cbn [handle]. unfold selectRow.
  destruct target as [i|]; [|exact H].
  destruct (nth_error (listBox a) i) as [row|]; [|exact H].
  destruct (isDenied row); [exact H|].
  destruct H as (H1 & H2 & H3 & H4 & H5 & H6 & H7).
  repeat split; try assumption.
  cbn. now rewrite selectOnly_unmarked.
Qed.

Ltac same_fields :=
  repeat split; cbn; first [assumption | reflexivity | congruence].

Lemma SameButSelection_step a b e :
  isRowClick e = false ->
  SameButSelection a b -> SameButSelection (handle a e) (handle b e).
Proof.
  intros He (H1 & H2 & H3 & H4 & H5 & H6 & H7).
  destruct e; try discriminate He; cbn [handle].
  - same_fields.
  - same_fields.
  - destruct initial0; same_fields.
  - same_fields.
  - same_fields.
  - rewrite H3. destruct (trim js_space (currentInput b)); same_fields.
  - rewrite H4. destruct (upParent b) eqn:E; same_fields.
  - unfold onDblClick. destruct target as [i|]; [|same_fields].
    pose proof (unmarked_nth _ _ i H7) as Hn.
    destruct (nth_error (listBox a) i) as [ra|], (nth_error (listBox b) i) as [rb|];
      try contradiction; [|same_fields].
    assert (Hd : isDenied ra = isDenied rb)
      by (rewrite <- (isDenied_markSelected false ra), Hn; reflexivity).
    assert (Hp : dataPath ra = dataPath rb)
      by (change (dataPath (markSelected false ra) = dataPath (markSelected false rb));
          now rewrite Hn).
    rewrite Hd, Hp. destruct (isDenied rb); [same_fields|].
    destruct (dataPath rb) as [[|c p]|]; same_fields.
  - unfold onSelectClick. rewrite H3.
    destruct (ensureTrailingSeparator (trim js_space (currentInput b)));
      same_fields.
  - same_fields.
  - same_fields.
Qed.

Lemma SameButSelection_run events : forall a b,
  SameButSelection a b ->
  SameButSelection (run a events)
    (run b (filter (fun e => negb (isRowClick e)) events)).
Proof.
  induction events as [|e events IH]; intros a b H; [exact H|].
  change (run a (e :: events)) with (run (handle a e) events).
  cbn [filter]. destruct (isRowClick e) eqn:E; cbn [negb].
  - destruct e; try discriminate E. apply IH. now apply SameButSelection_rowClick.
  - change (run b (e :: filter (fun e0 => negb (isRowClick e0)) events))
      with (run (handle b e) (filter (fun e0 => negb (isRowClick e0)) events)).
    apply IH. now apply SameButSelection_step.
Qed.

(** X11: clicking rows decides nothing but the highlight: over any sequence
    of events, the export path, the current path and its input, the parent,
    the listings asked for and whether the modal shows are what they are
    for the same sequence without its row clicks, and so are the rows apart
    from their is-selected class. *)
Theorem modal_selection_is_not_read (m : Modal) (events : list Event) :
  SameButSelection (run m events)
    (run m (filter (fun e => negb (isRowClick e)) events)).
Proof. apply SameButSelection_run, SameButSelection_refl. Qed.

(** ** The preview table *)

Lemma occurrences_app c a b :
  occurrences c (a ++ b) = (occurrences c a + occurrences c b)%nat.
Proof. unfold occurrences. now rewrite filter_app, length_app. Qed.

Lemma occurrences_markup c s :
  c = lt \/ c = gt ->
  forallb (fun x => negb (markup_char x)) s = true -> occurrences c s = O.
Proof.
  intros Hc H. unfold occurrences. induction s as [|x s IH]; [reflexivity|].
  cbn [forallb] in H. apply andb_true_iff in H as [Hx Hs].
  cbn [filter]. destruct (N.eqb_spec c x) as [<-|_]; [|now apply IH].
  destruct Hc as [-> | ->]; discriminate Hx.
Qed.

Lemma occurrences_escapeHtml c s :
  c = lt \/ c = gt -> occurrences c (escapeHtml s) = O.
Proof. intros Hc. apply occurrences_markup, escapeHtml_no_markup. exact Hc. Qed.

Lemma occurrences_concat c (A : Type) (f : A -> Text.t) k l :
  (forall x, occurrences c (f x) = k) ->
  occurrences c (concat (map f l)) = (length l * k)%nat.
Proof.
  intros Hf. induction l as [|x l IH]; [reflexivity|].
  cbn [map concat length]. rewrite occurrences_app, Hf, IH. lia.
Qed.

Lemma occurrences_uintText c d : c = lt \/ c = gt -> occurrences c (uintText d) = O.
Proof.
  intros Hc. unfold occurrences.
  induction d; cbn [uintText filter]; try reflexivity;
    destruct Hc as [-> | ->]; exact IHd.
Qed.

Lemma occurrences_headerCell c x :
  c = lt \/ c = gt -> occurrences c (headerCell x) = 2%nat.
Proof.
  intros Hc. unfold headerCell.
  rewrite !occurrences_app, (occurrences_escapeHtml c x Hc).
  destruct Hc as [-> | ->]; reflexivity.
Qed.

Lemma occurrences_bodyCell c v :
  c = lt \/ c = gt -> occurrences c (bodyCell v) = 2%nat.
Proof.
  intros Hc. unfold bodyCell.
  rewrite !occurrences_app, (occurrences_escapeHtml c _ Hc).
  destruct Hc as [-> | ->]; reflexivity.
Qed.

Lemma occurrences_bodyRow c ncols r :
  c = lt \/ c = gt -> occurrences c (bodyRow ncols r) = (2 + 2 * ncols)%nat.
Proof.
  intros Hc. unfold bodyRow.
  rewrite !occurrences_app.
  rewrite (occurrences_concat c nat (fun i => bodyCell (cellAt r i)) 2)
    by (intros i; now apply occurrences_bodyCell).
  rewrite length_seq. destruct Hc as [-> | ->]; cbn; lia.
Qed.

Lemma occurrences_noRowsRow c ncols :
  c = lt \/ c = gt -> occurrences c (noRowsRow ncols) = 4%nat.
Proof.
  intros Hc. unfold noRowsRow, lengthText.
  rewrite !occurrences_app, (occurrences_uintText c _ Hc).
  destruct Hc as [-> | ->]; reflexivity.
Qed.

Lemma occurrences_renderHead c cols :
  c = lt \/ c = gt -> occurrences c (renderHead cols) = (4 + 2 * length cols)%nat.
Proof.
  intros Hc. unfold renderHead.
  rewrite !occurrences_app.
  rewrite (occurrences_concat c Text.t headerCell 2)
    by (intros x; now apply occurrences_headerCell).
  destruct Hc as [-> | ->]; cbn; lia.
Qed.

Lemma body_rows_not_empty ncols r rows fallback :
  orDefault (concat (map (bodyRow ncols) (r :: rows))) fallback
  = concat (map (bodyRow ncols) (r :: rows)).
Proof. reflexivity. Qed.

(** X12: no column name and no cell value adds a tag to the preview table:
    the innerHTML renderPreviewTable writes holds exactly as many less-than
    signs, and as many greater-than signs, as the tags of its template for
    that many columns and rows. *)
Theorem renderPreviewTable_tags_of_template (cols : list Text.t)
    (rows : list PreviewRow) (c : N) :
  c = lt \/ c = gt ->
  occurrences c (renderPreviewTable cols rows)
  = templateTags (length cols) (length rows).
Proof.
  intros Hc. unfold renderPreviewTable.
  destruct cols as [|x cols]; [destruct Hc as [-> | ->]; reflexivity|].
  rewrite !occurrences_app, (occurrences_renderHead c _ Hc).
  destruct rows as [|r rows].
  - cbn [map concat orDefault]. rewrite (occurrences_noRowsRow c _ Hc).
    destruct Hc as [-> | ->]; cbn [templateTags length]; cbn; lia.
  - rewrite body_rows_not_empty.
    rewrite (occurrences_concat c PreviewRow (bodyRow (length (x :: cols)))
               (2 + 2 * length (x :: cols)))
      by (intros r0; now apply occurrences_bodyRow).
    destruct Hc as [-> | ->]; cbn [templateTags length]; cbn; lia.
Qed.

(** An instance of X12: a column name and a cell that look like tags. *)
Lemma renderPreviewTable_script_cell :
  occurrences lt
    (renderPreviewTable [lit "<b>id</b>"] [Some [Some (lit "<script>")]; None])
  = templateTags 1 2.
Proof.
  apply (renderPreviewTable_tags_of_template
           [lit "<b>id</b>"] [Some [Some (lit "<script>")]; None] lt).
  now left.
Defined.

(** ** The saved export path and report name *)

Lemma ensureTrailingSeparator_empty_iff v :
  ensureTrailingSeparator v = [] <-> v = [].
Proof.
  split; [|now intros ->]. destruct v as [|c r]; [reflexivity|].
  intros H. destruct (ensureTrailingSeparator_normal c r) as [Hne _].
  now apply Hne in H.
Qed.

(** X13: what the blur listeners save comes back after a reload: with both
    inputs blank in the markup, restoreSpoolPrefs puts the normalized export
    path and the trimmed report name back (an empty path or a blank name is
    not restored), and leaving the restored fields again changes neither the
    fields nor the storage. *)
Theorem spool_prefs_round_trip (f : SpoolFields) (v r exportMarkup reportMarkup : Text.t) :
  exportField f = Some v -> reportField f = Some r ->
  blank exportMarkup = true -> blank reportMarkup = true ->
  let back :=
    restoreSpoolPrefs
      (reloaded exportMarkup reportMarkup (onReportBlur (onExportBlur f))) in
  exportField back
  = Some (match v with [] => exportMarkup | _ :: _ => ensureTrailingSeparator v end)
  /\ reportField back
     = Some (match trim js_space r with [] => reportMarkup | t => t end)
  /\ (v <> [] -> onReportBlur (onExportBlur back) = back).
Proof.
  intros Hv Hr He Hrep back. subst back.
  unfold onExportBlur. rewrite Hv. unfold onReportBlur. cbn [reportField].
  rewrite Hr. unfold reloaded, restoreSpoolPrefs.
  cbn [exportField reportField savedExportPath savedReportName restoreField].
  rewrite He, Hrep, !andb_true_r.
  assert (E1 : (if truthy (Some (ensureTrailingSeparator v))
                then Some (ensureTrailingSeparator v) else Some exportMarkup)
               = Some (match v with [] => exportMarkup
                                  | _ :: _ => ensureTrailingSeparator v end)).
  { destruct v as [|c t]; [reflexivity|].
    destruct (ensureTrailingSeparator_normal c t) as [Hne _].
    destruct (ensureTrailingSeparator (c :: t)); [congruence | reflexivity]. }
  assert (E2 : (if truthy (Some (trim js_space r))
                then Some (trim js_space r) else Some reportMarkup)
               = Some (match trim js_space r with [] => reportMarkup | t => t end)).
  { now destruct (trim js_space r). }
  rewrite E1, E2. split; [reflexivity|]. split; [reflexivity|].
  intros Hne. destruct v as [|c t]; [congruence|].
  destruct (ensureTrailingSeparator_normal c t) as [_ [Hfix _]].
  unfold onExportBlur. cbn [exportField]. rewrite Hfix.
  unfold onReportBlur. cbn [reportField].
  destruct (trim js_space r) as [|d u] eqn:T.
  - unfold blank in Hrep. destruct (trim js_space reportMarkup) eqn:T'; [|discriminate].
    reflexivity.
  - rewrite <- T, trim_idem. reflexivity.
Qed.

(** An instance of X13: the path D:\Reports and a report name with outer
    blanks. *)
Lemma spool_prefs_reports :
  let f := {| exportField := Some (lit "D:\Reports");
              reportField := Some (lit " ventas ");
              savedExportPath := None; savedReportName := None |} in
  let back :=
    restoreSpoolPrefs (reloaded [] [] (onReportBlur (onExportBlur f))) in
  exportField back = Some (lit "D:\Reports" ++ [backslash])
  /\ reportField back = Some (lit "ventas")
  /\ (lit "D:\Reports" <> [] -> onReportBlur (onExportBlur back) = back).
Proof.
  cbv zeta.
  exact (spool_prefs_round_trip
           {| exportField := Some (lit "D:\Reports");
              reportField := Some (lit " ventas ");
              savedExportPath := None; savedReportName := None |}
           (lit "D:\Reports") (lit " ventas ") [] []
           eq_refl eq_refl eq_refl eq_refl).
Defined.
